(** * Analysis layer of qiskit-experiments: quantum volume and composite analysis

    A shallow embedding of
    - [qiskit_experiments/framework/composite/composite_analysis.py]
      (class [CompositeAnalysis]) and
    - [qiskit_experiments/library/quantum_volume/qv_analysis.py]
      (class [QuantumVolumeAnalysis]),
    with the properties their specification states about them. *)

From Stdlib Require Import ZArith List Bool Ascii String Lia Reals Lra Floats Sorted.
From stdpp Require Import base option list strings gmap.

Set Warnings "-register-all,-inexact-float".

Local Open Scope string_scope.
Local Open Scope list_scope.

(** * Composite analysis *)

Module Composite.

(** The exceptions the code can meet: [QiskitError] is raised by
    [_run_analysis] itself, [IndexError] by the per-index accessors,
    [AttributeError] by [num_experiments] on an experiment that has none, and
    [Raised name] is whatever a component's own analysis raises. *)
Inductive Exception : Type :=
| QiskitError (msg : string)
| IndexError
| AttributeError
| Raised (name : string).

(** An experiment definition: a single experiment, or a composite one with
    its ordered component experiments ([CompositeExperiment._experiments]). *)
Inductive Experiment : Type :=
| LeafExperiment (type_label : string) (qubits : list nat)
| CompositeExperiment (type_label : string) (qubits : list nat)
                      (experiments : list Experiment).

Definition physical_qubits (e : Experiment) : list nat :=
  match e with
  | LeafExperiment _ q => q
  | CompositeExperiment _ q _ => q
  end.

(** What [AnalysisResultData(result_data)] wraps in [_run_analysis]: the
    dict with the keys ["experiment_types"], ["experiment_ids"] and
    ["experiment_qubits"]. *)
Record CompositeResult : Type := mkCompositeResult {
  experiment_types : list string;
  experiment_ids : list string;
  experiment_qubits : list (list nat)
}.

Inductive AnalysisResultData : Type :=
| AggregateResult (r : CompositeResult)
| ComponentResult (payload : string).

(** A data container. [ExperimentData] is the plain class, and
    [CompositeExperimentData] its subclass with one container per component
    ([_components]). [stored] are the analysis results attached so far. *)
Inductive ExperimentData : Type :=
| PlainExperimentData (exp : Experiment) (type_label id : string)
                      (stored : list AnalysisResultData)
| CompositeExperimentData (exp : Experiment) (type_label id : string)
                          (components : list ExperimentData)
                          (stored : list AnalysisResultData).

Definition experiment (d : ExperimentData) : Experiment :=
  match d with
  | PlainExperimentData e _ _ _ => e
  | CompositeExperimentData e _ _ _ _ => e
  end.

Definition experiment_type (d : ExperimentData) : string :=
  match d with
  | PlainExperimentData _ t _ _ => t
  | CompositeExperimentData _ t _ _ _ => t
  end.

Definition experiment_id (d : ExperimentData) : string :=
  match d with
  | PlainExperimentData _ _ i _ => i
  | CompositeExperimentData _ _ i _ _ => i
  end.

Definition stored_results (d : ExperimentData) : list AnalysisResultData :=
  match d with
  | PlainExperimentData _ _ _ s => s
  | CompositeExperimentData _ _ _ _ s => s
  end.

Definition components (d : ExperimentData) : list ExperimentData :=
  match d with
  | PlainExperimentData _ _ _ _ => []
  | CompositeExperimentData _ _ _ c _ => c
  end.

(** [isinstance(experiment_data, CompositeExperimentData)]. *)
Definition isinstance_CompositeExperimentData (d : ExperimentData) : bool :=
  match d with
  | PlainExperimentData _ _ _ _ => false
  | CompositeExperimentData _ _ _ _ _ => true
  end.

(** The docstring's return type: the results ``may be a single or list of
    AnalysisResultData objects'', the figures ``None, a single figure, or a
    list of figures''. *)
Inductive AnalysisResults : Type :=
| SingleResult (r : AnalysisResultData)
| ResultList (rs : list AnalysisResultData).

Inductive Figures : Type :=
| NoFigures
| SingleFigure (fig : string)
| FigureList (figs : list string).

(** ** The store and its monad

    [_run_analysis] mutates the container it is given: each component's
    analysis writes into that component's container. The store holds the
    container, and the ghost field [calls]: the indices at which
    [exp.run_analysis] was called, in call order. No definition reads
    [calls]; it is there for the statements about the order of calls. An
    exception leaves the store as it was when it was raised. *)
Record Store : Type := mkStore {
  container : ExperimentData;
  calls : list nat
}.

Definition M (A : Type) : Type := Store → Store * (Exception + A).

Definition ret {A} (a : A) : M A := λ s, (s, inr a).
Definition raise {A} (e : Exception) : M A := λ s, (s, inl e).
Definition bind {A B} (m : M A) (k : A → M B) : M B :=
  λ s, match m s with
       | (s', inl e) => (s', inl e)
       | (s', inr a) => k a s'
       end.

#[export] Instance M_ret : MRet M := @ret.
#[export] Instance M_bind : MBind M := λ A B k m, bind m k.

(** [for i in range(n)] with a loop-carried value. *)
Fixpoint for_each {A} (indices : list nat) (body : nat → A → M A) (a : A) : M A :=
  match indices with
  | [] => ret a
  | i :: rest => a' ← body i a; for_each rest body a'
  end.

Definition for_range {A} (n : nat) (body : nat → A → M A) (a : A) : M A :=
  for_each (seq 0 n) body a.

(** Modelled from the spec: the accessors of [CompositeExperiment] and
    [CompositeExperimentData], which are not among the source files: ``a
    declared child count and per-index accessors for child experiment
    definition and child data container''. The count is that of the component
    experiments; an index out of range raises [IndexError]. *)
Definition num_experiments (comp_exp : Experiment) : M nat :=
  match comp_exp with
  | CompositeExperiment _ _ exps => ret (length exps)
  | LeafExperiment _ _ => raise AttributeError
  end.

Definition component_experiment (comp_exp : Experiment) (i : nat) : M Experiment :=
  match comp_exp with
  | CompositeExperiment _ _ exps =>
      match exps !! i with
      | Some e => ret e
      | None => raise IndexError
      end
  | LeafExperiment _ _ => raise AttributeError
  end.

(** [experiment_data.component_experiment_data(i)], read from the store: the
    container as it is now. *)
Definition component_experiment_data (i : nat) : M ExperimentData :=
  λ s, match components (container s) !! i with
       | Some d => (s, inr d)
       | None => (s, inl IndexError)
       end.

Definition set_component (i : nat) (d' : ExperimentData) (d : ExperimentData)
  : ExperimentData :=
  match d with
  | CompositeExperimentData e t n c st =>
      CompositeExperimentData e t n (<[i := d']> c) st
  | PlainExperimentData _ _ _ _ => d
  end.

Section Dispatcher.
Context {Options : Type}.

  (** [exp.run_analysis(expdata, **options)]: the component's own analysis,
      whatever its class. It either raises or leaves the component's
      container in a new state. *)
Variable run_analysis :
    Experiment → ExperimentData → Options → Exception + ExperimentData.

  (** The call [exp.run_analysis(expdata, **options)] on component [i]: the
      call is logged, and the container of component [i] is replaced by what
      the analysis left. *)
Definition call_run_analysis (i : nat) (exp : Experiment)
      (expdata : ExperimentData) (options : Options) : M unit :=
    λ s,
      let s1 := mkStore (container s) (calls s ++ [i]) in
      match run_analysis exp expdata options with
      | inl e => (s1, inl e)
      | inr expdata' =>
          (mkStore (set_component i expdata' (container s1)) (calls s1), inr tt)
      end.

  (** The body of the loop [for i in range(comp_exp.num_experiments)], with
      the three lists [sub_types], [sub_ids], [sub_qubits] as the value the
      loop carries. The second read of the component's container is the read
      of [expdata.experiment_type] and the like after the analysis ran:
      [expdata] is a reference to the container in the store. *)
Definition loop_body (options : Options) (comp_exp : Experiment) (i : nat)
      (subs : list string * list string * list (list nat))
    : M (list string * list string * list (list nat)) :=
    let '(sub_types, sub_ids, sub_qubits) := subs in
    exp ← component_experiment comp_exp i;
    expdata ← component_experiment_data i;
    call_run_analysis i exp expdata options;;
    expdata ← component_experiment_data i;
    ret (sub_types ++ [experiment_type expdata],
         sub_ids ++ [experiment_id expdata],
         sub_qubits ++ [physical_qubits (experiment expdata)]).

Definition _run_analysis (options : Options) : M (AnalysisResults * Figures) :=
    λ s,
      let experiment_data := container s in
      (if negb (isinstance_CompositeExperimentData experiment_data) then
         raise (QiskitError
                  "CompositeAnalysis must be run on CompositeExperimentData.")
       else
         let comp_exp := experiment experiment_data in
         n ← num_experiments comp_exp;
         '(sub_types, sub_ids, sub_qubits) ←
           for_range n (loop_body options comp_exp) ([], [], []);
         let result_data := mkCompositeResult sub_types sub_ids sub_qubits in
         ret (ResultList [AggregateResult result_data], NoFigures)) s.

End Dispatcher.

(** Modelled from the spec: [BaseExperiment.run_analysis], which is not among
    the source files: it invokes the analysis of the experiment's own class
    on the container, ``polymorphic over Leaf and Composite: recursion occurs
    transparently when the child is itself Composite'', and ``attaches the
    child's own result(s) to the child's data container''. [leaf_analysis] is
    the analysis of a single experiment; [fuel] bounds the nesting of
    composite experiments, as the interpreter's recursion limit does. *)
Definition attach (rs : list AnalysisResultData) (d : ExperimentData)
  : ExperimentData :=
  match d with
  | PlainExperimentData e t i st => PlainExperimentData e t i (st ++ rs)
  | CompositeExperimentData e t i c st => CompositeExperimentData e t i c (st ++ rs)
  end.

Definition results_list (r : AnalysisResults) : list AnalysisResultData :=
  match r with
  | SingleResult r => [r]
  | ResultList rs => rs
  end.

Section RunAnalysis.
Context {Options : Type}.
Variable leaf_analysis :
    Experiment → ExperimentData → Options → Exception + AnalysisResultData.

Fixpoint run_analysis (fuel : nat) (exp : Experiment)
      (expdata : ExperimentData) (options : Options)
    : Exception + ExperimentData :=
    match fuel with
    | O => inl (Raised "RecursionError")
    | S fuel' =>
        match exp with
        | LeafExperiment _ _ =>
            match leaf_analysis exp expdata options with
            | inl e => inl e
            | inr r => inr (attach [r] expdata)
            end
        | CompositeExperiment _ _ _ =>
            match _run_analysis (run_analysis fuel') options (mkStore expdata []) with
            | (_, inl e) => inl e
            | (s', inr (results, _)) =>
                inr (attach (results_list results) (container s'))
            end
        end
    end.
End RunAnalysis.

(** The composite node of the specification's example: three single
    experiments of types A, B, C on qubits [0], [1], [2,3]. *)
Definition example_exps : list Experiment :=
  [LeafExperiment "A" [0]; LeafExperiment "B" [1]; LeafExperiment "C" [2; 3]].

Definition example_data : ExperimentData :=
  CompositeExperimentData (CompositeExperiment "Batch" [0; 1; 2; 3] example_exps)
    "Batch" "id0"
    [PlainExperimentData (LeafExperiment "A" [0]) "A" "id1" [];
     PlainExperimentData (LeafExperiment "B" [1]) "B" "id2" [];
     PlainExperimentData (LeafExperiment "C" [2; 3]) "C" "id3" []]
    [].

(** A single-experiment analysis that always succeeds, and one that fails on
    the experiment of type B. *)
Definition analysis_ok (exp : Experiment) (d : ExperimentData) (_ : unit)
  : Exception + AnalysisResultData :=
  inr (ComponentResult (experiment_id d)).

Definition analysis_fails_on_B (exp : Experiment) (d : ExperimentData) (_ : unit)
  : Exception + AnalysisResultData :=
  if String.eqb (experiment_type d) "B" then inl (Raised "AnalysisError")
  else inr (ComponentResult (experiment_id d)).

End Composite.


(** * Binary64 floats and the reals

    The value of a float as a real number, and what it means for a float to
    be the rounding of a real. The operations themselves are Rocq's
    primitive ones, specified by [SpecFloat]. *)

Module B64.

Definition bpow (e : Z) : R := powerRZ 2 e.

Definition SF2R (x : spec_float) : R :=
  match x with
  | S754_finite s m e => IZR (cond_Zopp s (Zpos m)) * bpow e
  | _ => 0
  end.

Definition is_finite_SF (x : spec_float) : bool :=
  match x with
  | S754_finite _ _ _ | S754_zero _ => true
  | _ => false
  end.

(** Magnitude and sign of a [spec_float]. *)
Definition SFmag (r : spec_float) : R :=
  match r with
  | S754_finite _ m e => IZR (Zpos m) * bpow e
  | _ => 0
  end.

Definition SFsign (r : spec_float) : bool :=
  match r with
  | S754_finite s _ _ | S754_zero s | S754_infinity s => s
  | S754_nan => false
  end.

(** The real [x] lies in the slot [m * 2^e, (m+1) * 2^e), and [l] says
    whether it is its lower end. *)
Definition inbetween (m e : Z) (l : location) (x : R) : Prop :=
  (IZR m * bpow e <= x < IZR (m + 1) * bpow e)%R ∧
  (l = loc_Exact ↔ x = (IZR m * bpow e)%R).

(** A record of [shr] is inexact when a nonzero bit was shifted out. *)
Definition inex (mrs : shr_record) : bool := shr_r mrs || shr_s mrs.

(** [r], of sign [sx], is a faithful rounding of the magnitude [x]: it is a
    valid float; when it is finite no float lies strictly between [x] and
    it, on either side; it is an infinity only when [x] is above all
    floats. *)
Definition rounds_mag (sx : bool) (x : R) (r : spec_float) : Prop :=
  valid_binary r = true ∧ SFsign r = sx ∧
  ((is_finite_SF r = true ∧ (x = 0%R → SFmag r = 0%R) ∧
    ∀ mg eg, bounded prec emax mg eg = true →
      (IZR (Zpos mg) * bpow eg <= x → IZR (Zpos mg) * bpow eg <= SFmag r)%R ∧
      (x <= IZR (Zpos mg) * bpow eg → SFmag r <= IZR (Zpos mg) * bpow eg)%R)
   ∨ (r = S754_infinity sx ∧
      ∀ mg eg, bounded prec emax mg eg = true → (IZR (Zpos mg) * bpow eg < x)%R)).

(** [r] is a faithful rounding of the real [X]. *)
Definition SFrounds (X : R) (r : spec_float) : Prop :=
  valid_binary r = true ∧
  ((is_finite_SF r = true ∧
    ∀ g, valid_binary g = true → is_finite_SF g = true →
      (SF2R g <= X → SF2R g <= SF2R r)%R ∧ (X <= SF2R g → SF2R r <= SF2R g)%R)
   ∨ (r = S754_infinity false ∧
      ∀ g, valid_binary g = true → is_finite_SF g = true → (SF2R g < X)%R)
   ∨ (r = S754_infinity true ∧
      ∀ g, valid_binary g = true → is_finite_SF g = true → (X < SF2R g)%R)).

(** The real value of a primitive float (0 for a NaN or an infinity), and the
    floats that have one. *)
Definition FR (f : float) : R := SF2R (Prim2SF f).

Definition finite (f : float) : Prop := is_finite_SF (Prim2SF f) = true.

(** [r] is a faithful rounding of the real [X] to binary64. *)
Definition rounds_to (X : R) (r : float) : Prop :=
  (finite r ∧
   ∀ g, finite g → (FR g <= X → FR g <= FR r)%R ∧ (X <= FR g → FR r <= FR g)%R)
  ∨ (r = infinity ∧ ∀ g, finite g → (FR g < X)%R)
  ∨ (r = neg_infinity ∧ ∀ g, finite g → (X < FR g)%R).

End B64.

(** * Quantum volume analysis *)

Module QuantumVolume.

(** Python floats and numpy's [float64] are IEEE 754 binary64 numbers: they
    are Rocq's primitive floats, whose [+], [-], [*], [/] and comparisons
    are the IEEE ones (round to nearest, ties to even; NaN compares false). *)

Inductive Exception : Type :=
| ZeroDivisionError
| OverflowError
| IndexError.

(** A run either raises, or returns a value with the warnings that the
    source's own [warnings.warn] calls emitted, in order. *)
Definition Run (A : Type) : Type := Exception + A * list string.

Definition ret {A} (a : A) : Run A := inr (a, []).
Definition raise {A} (e : Exception) : Run A := inl e.
Definition warn (msg : string) : Run unit := inr (tt, [msg]).
Definition bind {A B} (m : Run A) (k : A → Run B) : Run B :=
  match m with
  | inl e => inl e
  | inr (a, w1) =>
      match k a with
      | inl e => inl e
      | inr (b, w2) => inr (b, w1 ++ w2)
      end
  end.
Definition lift {A} (r : Exception + A) : Run A :=
  match r with
  | inl e => inl e
  | inr a => ret a
  end.

#[export] Instance Run_ret : MRet Run := @ret.
#[export] Instance Run_bind : MBind Run := λ A B k m, bind m k.

(** ** Numbers

    [int_to_float n] is the conversion of the Python integer [n] to a float
    where the source mixes the two ([(1.0 - mean_hop) / trials]): the nearest
    float, and [OverflowError] when [n] is too large for any. *)
Definition int_to_float (n : Z) : Exception + float :=
  match binary_normalize prec emax n 0 false with
  | S754_infinity _ => inl OverflowError
  | sf => inr (SF2Prim sf)
  end.

(** [a / b] on Python integers (true division): [ZeroDivisionError] when
    [b] is 0, else the float nearest to the quotient, computed from the
    integers themselves; [OverflowError] when the quotient is too large. *)
Definition int_truediv (a b : Z) : Exception + float :=
  if (b =? 0)%Z then inl ZeroDivisionError
  else
    let sf :=
      match a with
      | Z0 => S754_zero (b <? 0)%Z
      | _ =>
          let '(q, e, l) := SFdiv_core_binary prec emax (Z.abs a) 0 (Z.abs b) 0 in
          binary_round_aux prec emax (xorb (a <? 0)%Z (b <? 0)%Z) q e l
      end in
    match sf with
    | S754_infinity _ => inl OverflowError
    | _ => inr (SF2Prim sf)
    end.

(** What the source takes from numpy and the C library, whose values in the
    last bit are theirs to choose: [np.mean] (numpy's summation order),
    [x ** 0.5] (the C library's [pow]) and [math.erf]. *)
Record Numerics : Type := mkNumerics {
  np_mean : list float → float;
  pow_half : float → float;
  math_erf : float → float
}.

(** [np.median] of a vector of floats: NaN when it holds a NaN or is empty;
    else the middle value of the sorted vector, or for an even length the
    mean of the two middle values, [(a + b) / 2]. *)
Fixpoint insert_sorted (x : float) (l : list float) : list float :=
  match l with
  | [] => [x]
  | y :: rest => if (x <=? y)%float then x :: l else y :: insert_sorted x rest
  end.

Definition sort_floats (l : list float) : list float := foldr insert_sorted [] l.

Definition np_median (v : list float) : float :=
  if existsb is_nan v then nan
  else
    let s := sort_floats v in
    let n := length s in
    if (n =? 0)%nat then nan
    else if Nat.even n then
      (nth (n / 2 - 1) s nan + nth (n / 2) s nan) / 2
    else nth (n / 2) s nan.

(** ** Strings and dicts

    ["{0:0%db}" % depth] applied to [b]: the binary digits of [b], padded
    with zeros on the left up to width [depth]. *)
Fixpoint pos_bits (p : positive) : string :=
  match p with
  | xH => "1"
  | xO q => (pos_bits q +:+ "0")%string
  | xI q => (pos_bits q +:+ "1")%string
  end.

Definition bin (n : N) : string :=
  match n with
  | N0 => "0"
  | Npos p => pos_bits p
  end.

Fixpoint zeros (k : nat) : string :=
  match k with
  | O => ""
  | S k' => String "0"%char (zeros k')
  end.

Definition zfill (width : nat) (s : string) : string :=
  (zeros (width - String.length s) +:+ s)%string.

Definition format_binary (depth : nat) (b : nat) : string :=
  zfill depth (bin (N.of_nat b)).

(** The number that a string of binary digits denotes (what [int(s, 2)]
    returns), used to tell formatted indices apart. *)
Fixpoint binary_value_from (s : string) (acc : N) : N :=
  match s with
  | EmptyString => acc
  | String c rest =>
      binary_value_from rest (2 * acc + (if Ascii.eqb c "1" then 1 else 0))%N
  end.

Definition binary_value (s : string) : N := binary_value_from s 0.

(** A Python dict with string keys, in insertion order: setting a key that
    is there replaces its value in place, a new key goes to the end. *)
Fixpoint dict_set {V} (k : string) (v : V) (d : list (string * V)) : list (string * V) :=
  match d with
  | [] => [(k, v)]
  | (k', v') :: rest =>
      if String.eqb k k' then (k, v) :: rest else (k', v') :: dict_set k v rest
  end.

Fixpoint dict_get {V} (k : string) (d : list (string * V)) : option V :=
  match d with
  | [] => None
  | (k', v') :: rest => if String.eqb k k' then Some v' else dict_get k rest
  end.

Definition dict_keys {V} (d : list (string * V)) : list string := map fst d.

(** ** The records of a trial and of the result *)

Record TrialRecord : Type := mkTrial {
  counts : gmap string Z;
  metadata_depth : nat;
  ideal_probabilities : list float
}.

Record QuantumVolumeResult : Type := mkResult {
  quantum_volume : Z;
  qv_success : bool;
  confidence : float;
  heavy_output_probability : list float;
  mean_hop : float;
  sigma : float;
  depth : nat;
  trials : Z
}.

(** [experiment_data]: [experiment.num_qubits] and [data()]. *)
Record ExperimentData : Type := mkExperimentData {
  num_qubits : nat;
  data : list TrialRecord
}.

(** The figure [_format_plot] draws, known here by the result it shows. *)
Inductive Figure : Type :=
| QVPlot (ax : option string) (result : QuantumVolumeResult).

(** ** [_calc_ideal_heavy_output] *)

(** The dict comprehension
    [{format_spec.format(b): float(np.real(probabilities_vector[b])) for b in range(2 ** depth)}];
    an index past the end of the vector raises [IndexError]. *)
Fixpoint build_dict (depth : nat) (probabilities_vector : list float)
    (bs : list nat) (d : list (string * float)) : Exception + list (string * float) :=
  match bs with
  | [] => inr d
  | b :: rest =>
      match probabilities_vector !! b with
      | None => inl IndexError
      | Some p =>
          build_dict depth probabilities_vector rest (dict_set (format_binary depth b) p d)
      end
  end.

(** The filter's test [all_output_prob_ideal[x] > median_probabilities]; [x]
    is always a key of the dict. *)
Definition is_heavy (all_output_prob_ideal : list (string * float))
    (median_probabilities : float) (x : string) : bool :=
  match dict_get x all_output_prob_ideal with
  | Some p => (median_probabilities <? p)%float
  | None => false
  end.

Definition _calc_ideal_heavy_output (probabilities_vector : list float) (depth : nat)
  : Exception + list string :=
  match build_dict depth probabilities_vector (seq 0 (2 ^ depth)) [] with
  | inl e => inl e
  | inr all_output_prob_ideal =>
      let median_probabilities := np_median probabilities_vector in
      let heavy_strings :=
        List.filter (is_heavy all_output_prob_ideal median_probabilities)
                    (dict_keys all_output_prob_ideal) in
      inr heavy_strings
  end.

(** ** [_calc_exp_heavy_output_probability] *)

Definition sum_values (m : gmap string Z) : Z :=
  map_fold (λ _ v acc, (v + acc)%Z) 0%Z m.

Definition sum_list (l : list Z) : Z := foldr Z.add 0%Z l.

Definition _calc_exp_heavy_output_probability (data : TrialRecord)
    (heavy_outputs : list string) : Exception + float :=
  let circ_shots := sum_values (counts data) in
  let heavy_output_counts :=
    sum_list (map (λ value, default 0%Z (counts data !! value)) heavy_outputs) in
  int_truediv heavy_output_counts circ_shots.

(** A division of floats whose divisor the source guards. On Python floats a
    zero divisor raises [ZeroDivisionError]; numpy's floats warn instead and
    give an infinity or a NaN. The model takes the first reading, the one
    under which the guard is needed. *)
Definition checked_div (x y : float) : Run float :=
  if (y =? 0)%float then raise ZeroDivisionError else ret (x / y)%float.

Section Estimator.
Variable N : Numerics.

(** ** [_calc_z_value], [_calc_confidence_level], [_calc_quantum_volume] *)

Definition _calc_z_value (mean sigma : float) : Run float :=
  sigma ← (if (sigma =? 0)%float then
             warn "Standard deviation sigma should not be zero.";; ret 1e-10%float
           else ret sigma);
  z_value ← checked_div (mean - 2 / 3)%float sigma;
  ret z_value.

Definition _calc_confidence_level (z_value : float) : float :=
  (0.5 * (1 + math_erf N (z_value / pow_half N 2)))%float.

Definition _calc_quantum_volume (heavy_output_prob_exp : list float)
    (depth : nat) (trials : Z) : Run QuantumVolumeResult :=
  let mean_hop := np_mean N heavy_output_prob_exp in
  trials_f ← lift (int_to_float trials);
  let sigma_hop := pow_half N (mean_hop * ((1 - mean_hop) / trials_f))%float in
  let z := 2%float in
  let threshold := (2 / 3 + z * sigma_hop)%float in
  z_value ← _calc_z_value mean_hop sigma_hop;
  let confidence_level := _calc_confidence_level z_value in
  (if (trials <? 100)%Z then
     warn "Must use at least 100 trials to consider Quantum Volume as successful."
   else ret tt);;
  let '(quantum_volume, success) :=
    if (threshold <? mean_hop)%float && (100 <=? trials)%Z
    then ((2 ^ Z.of_nat depth)%Z, true) else (1%Z, false) in
  ret {| quantum_volume := quantum_volume;
         qv_success := success;
         confidence := confidence_level;
         heavy_output_probability := heavy_output_prob_exp;
         mean_hop := mean_hop;
         sigma := sigma_hop;
         depth := depth;
         trials := trials |}.

(** ** [_run_analysis] *)

(** The loop over the trials, which fills [heavy_output_prob_exp] in trial
    order. *)
Fixpoint heavy_output_probabilities (data : list TrialRecord) : Exception + list float :=
  match data with
  | [] => inr []
  | data_trial :: rest =>
      match _calc_ideal_heavy_output (ideal_probabilities data_trial)
                                     (metadata_depth data_trial) with
      | inl e => inl e
      | inr heavy_output =>
          match _calc_exp_heavy_output_probability data_trial heavy_output with
          | inl e => inl e
          | inr hop =>
              match heavy_output_probabilities rest with
              | inl e => inl e
              | inr hops => inr (hop :: hops)
              end
          end
      end
  end.

Definition _run_analysis (HAS_MATPLOTLIB : bool) (experiment_data : ExperimentData)
    (plot : bool) (ax : option string)
  : Run (list QuantumVolumeResult * option (list Figure)) :=
  let depth := num_qubits experiment_data in
  let data := data experiment_data in
  let num_trials := Z.of_nat (length data) in
  heavy_output_prob_exp ← lift (heavy_output_probabilities data);
  analysis_result ← _calc_quantum_volume heavy_output_prob_exp depth num_trials;
  let figures :=
    if plot && HAS_MATPLOTLIB then Some [QVPlot ax analysis_result] else None in
  ret ([analysis_result], figures).

End Estimator.

(** What the analysis needs of the square root and of [erf], stated with
    float comparisons only. [x ** 0.5] is zero only at a zero, is never
    negative, and is within 0.001 of the square root of 2 at 2; [erf] stays
    in [[-1, 1]] off NaN and is at least 0.9541015625 from 1.4130859375 on
    (the error function is 0.9543 there and increases). *)
Record NumericsSpec (N : Numerics) : Prop := mkNumericsSpec {
  pow_half_zero : ∀ x, (pow_half N x =? 0)%float = true → (x =? 0)%float = true;
  pow_half_nonneg : ∀ x, (pow_half N x <? 0)%float = false;
  pow_half_two :
    (1.4140625 <=? pow_half N 2)%float = true
    ∧ (pow_half N 2 <=? 1.4150390625)%float = true;
  erf_range : ∀ x, is_nan x = false →
    (-1 <=? math_erf N x)%float = true ∧ (math_erf N x <=? 1)%float = true;
  erf_lower : ∀ x, (1.4130859375 <=? x)%float = true →
    (0.9541015625 <=? math_erf N x)%float = true
}.

(** ** Reference numerics

    One choice of the three library functions, for running the definitions:
    the mean by a left-to-right sum, [x ** 0.5] by the IEEE square root with
    the special cases of C's [pow], and for [erf] a three-valued stand-in
    that has the range of [erf] and is 1 from 1.4130859375 on. *)
Definition mean_sequential (l : list float) : float :=
  (fold_left PrimFloat.add l 0
   / SF2Prim (binary_normalize prec emax (Z.of_nat (length l)) 0 false))%float.

Definition pow_half_sqrt (x : float) : float :=
  if (x =? 0)%float then 0%float
  else if (x =? neg_infinity)%float then infinity
  else sqrt x.

Definition erf_steps (x : float) : float :=
  if (x <? -1.4130859375)%float then (-1)%float
  else if (1.4130859375 <=? x)%float then 1%float
  else if is_nan x then nan
  else 0%float.

Definition reference_numerics : Numerics :=
  mkNumerics mean_sequential pow_half_sqrt erf_steps.

(** ** Example data

    A trial on two qubits whose only heavy output is ["11"], measured once
    as ["11"] (heavy-output probability 1) or once as ["00"] (probability
    0); an experiment of 100 such trials, and the same trials under an
    experiment that declares three qubits while their metadata say depth
    2. *)
Definition example_probabilities : list float := [0.1; 0.1; 0.1; 0.7]%float.

Definition trial_heavy : TrialRecord :=
  mkTrial {["11" := 1%Z]} 2 example_probabilities.

Definition trial_light : TrialRecord :=
  mkTrial {["00" := 1%Z]} 2 example_probabilities.

Definition example_experiment : ExperimentData :=
  mkExperimentData 2 (replicate 76 trial_heavy ++ replicate 24 trial_light).

Definition example_experiment_three_qubits : ExperimentData :=
  mkExperimentData 3 (replicate 76 trial_heavy ++ replicate 24 trial_light).

(** Two containers that differ at most in the depth their trials' metadata
    records. *)
Definition same_but_metadata_depth (e1 e2 : ExperimentData) : Prop :=
  num_qubits e1 = num_qubits e2 ∧
  Forall2 (λ t1 t2, counts t1 = counts t2 ∧
                    ideal_probabilities t1 = ideal_probabilities t2)
          (data e1) (data e2).

End QuantumVolume.

(** * Properties of the composite analysis *)

Module CompositeTheory.
Import Composite.

Section Loop.
Context {Options : Type}.
Variable run_analysis :
    Experiment → ExperimentData → Options → Exception + ExperimentData.
Variable options : Options.

Lemma for_each_app {A} (l1 l2 : list nat) (body : nat → A → M A) (a : A) (s : Store) :
    for_each (l1 ++ l2) body a s =
    match for_each l1 body a s with
    | (s', inl e) => (s', inl e)
    | (s', inr a') => for_each l2 body a' s'
    end.
Proof.
    revert a s. induction l1 as [|i l1 IH]; intros a s; simpl; [done|].
    unfold mbind, M_bind, bind.
    destruct (body i a s) as [s' [e|a']]; [done|]. apply IH.
Qed.

Lemma for_each_cons {A} i (rest : list nat) (body : nat → A → M A) (a : A) (s : Store) :
    for_each (i :: rest) body a s =
    match body i a s with
    | (s', inl e) => (s', inl e)
    | (s', inr a') => for_each rest body a' s'
    end.
Proof. reflexivity. Qed.

Variables (tl : string) (q : list nat) (exps : list Experiment).
Variables (t id : string) (st : list AnalysisResultData).

Let comp_exp : Experiment := CompositeExperiment tl q exps.
Let node (cur : list ExperimentData) : ExperimentData :=
    CompositeExperimentData comp_exp t id cur st.
Let body := loop_body run_analysis options comp_exp.

  (** One pass of the loop body on a component whose analysis succeeds. *)
Lemma loop_body_ok i cur log ts ids qs exp d d' :
    exps !! i = Some exp → cur !! i = Some d →
    run_analysis exp d options = inr d' →
    body i (ts, ids, qs) (mkStore (node cur) log) =
      (mkStore (node (<[i := d']> cur)) (log ++ [i]),
       inr (ts ++ [experiment_type d'], ids ++ [experiment_id d'],
            qs ++ [physical_qubits (experiment d')])).
Proof.
    intros Hexp Hd Hrun.
    unfold body, loop_body, comp_exp, component_experiment,
      component_experiment_data, call_run_analysis; simpl.
    unfold mbind, M_bind, bind, mret, M_ret, ret; simpl.
    rewrite Hexp; simpl. rewrite Hd; simpl. rewrite Hrun; simpl.
    rewrite list_lookup_insert_eq by (eapply lookup_lt_Some; eauto).
    reflexivity.
Qed.

  (** One pass of the loop body on a component whose analysis raises. *)
Lemma loop_body_raises i cur log subs exp d e :
    exps !! i = Some exp → cur !! i = Some d →
    run_analysis exp d options = inl e →
    body i subs (mkStore (node cur) log) =
      (mkStore (node cur) (log ++ [i]), inl e).
Proof.
    intros Hexp Hd Hrun. destruct subs as [[ts ids] qs].
    unfold body, loop_body, comp_exp, component_experiment,
      component_experiment_data, call_run_analysis; simpl.
    unfold mbind, M_bind, bind, mret, M_ret, ret; simpl.
    rewrite Hexp; simpl. rewrite Hd; simpl. rewrite Hrun; simpl.
    reflexivity.
Qed.

  (** The loop over the indices [k, k+m), when the analysis of each of these
      components succeeds: the calls are logged in ascending order, the
      containers of these components are replaced by what their analysis
      left, the others are untouched, and the three lists grow by the entries
      of these components, in order. *)
Lemma loop_ok m : ∀ k cur log ts ids qs,
    (∀ i, k ≤ i < k + m → ∃ exp d d',
        exps !! i = Some exp ∧ cur !! i = Some d ∧
        run_analysis exp d options = inr d') →
    ∃ cur',
      for_each (seq k m) body (ts, ids, qs) (mkStore (node cur) log) =
        (mkStore (node cur') (log ++ seq k m),
         inr (ts ++ map experiment_type (take m (drop k cur')),
              ids ++ map experiment_id (take m (drop k cur')),
              qs ++ map (λ d, physical_qubits (experiment d)) (take m (drop k cur'))))
      ∧ length cur' = length cur
      ∧ (∀ i, ¬ (k ≤ i < k + m) → cur' !! i = cur !! i)
      ∧ (∀ i exp d, k ≤ i < k + m → exps !! i = Some exp → cur !! i = Some d →
           ∃ d', run_analysis exp d options = inr d' ∧ cur' !! i = Some d').
Proof.
    induction m as [|m IH]; intros k cur log ts ids qs Hall.
    - exists cur. simpl. rewrite !app_nil_r. repeat split; auto. intros; lia.
    - destruct (Hall k ltac:(lia)) as (exp & d & d' & Hexp & Hd & Hrun).
      cbn [seq]. rewrite for_each_cons.
      rewrite (loop_body_ok _ _ _ _ _ _ _ _ _ Hexp Hd Hrun).
      destruct (IH (S k) (<[k := d']> cur) (log ++ [k])
                  (ts ++ [experiment_type d']) (ids ++ [experiment_id d'])
                  (qs ++ [physical_qubits (experiment d')]))
        as (cur' & Hrun' & Hlen & Hout & Hin).
      { intros i Hi. destruct (Hall i ltac:(lia)) as (ei & di & di' & ? & ? & ?).
        exists ei, di, di'. rewrite list_lookup_insert_ne by lia. auto. }
      assert (Hk : cur' !! k = Some d').
      { rewrite Hout by lia. apply list_lookup_insert_eq. eapply lookup_lt_Some; eauto. }
      exists cur'. rewrite Hrun'. rewrite (drop_S _ _ _ Hk). simpl.
      rewrite <- !app_assoc. simpl. split; [reflexivity|].
      split; [by rewrite Hlen, length_insert|].
      split.
      + intros i Hi. rewrite Hout by lia. apply list_lookup_insert_ne. lia.
      + intros i ei di Hi Hei Hdi. destruct (decide (i = k)) as [->|Hne].
        * exists d'. rewrite Hexp in Hei. rewrite Hd in Hdi.
          injection Hei as <-. injection Hdi as <-. auto.
        * apply (Hin i ei di); [lia|done|]. rewrite list_lookup_insert_ne by lia. done.
Qed.

End Loop.

Section Claims.
Context {Options : Type}.
Variable run_analysis :
    Experiment → ExperimentData → Options → Exception + ExperimentData.
Variable options : Options.

  (** C5. On a composite container with one container per component
      experiment, when the analysis of every component succeeds,
      [_run_analysis] calls [exp.run_analysis] at the indices
      [0, 1, ..., n-1], in this order and once each (the log grows by exactly
      [seq 0 n]), and returns the three lists [experiment_types],
      [experiment_ids] and [experiment_qubits], each of length [n], whose
      [i]-th entries are read from the container of component [i] as its
      analysis left it. *)
Theorem run_analysis_children_in_order tl q exps t id comps st log :
    length comps = length exps →
    (∀ i exp d, exps !! i = Some exp → comps !! i = Some d →
       ∃ d', run_analysis exp d options = inr d') →
    let n := length exps in
    let comp_exp := CompositeExperiment tl q exps in
    ∃ comps' r,
      _run_analysis run_analysis options
          (mkStore (CompositeExperimentData comp_exp t id comps st) log) =
        (mkStore (CompositeExperimentData comp_exp t id comps' st) (log ++ seq 0 n),
         inr (ResultList [AggregateResult r], NoFigures))
      ∧ experiment_types r = map experiment_type comps'
      ∧ experiment_ids r = map experiment_id comps'
      ∧ experiment_qubits r = map (λ d, physical_qubits (experiment d)) comps'
      ∧ length (experiment_types r) = n
      ∧ length (experiment_ids r) = n
      ∧ length (experiment_qubits r) = n
      ∧ (∀ i exp d, exps !! i = Some exp → comps !! i = Some d →
           ∃ d', run_analysis exp d options = inr d' ∧ comps' !! i = Some d').
Proof.
    intros Hlen Hall n comp_exp. subst comp_exp.
    destruct (loop_ok run_analysis options tl q exps t id st n 0 comps log [] [] [])
      as (comps' & Hrun & Hlen' & _ & Hin).
    { intros i Hi.
      destruct (lookup_lt_is_Some_2 exps i ltac:(unfold n in Hi; lia)) as [exp Hexp].
      destruct (lookup_lt_is_Some_2 comps i ltac:(unfold n in Hi; lia)) as [d Hd].
      destruct (Hall i exp d Hexp Hd) as [d' Hd']. by exists exp, d, d'. }
    assert (Hn : length comps' = n) by (unfold n; lia).
    exists comps'.
    eexists (mkCompositeResult _ _ _).
    split.
    { unfold _run_analysis, for_range. cbn [container isinstance_CompositeExperimentData
        negb experiment num_experiments].
      unfold mbind, M_bind, bind, mret, M_ret, ret. cbn [length].
      fold n. rewrite Hrun. reflexivity. }
    cbn [experiment_types experiment_ids experiment_qubits].
    rewrite drop_0, firstn_all2 by lia. cbn [app].
    rewrite !length_map.
    repeat split; auto.
    intros i exp d Hexp Hd. apply (Hin i exp d); auto.
    apply lookup_lt_Some in Hexp. unfold n. lia.
Qed.

  (** C6. On a container that is not a [CompositeExperimentData],
      [_run_analysis] raises the [QiskitError] at once: nothing is returned,
      no component analysis is called and the container is left as it
      was. *)
Theorem run_analysis_rejects_plain_data exp t id st log :
    _run_analysis run_analysis options (mkStore (PlainExperimentData exp t id st) log) =
      (mkStore (PlainExperimentData exp t id st) log,
       inl (QiskitError "CompositeAnalysis must be run on CompositeExperimentData.")).
Proof. reflexivity. Qed.

  (** C7, as amended. Whenever [_run_analysis] returns, what it returns is a
      list that holds exactly one record, the aggregate one, and no
      figure. *)
Theorem run_analysis_returns_singleton_list s s' results figures :
    _run_analysis run_analysis options s = (s', inr (results, figures)) →
    ∃ r, results = ResultList [AggregateResult r] ∧ figures = NoFigures.
Proof.
    unfold _run_analysis.
    destruct (isinstance_CompositeExperimentData (container s)); cbn [negb];
      [|discriminate].
    unfold mbind, M_bind, bind, mret, M_ret, ret.
    destruct (num_experiments _ s) as [s1 [e|n]]; [discriminate|].
    destruct (for_range _ _ _ s1) as [s2 [e|[[ts ids] qs]]]; [discriminate|].
    intros [= _ <- <-]. eauto.
Qed.

  (** C8. When the analysis of the component at index [i] raises [e], after
      those of the components before it succeeded, [_run_analysis] raises
      [e] and returns nothing; [exp.run_analysis] was then called at the
      indices [0, ..., i] only, so for no later component, and the containers
      from index [i] on are as they were. *)
Theorem run_analysis_propagates_failure tl q exps t id comps st log i exp d e :
    (∀ j, j < i → ∃ expj dj dj',
        exps !! j = Some expj ∧ comps !! j = Some dj ∧
        run_analysis expj dj options = inr dj') →
    exps !! i = Some exp → comps !! i = Some d →
    run_analysis exp d options = inl e →
    let comp_exp := CompositeExperiment tl q exps in
    ∃ comps',
      _run_analysis run_analysis options
          (mkStore (CompositeExperimentData comp_exp t id comps st) log) =
        (mkStore (CompositeExperimentData comp_exp t id comps' st) (log ++ seq 0 (S i)),
         inl e)
      ∧ (∀ j, i < j → j ∉ seq 0 (S i))
      ∧ (∀ j, (i ≤ j)%nat → comps' !! j = comps !! j).
Proof.
    intros Hbefore Hexp Hd Hrun comp_exp. subst comp_exp.
    destruct (loop_ok run_analysis options tl q exps t id st i 0 comps log [] [] [])
      as (comps' & Hloop & _ & Hout & _).
    { intros j Hj. apply Hbefore. lia. }
    exists comps'. split; [|split].
    - unfold _run_analysis, for_range. cbn [container isinstance_CompositeExperimentData
        negb experiment num_experiments].
      unfold mbind at 1, M_bind at 1, bind at 1, ret at 1.
      unfold mbind at 1, M_bind at 1, bind at 1.
      assert (Hi : i < length exps) by (eapply lookup_lt_Some; eauto).
      replace (length exps) with (i + S (length exps - S i)) by lia.
      rewrite seq_app, for_each_app. rewrite Hloop.
      cbn [seq]. rewrite for_each_cons. cbn [Nat.add].
      rewrite (loop_body_raises run_analysis options tl q exps t id st
                 i comps' _ _ exp d e Hexp); auto.
      + change (0 :: seq 1 i) with (seq 0 (S i)).
        rewrite seq_S, app_assoc. reflexivity.
      + rewrite Hout by lia. done.
    - intros j Hj Hin. apply elem_of_seq in Hin. lia.
    - intros j Hj. apply Hout. lia.
Qed.

End Claims.

(** The node of the specification's example, analysed: the three lists come
    out in component order, each analysis was called once, and each
    component's container holds its own result. *)
Example run_analysis_example :
  _run_analysis (run_analysis analysis_ok 1) tt (mkStore example_data []) =
    (mkStore
       (CompositeExperimentData
          (CompositeExperiment "Batch" [0; 1; 2; 3] example_exps) "Batch" "id0"
          [PlainExperimentData (LeafExperiment "A" [0]) "A" "id1" [ComponentResult "id1"];
           PlainExperimentData (LeafExperiment "B" [1]) "B" "id2" [ComponentResult "id2"];
           PlainExperimentData (LeafExperiment "C" [2; 3]) "C" "id3" [ComponentResult "id3"]]
          [])
       [0; 1; 2],
     inr (ResultList [AggregateResult
            (mkCompositeResult ["A"; "B"; "C"] ["id1"; "id2"; "id3"] [[0]; [1]; [2; 3]])],
          NoFigures)).
Proof. reflexivity. Qed.

(** With the analysis of component B failing, the pass stops there: C is
    never analysed and nothing is returned. *)
Example run_analysis_failure_example :
  _run_analysis (run_analysis analysis_fails_on_B 1) tt (mkStore example_data []) =
    (mkStore
       (CompositeExperimentData
          (CompositeExperiment "Batch" [0; 1; 2; 3] example_exps) "Batch" "id0"
          [PlainExperimentData (LeafExperiment "A" [0]) "A" "id1" [ComponentResult "id1"];
           PlainExperimentData (LeafExperiment "B" [1]) "B" "id2" [];
           PlainExperimentData (LeafExperiment "C" [2; 3]) "C" "id3" []]
          [])
       [0; 1],
     inl (Raised "AnalysisError")).
Proof. reflexivity. Qed.

Lemma run_analysis_children_in_order_witness :
  ∃ comps' r,
    _run_analysis (run_analysis analysis_ok 1) tt (mkStore example_data []) =
      (mkStore (CompositeExperimentData
                  (CompositeExperiment "Batch" [0; 1; 2; 3] example_exps)
                  "Batch" "id0" comps' [])
               ([] ++ seq 0 3),
       inr (ResultList [AggregateResult r], NoFigures))
    ∧ experiment_types r = map experiment_type comps'
    ∧ experiment_ids r = map experiment_id comps'
    ∧ experiment_qubits r = map (λ d, physical_qubits (experiment d)) comps'
    ∧ length (experiment_types r) = 3
    ∧ length (experiment_ids r) = 3
    ∧ length (experiment_qubits r) = 3
    ∧ (∀ i exp d, example_exps !! i = Some exp → components example_data !! i = Some d →
         ∃ d', run_analysis analysis_ok 1 exp d tt = inr d' ∧ comps' !! i = Some d').
Proof.
  apply (run_analysis_children_in_order (run_analysis analysis_ok 1) tt
           "Batch" [0; 1; 2; 3] example_exps "Batch" "id0"
           (components example_data) [] []).
  - reflexivity.
  - intros i exp d Hexp Hd.
    destruct i as [|[|[|i]]]; simpl in Hexp, Hd; try discriminate;
      injection Hexp as <-; injection Hd as <-; eexists; reflexivity.
Defined.

Lemma run_analysis_returns_singleton_list_witness :
  ∃ r, ResultList [AggregateResult
         (mkCompositeResult ["A"; "B"; "C"] ["id1"; "id2"; "id3"] [[0]; [1]; [2; 3]])]
       = ResultList [AggregateResult r] ∧ NoFigures = NoFigures.
Proof.
  eapply (run_analysis_returns_singleton_list (run_analysis analysis_ok 1) tt
            (mkStore example_data [])).
  exact run_analysis_example.
Defined.

(** C7, as stated, fails on the example: what is returned is not a bare
    record but a list. *)
Lemma run_analysis_returns_a_list :
  ¬ ∃ s' r figures,
      _run_analysis (run_analysis analysis_ok 1) tt (mkStore example_data []) =
        (s', inr (SingleResult r, figures)).
Proof. intros (s' & r & figures & H). vm_compute in H. discriminate H. Qed.

Lemma run_analysis_propagates_failure_witness :
  ∃ comps',
    _run_analysis (run_analysis analysis_fails_on_B 1) tt (mkStore example_data []) =
      (mkStore (CompositeExperimentData
                  (CompositeExperiment "Batch" [0; 1; 2; 3] example_exps)
                  "Batch" "id0" comps' [])
               ([] ++ seq 0 2),
       inl (Raised "AnalysisError"))
    ∧ (∀ j, 1 < j → j ∉ seq 0 2)
    ∧ (∀ j, (1 ≤ j)%nat → comps' !! j = components example_data !! j).
Proof.
  apply (run_analysis_propagates_failure (run_analysis analysis_fails_on_B 1) tt
           "Batch" [0; 1; 2; 3] example_exps "Batch" "id0"
           (components example_data) [] [] 1
           (LeafExperiment "B" [1])
           (PlainExperimentData (LeafExperiment "B" [1]) "B" "id2" [])
           (Raised "AnalysisError")).
  - intros j Hj. assert (j = 0) as -> by lia.
    eexists _, _, _. repeat split; reflexivity.
  - reflexivity.
  - reflexivity.
  - reflexivity.
Defined.

(** * Further properties of the composite analysis *)

Section Outcomes.
Context {Options : Type}.
Variable run_analysis :
    Experiment → ExperimentData → Options → Exception + ExperimentData.
Variable options : Options.
Variables (tl : string) (q : list nat) (exps : list Experiment).
Variables (t id : string) (st : list AnalysisResultData).

Let comp_exp : Experiment := CompositeExperiment tl q exps.
Let node (cur : list ExperimentData) : ExperimentData :=
    CompositeExperimentData comp_exp t id cur st.
Let body := loop_body run_analysis options comp_exp.

(** One pass of the loop body, whatever happens in it: the call is logged
    or, when there is no container at this index, nothing changed; the node
    keeps its number of component containers. *)
Lemma loop_body_outcome i cur log subs :
    i < length exps →
    ∃ cur' out,
      length cur' = length cur ∧
      ((body i subs (mkStore (node cur) log) = (mkStore (node cur') (log ++ [i]), out))
       ∨ (body i subs (mkStore (node cur) log) = (mkStore (node cur) log, out)
          ∧ cur !! i = None ∧ ∃ e, out = inl e)).
Proof.
    intros Hi. destruct subs as [[ts ids] qs].
    destruct (lookup_lt_is_Some_2 exps i Hi) as [exp Hexp].
    unfold body, loop_body, comp_exp, component_experiment,
      component_experiment_data, call_run_analysis; simpl.
    unfold mbind, M_bind, bind, mret, M_ret, ret; simpl.
    rewrite Hexp; simpl.
    destruct (cur !! i) as [d|] eqn:Hd; simpl.
    - destruct (run_analysis exp d options) as [e|d'] eqn:Hrun; simpl.
      + exists cur. eexists. split; [done|]. left. reflexivity.
      + exists (<[i := d']> cur). eexists. split; [by rewrite length_insert|].
        left. rewrite list_lookup_insert_eq by (eapply lookup_lt_Some; eauto).
        reflexivity.
    - exists cur. eexists. split; [done|]. right. eauto.
Qed.

(** The loop over [k, k+m), whatever happens in it: the indices logged are
    [k, k+1, ...] up to where the loop stopped, and it stopped early only
    with an exception. *)
Lemma loop_outcome m : ∀ k cur log subs,
    (k + m ≤ length exps)%nat →
    ∃ cur' j out,
      for_each (seq k m) body subs (mkStore (node cur) log) =
        (mkStore (node cur') (log ++ seq k j), out)
      ∧ (j ≤ m)%nat ∧ length cur' = length cur
      ∧ (∀ res, out = inr res → j = m).
Proof.
    induction m as [|m IH]; intros k cur log subs Hk.
    - exists cur, 0, (inr subs). cbn [seq for_each]. rewrite app_nil_r.
      repeat split; auto.
    - cbn [seq]. rewrite for_each_cons.
      destruct (loop_body_outcome k cur log subs ltac:(lia))
        as (cur1 & out1 & Hlen1 & [Hb|(Hb & _ & e & ->)]); rewrite Hb.
      + destruct out1 as [e|subs1].
        * exists cur1, 1, (inl e). cbn [seq]. repeat split; [lia|done|done].
        * destruct (IH (S k) cur1 (log ++ [k]) subs1 ltac:(lia))
            as (cur' & j & out & Hrun & Hj & Hlen & Hfin).
          exists cur', (S j), out. rewrite Hrun. cbn [seq].
          rewrite <- app_assoc. cbn [app].
          repeat split; [lia|congruence|]. intros res Hres. by rewrite (Hfin res).
      + exists cur, 0, (inl e). cbn [seq]. rewrite app_nil_r.
        repeat split; [lia|done].
Qed.

(** X1. In every outcome of [_run_analysis] on a composite container,
    whether it returns or raises: [exp.run_analysis] was called at the
    indices [0, 1, ..., k-1] for some [k] up to the number of component
    experiments, in this order, once each and with no index skipped; it was
    called for all of them when a result is returned. The container keeps
    its experiment, type, id, stored results and its number of component
    containers. *)
Theorem run_analysis_calls_form_a_prefix comps log :
    ∃ comps' k out,
      _run_analysis run_analysis options (mkStore (node comps) log) =
        (mkStore (node comps') (log ++ seq 0 k), out)
      ∧ (k ≤ length exps)%nat
      ∧ length comps' = length comps
      ∧ (∀ res, out = inr res → k = length exps).
Proof.
    destruct (loop_outcome (length exps) 0 comps log ([], [], []) ltac:(lia))
      as (comps' & k & out & Hrun & Hk & Hlen & Hfin).
    unfold _run_analysis, for_range, node, comp_exp.
    cbn [container isinstance_CompositeExperimentData negb experiment
         num_experiments].
    unfold mbind, M_bind, bind, mret, M_ret, ret. fold comp_exp. fold body.
    fold (node comps). rewrite Hrun.
    destruct out as [e|[[ts ids] qs]].
    - exists comps', k, (inl e). repeat split; [done|done|done].
    - exists comps', k, (inr (ResultList [AggregateResult
                                (mkCompositeResult ts ids qs)], NoFigures)).
      repeat split; [done|done|]. intros _ _. by apply (Hfin (ts, ids, qs)).
Qed.

(** X2. No rollback: when the analysis of component [i] raises after those
    of the components before it succeeded, the containers of the components
    before [i] stay as their analysis left them, although [_run_analysis]
    returns nothing. *)
Theorem run_analysis_failure_keeps_earlier_results comps log i exp d e :
    (∀ j, j < i → ∃ expj dj dj',
        exps !! j = Some expj ∧ comps !! j = Some dj ∧
        run_analysis expj dj options = inr dj') →
    exps !! i = Some exp → comps !! i = Some d →
    run_analysis exp d options = inl e →
    ∃ comps',
      fst (_run_analysis run_analysis options (mkStore (node comps) log))
        = mkStore (node comps') (log ++ seq 0 (S i))
      ∧ snd (_run_analysis run_analysis options (mkStore (node comps) log)) = inl e
      ∧ ∀ j expj dj, j < i → exps !! j = Some expj → comps !! j = Some dj →
          ∃ dj', run_analysis expj dj options = inr dj' ∧ comps' !! j = Some dj'.
Proof.
    intros Hbefore Hexp Hd Hrun.
    destruct (loop_ok run_analysis options tl q exps t id st i 0 comps log [] [] [])
      as (comps' & Hloop & _ & Hout & Hin).
    { intros j Hj. apply Hbefore. lia. }
    exists comps'.
    assert (E : _run_analysis run_analysis options (mkStore (node comps) log) =
                (mkStore (node comps') (log ++ seq 0 (S i)), inl e)).
    { unfold _run_analysis, for_range, node, comp_exp.
      cbn [container isinstance_CompositeExperimentData negb experiment
           num_experiments].
      unfold mbind at 1, M_bind at 1, bind at 1, ret at 1.
      unfold mbind at 1, M_bind at 1, bind at 1.
      assert (Hi : i < length exps) by (eapply lookup_lt_Some; eauto).
      replace (length exps) with (i + S (length exps - S i)) by lia.
      rewrite seq_app, for_each_app. rewrite Hloop.
      cbn [seq]. rewrite for_each_cons. cbn [Nat.add].
      rewrite (loop_body_raises run_analysis options tl q exps t id st
                 i comps' _ _ exp d e Hexp); auto.
      + change (0 :: seq 1 i) with (seq 0 (S i)).
        rewrite seq_S, app_assoc. reflexivity.
      + rewrite Hout by lia. done. }
    rewrite E. split; [done|]. split; [done|].
    intros j expj dj Hj Hej Hdj. apply (Hin j expj dj); [lia|done|done].
Qed.

(** X3. The loop runs over the component experiments that the composite
    experiment declares, not over the containers that the data holds: with
    at least as many containers as component experiments, the containers
    past the declared count are never analysed, stay as they were and have
    no entry in the three lists, which have the declared count as their
    length. *)
Theorem run_analysis_ignores_extra_containers comps log :
    (length exps ≤ length comps)%nat →
    (∀ i exp d, exps !! i = Some exp → comps !! i = Some d →
       ∃ d', run_analysis exp d options = inr d') →
    ∃ comps' r,
      _run_analysis run_analysis options (mkStore (node comps) log) =
        (mkStore (node comps') (log ++ seq 0 (length exps)),
         inr (ResultList [AggregateResult r], NoFigures))
      ∧ experiment_types r = map experiment_type (take (length exps) comps')
      ∧ experiment_ids r = map experiment_id (take (length exps) comps')
      ∧ experiment_qubits r =
          map (λ d, physical_qubits (experiment d)) (take (length exps) comps')
      ∧ length (experiment_types r) = length exps
      ∧ (∀ i, (length exps ≤ i)%nat → comps' !! i = comps !! i).
Proof.
    intros Hlen Hall.
    destruct (loop_ok run_analysis options tl q exps t id st (length exps) 0
                comps log [] [] [])
      as (comps' & Hrun & Hlen' & Hout & _).
    { intros i Hi.
      destruct (lookup_lt_is_Some_2 exps i ltac:(lia)) as [exp Hexp].
      destruct (lookup_lt_is_Some_2 comps i ltac:(lia)) as [d Hd].
      destruct (Hall i exp d Hexp Hd) as [d' Hd']. by exists exp, d, d'. }
    exists comps'. eexists (mkCompositeResult _ _ _). split.
    { unfold _run_analysis, for_range, node, comp_exp.
      cbn [container isinstance_CompositeExperimentData negb experiment
           num_experiments].
      unfold mbind, M_bind, bind, mret, M_ret, ret.
      rewrite Hrun. reflexivity. }
    cbn [experiment_types experiment_ids experiment_qubits].
    rewrite drop_0. cbn [app]. rewrite length_map, length_take.
    repeat split; [lia|]. intros i Hi. apply Hout. lia.
Qed.

End Outcomes.

Lemma run_analysis_failure_keeps_earlier_results_witness :
  ∃ comps',
    fst (_run_analysis (run_analysis analysis_fails_on_B 1) tt (mkStore example_data []))
      = mkStore (CompositeExperimentData
                   (CompositeExperiment "Batch" [0; 1; 2; 3] example_exps)
                   "Batch" "id0" comps' [])
                ([] ++ seq 0 2)
    ∧ comps' !! 0
      = Some (PlainExperimentData (LeafExperiment "A" [0]) "A" "id1"
                [ComponentResult "id1"]).
Proof.
  destruct (run_analysis_failure_keeps_earlier_results
              (run_analysis analysis_fails_on_B 1) tt
              "Batch" [0; 1; 2; 3] example_exps "Batch" "id0" []
              (components example_data) [] 1
              (LeafExperiment "B" [1])
              (PlainExperimentData (LeafExperiment "B" [1]) "B" "id2" [])
              (Raised "AnalysisError"))
    as (comps' & Hst & _ & Hkeep).
  - intros j Hj. assert (j = 0) as -> by lia.
    eexists _, _, _. repeat split; reflexivity.
  - reflexivity.
  - reflexivity.
  - reflexivity.
  - exists comps'. split; [exact Hst|].
    destruct (Hkeep 0 (LeafExperiment "A" [0])
                (PlainExperimentData (LeafExperiment "A" [0]) "A" "id1" [])
                ltac:(lia) eq_refl eq_refl) as (d' & Hrun & Hd').
    rewrite Hd'. f_equal. cbn in Hrun. by injection Hrun as <-.
Defined.

Lemma run_analysis_ignores_extra_containers_witness :
  ∃ comps' r,
    _run_analysis (run_analysis analysis_ok 1) tt
        (mkStore (CompositeExperimentData
                    (CompositeExperiment "Batch" [0; 1] (take 2 example_exps))
                    "Batch" "id0" (components example_data) []) []) =
      (mkStore (CompositeExperimentData
                  (CompositeExperiment "Batch" [0; 1] (take 2 example_exps))
                  "Batch" "id0" comps' [])
               ([] ++ seq 0 2),
       inr (ResultList [AggregateResult r], NoFigures))
    ∧ experiment_types r = map experiment_type (take 2 comps')
    ∧ comps' !! 2 = components example_data !! 2.
Proof.
  destruct (run_analysis_ignores_extra_containers
              (run_analysis analysis_ok 1) tt
              "Batch" [0; 1] (take 2 example_exps) "Batch" "id0" []
              (components example_data) [])
    as (comps' & r & Hrun & Hty & _ & _ & _ & Hrest).
  - cbn. lia.
  - intros i exp d Hexp Hd.
    destruct i as [|[|i]]; simpl in Hexp, Hd; try discriminate;
      injection Hexp as <-; injection Hd as <-; eexists; reflexivity.
  - exists comps', r. split; [exact Hrun|]. split; [exact Hty|].
    apply Hrest. cbn. lia.
Defined.

End CompositeTheory.

(** * Rounding of the binary64 operations

    [SpecFloat] gives the operations as algorithms on mantissas and
    exponents. Here they are shown to round faithfully: the float returned is
    one of the two floats around the exact result, the result itself when it
    is a float. *)

Module B64Theory.
Import B64.
Local Open Scope R_scope.

Lemma bpow_pos e : 0 < bpow e.
Proof. apply powerRZ_lt. lra. Qed.

Lemma bpow_add e1 e2 : bpow (e1 + e2) = bpow e1 * bpow e2.
Proof. apply powerRZ_add. lra. Qed.

Lemma bpow_IZR (n : Z) : (0 <= n)%Z → bpow n = IZR (2 ^ n).
Proof.
  intros Hn. unfold bpow. rewrite <- (Z2Nat.id n) by lia.
  rewrite <- pow_IZR. rewrite <- pow_powerRZ. reflexivity.
Qed.

Lemma bpow_le e1 e2 : (e1 <= e2)%Z → bpow e1 <= bpow e2.
Proof.
  intros H. replace e2 with (e1 + (e2 - e1))%Z by lia.
  rewrite bpow_add, (bpow_IZR (e2 - e1)) by lia.
  assert (1 <= IZR (2 ^ (e2 - e1))).
  { apply IZR_le. assert (0 < 2 ^ (e2 - e1))%Z by (apply Z.pow_pos_nonneg; lia). lia. }
  pose proof (bpow_pos e1). nra.
Qed.

Lemma bpow_lt e1 e2 : (e1 < e2)%Z → bpow e1 < bpow e2.
Proof.
  intros H. replace e2 with (e1 + (e2 - e1))%Z by lia.
  rewrite bpow_add, (bpow_IZR (e2 - e1)) by lia.
  assert (2 <= IZR (2 ^ (e2 - e1))).
  { apply IZR_le. replace (e2 - e1)%Z with (Z.succ (e2 - e1 - 1)) by lia.
    rewrite Z.pow_succ_r by lia.
    assert (0 < 2 ^ (e2 - e1 - 1))%Z by (apply Z.pow_pos_nonneg; lia). lia. }
  pose proof (bpow_pos e1). nra.
Qed.

(** Number of binary digits. *)
Lemma digits2_pos_bounds (m : positive) :
  (2 ^ (Zpos (digits2_pos m) - 1) <= Zpos m < 2 ^ Zpos (digits2_pos m))%Z.
Proof.
  induction m as [m IH|m IH|]; cbn [digits2_pos].
  - rewrite Pos2Z.inj_succ. replace (Z.succ (Zpos (digits2_pos m)) - 1)%Z with (Z.succ (Zpos (digits2_pos m) - 1)) by lia.
    rewrite !Z.pow_succ_r by lia. lia.
  - rewrite Pos2Z.inj_succ. replace (Z.succ (Zpos (digits2_pos m)) - 1)%Z with (Z.succ (Zpos (digits2_pos m) - 1)) by lia.
    rewrite !Z.pow_succ_r by lia. lia.
  - simpl. lia.
Qed.

Lemma digits2_pos_unique (m : positive) (k : Z) :
  (2 ^ (k - 1) <= Zpos m < 2 ^ k)%Z → Zpos (digits2_pos m) = k.
Proof.
  intros [Hlo Hhi]. destruct (digits2_pos_bounds m) as [Dlo Dhi].
  set (d := Zpos (digits2_pos m)) in *.
  assert (0 < d)%Z by (unfold d; lia).
  destruct (Z.lt_trichotomy d k) as [Hlt|[Heq|Hgt]]; [|done|].
  - assert (2 ^ d <= 2 ^ (k - 1))%Z by (apply Z.pow_le_mono_r; lia). lia.
  - assert (0 <= k)%Z.
    { destruct (Z.lt_ge_cases k 0) as [Hk|Hk]; [|done].
      rewrite (Z.pow_neg_r 2 k) in Hhi by done. lia. }
    assert (2 ^ k <= 2 ^ (d - 1))%Z by (apply Z.pow_le_mono_r; lia). lia.
Qed.

Lemma iter_pos_nat {A} (f : A → A) (p : positive) (x : A) :
  SpecFloat.iter_pos f p x = Nat.iter (Pos.to_nat p) f x.
Proof.
  revert x. induction p as [p IH|p IH|]; intros x; cbn [SpecFloat.iter_pos].
  - rewrite !IH, Pos2Nat.inj_xI, <- Nat.iter_succ_r, <- Nat.iter_add.
    f_equal. lia.
  - rewrite !IH, Pos2Nat.inj_xO, <- Nat.iter_add. f_equal. lia.
  - reflexivity.
Qed.

Lemma shr_1_spec (mrs : shr_record) :
  (0 <= shr_m mrs)%Z →
  shr_m (shr_1 mrs) = (shr_m mrs / 2)%Z ∧
  inex (shr_1 mrs) = Z.odd (shr_m mrs) || inex mrs.
Proof.
  destruct mrs as [m r s]. cbn [shr_m]. intros Hm. unfold inex.
  destruct m as [|[p|p|]|p]; cbn [shr_1 shr_m shr_r shr_s]; try lia.
  - split; [reflexivity|]. reflexivity.
  - split; [|reflexivity]. rewrite Pos2Z.inj_xI.
    apply (Z.div_unique _ 2 _ 1); lia.
  - split; [|reflexivity]. rewrite Pos2Z.inj_xO.
    apply (Z.div_unique _ 2 _ 0); lia.
  - split; reflexivity.
Qed.

Lemma iter_shr_1_spec (n : nat) (mrs : shr_record) :
  (0 <= shr_m mrs)%Z →
  shr_m (Nat.iter n shr_1 mrs) = (shr_m mrs / 2 ^ Z.of_nat n)%Z ∧
  inex (Nat.iter n shr_1 mrs) =
    inex mrs || negb (shr_m mrs mod 2 ^ Z.of_nat n =? 0)%Z.
Proof.
  intros Hm. induction n as [|n [IHm IHi]].
  - cbn [Nat.iter]. change (2 ^ Z.of_nat 0)%Z with 1%Z.
    rewrite Z.div_1_r, Z.mod_1_r. cbn. by rewrite orb_false_r.
  - rewrite Nat.iter_succ.
    assert (Hpow : (0 < 2 ^ Z.of_nat n)%Z) by (apply Z.pow_pos_nonneg; lia).
    assert (Hnn : (0 <= shr_m (Nat.iter n shr_1 mrs))%Z).
    { rewrite IHm. apply Z.div_pos; lia. }
    destruct (shr_1_spec _ Hnn) as [H1 H2].
    rewrite Nat2Z.inj_succ, Z.pow_succ_r by lia.
    split.
    + rewrite H1, IHm, Z.div_div by lia. f_equal. lia.
    + rewrite H2, IHi, IHm.
      rewrite (Z.mul_comm 2), Z.rem_mul_r by lia.
      set (a := (shr_m mrs mod 2 ^ Z.of_nat n)%Z).
      set (b := (shr_m mrs / 2 ^ Z.of_nat n)%Z).
      assert (Ha : (0 <= a < 2 ^ Z.of_nat n)%Z) by (apply Z.mod_pos_bound; lia).
      rewrite (Zodd_mod b).
      assert (Hb : (0 <= b mod 2 < 2)%Z) by (apply Z.mod_pos_bound; lia).
      destruct (inex mrs); cbn [orb]; [by rewrite orb_true_r|].
      destruct (Z.eqb_spec a 0) as [Ha0|Ha0]; cbn [negb orb].
      * rewrite Ha0, orb_false_r.
        destruct (Z.eqb_spec (b mod 2) 1), (Z.eqb_spec (0 + 2 ^ Z.of_nat n * (b mod 2)) 0);
          cbn; try reflexivity; nia.
      * rewrite orb_true_r.
        destruct (Z.eqb_spec (a + 2 ^ Z.of_nat n * (b mod 2)) 0); cbn; [nia|done].
Qed.

Lemma shr_spec (mrs : shr_record) (e n : Z) :
  (0 <= shr_m mrs)%Z → (0 <= n)%Z →
  ∃ mrs', shr mrs e n = (mrs', (e + n)%Z) ∧
    shr_m mrs' = (shr_m mrs / 2 ^ n)%Z ∧
    inex mrs' = inex mrs || negb (shr_m mrs mod 2 ^ n =? 0)%Z.
Proof.
  intros Hm Hn. destruct n as [|p|p]; [| |lia].
  - exists mrs. cbn [shr]. rewrite Z.add_0_r, Z.div_1_r, Z.mod_1_r. cbn.
    by rewrite orb_false_r.
  - exists (SpecFloat.iter_pos shr_1 p mrs). cbn [shr]. split; [done|].
    rewrite iter_pos_nat, <- (positive_nat_Z p).
    apply iter_shr_1_spec; done.
Qed.

Lemma shr_nonpos (mrs : shr_record) (e n : Z) :
  (n <= 0)%Z → shr mrs e n = (mrs, e).
Proof. destruct n; [done| lia | done]. Qed.

Lemma fexp_eq (e : Z) : fexp prec emax e = Z.max (e - 53) (-1074).
Proof. reflexivity. Qed.

Lemma bounded_facts (m : positive) (e : Z) :
  bounded prec emax m e = true →
  (-1074 <= e <= 971)%Z ∧ (Zpos m < 2 ^ 53)%Z ∧ (-1074 < e → 2 ^ 52 <= Zpos m)%Z.
Proof.
  unfold bounded, canonical_mantissa. rewrite andb_true_iff, Z.eqb_eq, Z.leb_le, fexp_eq.
  change (emax - prec)%Z with 971%Z. intros [Hc He].
  destruct (digits2_pos_bounds m) as [Dlo Dhi].
  set (d := Zpos (digits2_pos m)) in *.
  assert (d <= 53)%Z by lia.
  split; [lia|]. split.
  - assert (2 ^ d <= 2 ^ 53)%Z by (apply Z.pow_le_mono_r; lia). lia.
  - intros He'. assert (d = 53)%Z as Hd by lia. rewrite Hd in Dlo. exact Dlo.
Qed.

Lemma bounded_intro (m : positive) (e : Z) :
  (-1074 <= e <= 971)%Z → (Zpos m < 2 ^ 53)%Z → (-1074 < e → 2 ^ 52 <= Zpos m)%Z →
  bounded prec emax m e = true.
Proof.
  intros He Hm Hn.
  unfold bounded, canonical_mantissa. rewrite andb_true_iff, Z.eqb_eq, Z.leb_le, fexp_eq.
  change (emax - prec)%Z with 971%Z. split; [|lia].
  destruct (digits2_pos_bounds m) as [Dlo Dhi].
  set (d := Zpos (digits2_pos m)) in *.
  assert (d <= 53)%Z.
  { destruct (Z.le_gt_cases d 53) as [|Hgt]; [done|].
    assert (2 ^ 53 <= 2 ^ (d - 1))%Z by (apply Z.pow_le_mono_r; lia). lia. }
  destruct (Z.eq_dec e (-1074)%Z) as [->|Hne]; [lia|].
  assert (d = 53)%Z; [|lia].
  apply (digits2_pos_unique m 53). split; [apply Hn; lia|done].
Qed.

Lemma rne_spec (mrs : shr_record) :
  let m2 := round_nearest_even (shr_m mrs) (loc_of_shr_record mrs) in
  (inex mrs = false → m2 = shr_m mrs) ∧
  (m2 = shr_m mrs ∨ m2 = (shr_m mrs + 1)%Z).
Proof.
  destruct mrs as [m [|] [|]]; unfold inex; cbn;
    (split; [try done|]); try destruct (Z.even m); auto.
Qed.

Lemma inex_of_loc (m : Z) (l : location) :
  shr_m (shr_record_of_loc m l) = m ∧
  (inex (shr_record_of_loc m l) = false ↔ l = loc_Exact).
Proof. destruct l as [|[| |]]; cbn; split; done. Qed.

Lemma grid_le (K M e : Z) : IZR K * bpow e <= IZR M * bpow e ↔ (K <= M)%Z.
Proof.
  pose proof (bpow_pos e). split; intros Hle.
  - apply le_IZR. nra.
  - apply IZR_le in Hle. nra.
Qed.

Lemma grid_lt (K M e : Z) : IZR K * bpow e < IZR M * bpow e ↔ (K < M)%Z.
Proof.
  pose proof (bpow_pos e). split; intros Hle.
  - apply lt_IZR. nra.
  - apply IZR_lt in Hle. nra.
Qed.

Lemma bpow_shift (e n : Z) : (0 <= n)%Z → bpow (e + n) = IZR (2 ^ n) * bpow e.
Proof. intros Hn. rewrite bpow_add, (bpow_IZR n) by done. lra. Qed.

(** The first shift of [binary_round_aux]: the mantissa is cut to at most
    53 bits, at the exponent the format gives to numbers of this size. *)
Lemma shr_fexp_first (mx ex : Z) (lx : location) (x : R) :
  (0 <= mx)%Z → inbetween mx ex lx x →
  (ex <= fexp prec emax (Zdigits2 mx + ex))%Z →
  let e1 := fexp prec emax (Zdigits2 mx + ex) in
  ∃ mrs1, shr_fexp prec emax mx ex lx = (mrs1, e1) ∧
    (0 <= shr_m mrs1 < 2 ^ 53)%Z ∧
    (-1074 <= e1)%Z ∧
    (-1074 < e1 → 2 ^ 52 <= shr_m mrs1)%Z ∧
    IZR (shr_m mrs1) * bpow e1 <= x < IZR (shr_m mrs1 + 1) * bpow e1 ∧
    (inex mrs1 = false ↔ x = IZR (shr_m mrs1) * bpow e1).
Proof.
  intros Hmx [[Hlo Hhi] Hex] Hpre e1.
  set (n := (e1 - ex)%Z).
  assert (Hn : (0 <= n)%Z) by (unfold n, e1; lia).
  destruct (inex_of_loc mx lx) as [Hrm Hri].
  destruct (shr_spec (shr_record_of_loc mx lx) ex n) as (mrs1 & Hs & Hm1 & Hi1);
    [rewrite Hrm; done|done|].
  rewrite Hrm in Hm1, Hi1.
  exists mrs1. unfold shr_fexp. fold e1. fold n. rewrite Hs.
  replace (ex + n)%Z with e1 by (unfold n; lia).
  split; [done|].
  assert (HP : (0 < 2 ^ n)%Z) by (apply Z.pow_pos_nonneg; lia).
  assert (He1 : (-1074 <= e1)%Z) by (unfold e1; rewrite fexp_eq; lia).
  pose proof (Z.div_mod mx (2 ^ n) ltac:(lia)) as Hdm.
  pose proof (Z.mod_pos_bound mx (2 ^ n) HP) as Hrem.
  rewrite <- Hm1 in Hdm.
  remember (shr_m mrs1) as m1 eqn:Em1. clear Em1.
  set (rem := (mx mod 2 ^ n)%Z) in *.
  assert (Hm1nn : (0 <= m1)%Z) by (rewrite Hm1; apply Z.div_pos; lia).
  assert (Hbounds : (m1 < 2 ^ 53)%Z ∧ (-1074 < e1 → 2 ^ 52 <= m1)%Z).
  { destruct mx as [|p|p]; [| |lia].
    - assert (m1 = 0)%Z as -> by (rewrite Hm1; apply Z.div_0_l; lia).
      split; [lia|]. unfold e1 in *. cbn [Zdigits2] in *. rewrite fexp_eq in *. lia.
    - destruct (digits2_pos_bounds p) as [Dlo Dhi].
      cbn [Zdigits2] in e1. set (d := Zpos (digits2_pos p)) in *.
      assert (Hfe : e1 = Z.max (d + ex - 53) (-1074)) by reflexivity.
      split.
      + rewrite Hm1. apply Z.div_lt_upper_bound; [done|].
        rewrite <- Z.pow_add_r by lia.
        assert (2 ^ d <= 2 ^ (n + 53))%Z by (apply Z.pow_le_mono_r; lia). lia.
      + intros Hgt. rewrite Hm1. apply Z.div_le_lower_bound; [done|].
        rewrite <- Z.pow_add_r by lia.
        replace (n + 52)%Z with (d - 1)%Z by lia. done. }
  destruct Hbounds as [Hb1 Hb2].
  split; [lia|]. split; [done|]. split; [done|].
  assert (HB : 0 < bpow ex) by apply bpow_pos.
  assert (Hbe : bpow e1 = IZR (2 ^ n) * bpow ex).
  { replace e1 with (ex + n)%Z by (unfold n; lia). by apply bpow_shift. }
  assert (H1 : IZR (2 ^ n) * IZR m1 + IZR rem = IZR mx).
  { rewrite <- mult_IZR, <- plus_IZR. f_equal. lia. }
  assert (H2 : 0 <= IZR rem) by (apply IZR_le; lia).
  assert (H3 : IZR rem + 1 <= IZR (2 ^ n)).
  { rewrite <- (plus_IZR _ 1). apply IZR_le. lia. }
  assert (H4 : 0 <= IZR m1) by (apply IZR_le; lia).
  rewrite Hbe. rewrite !plus_IZR in *.
  split; [split; nra|].
  rewrite Hi1, orb_false_iff, negb_false_iff, Z.eqb_eq. fold rem.
  split.
  - intros [Hl Hr]. apply Hri, Hex in Hl. rewrite Hl, <- H1, Hr. lra.
  - intros Hx. assert (Hr0 : IZR rem = 0) by nra.
    apply eq_IZR in Hr0. split; [|done].
    apply Hri, Hex. rewrite Hx, <- H1, Hr0. lra.
Qed.

(** The second shift of [binary_round_aux]: after rounding, the mantissa
    may have reached [2^53]; it is then halved, exactly. *)
Lemma shr_fexp_second (m2 e1 : Z) :
  (0 <= m2 <= 2 ^ 53)%Z → (-1074 <= e1)%Z → (-1074 < e1 → 2 ^ 52 <= m2)%Z →
  ∃ mrs3 e3, shr_fexp prec emax m2 e1 loc_Exact = (mrs3, e3) ∧
    IZR (shr_m mrs3) * bpow e3 = IZR m2 * bpow e1 ∧
    (0 <= shr_m mrs3 < 2 ^ 53)%Z ∧ (-1074 <= e3)%Z ∧
    (-1074 < e3 → 2 ^ 52 <= shr_m mrs3)%Z ∧
    ((e3 = e1 ∧ shr_m mrs3 = m2) ∨
     (e3 = e1 + 1 ∧ m2 = 2 ^ 53 ∧ shr_m mrs3 = 2 ^ 52))%Z.
Proof.
  intros Hm2 He1 Hnorm. unfold shr_fexp.
  destruct (Z.eq_dec m2 (2 ^ 53)%Z) as [->|Hne].
  - change (Zdigits2 (2 ^ 53)%Z) with 54%Z. rewrite fexp_eq.
    replace (Z.max (54 + e1 - 53) (-1074) - e1)%Z with 1%Z by lia.
    eexists _, _. split; [reflexivity|].
    change (shr_m (SpecFloat.iter_pos shr_1 1 (shr_record_of_loc (2 ^ 53) loc_Exact)))
      with (2 ^ 52)%Z.
    split.
    { rewrite bpow_shift by lia. change (IZR (2 ^ 1)) with 2.
      change (2 ^ 53)%Z with (2 * 2 ^ 52)%Z. rewrite mult_IZR. lra. }
    repeat split; lia.
  - assert (Hn2 : (fexp prec emax (Zdigits2 m2 + e1) - e1 <= 0)%Z).
    { rewrite fexp_eq. destruct m2 as [|p|p]; cbn [Zdigits2]; [lia| |lia].
      destruct (digits2_pos_bounds p) as [Dlo Dhi].
      set (d := Zpos (digits2_pos p)) in *.
      assert (d <= 53)%Z; [|lia].
      destruct (Z.le_gt_cases d 53) as [|Hgt]; [done|].
      assert (2 ^ 53 <= 2 ^ (d - 1))%Z by (apply Z.pow_le_mono_r; lia). lia. }
    rewrite shr_nonpos by done.
    eexists _, _. split; [reflexivity|].
    cbn [shr_m shr_record_of_loc]. repeat split; lia.
Qed.

Lemma no_float_between (m1 e1 : Z) (mg : positive) (eg : Z) :
  (0 <= m1)%Z → (-1074 <= e1)%Z → (-1074 < e1 → 2 ^ 52 <= m1)%Z →
  bounded prec emax mg eg = true →
  IZR (Zpos mg) * bpow eg < IZR (m1 + 1) * bpow e1 →
  IZR (Zpos mg) * bpow eg <= IZR m1 * bpow e1.
Proof.
  intros Hm1 He1 Hnorm Hb Hlt.
  destruct (bounded_facts _ _ Hb) as (Heg & Hmg & _).
  destruct (Z.le_gt_cases e1 eg) as [Hle|Hgt].
  - replace eg with (e1 + (eg - e1))%Z in * by lia.
    rewrite bpow_shift in * by lia.
    rewrite <- Rmult_assoc, <- mult_IZR in *.
    apply grid_lt in Hlt. apply grid_le. lia.
  - assert (H52 : (2 ^ 52 <= m1)%Z) by (apply Hnorm; lia).
    assert (Hbp : bpow e1 = IZR (2 ^ (e1 - eg)) * bpow eg).
    { replace e1 with (eg + (e1 - eg))%Z at 1 by lia. apply bpow_shift. lia. }
    rewrite Hbp, <- Rmult_assoc, <- mult_IZR. apply grid_le.
    assert (2 ^ 1 <= 2 ^ (e1 - eg))%Z by (apply Z.pow_le_mono_r; lia).
    nia.
Qed.

Lemma float_le_max (mg : positive) (eg : Z) :
  bounded prec emax mg eg = true →
  IZR (Zpos mg) * bpow eg <= IZR (2 ^ 53 - 1) * bpow 971.
Proof.
  intros Hb. destruct (bounded_facts _ _ Hb) as (Heg & Hmg & _).
  pose proof (bpow_le eg 971 ltac:(lia)). pose proof (bpow_pos eg).
  assert (IZR (Zpos mg) <= IZR (2 ^ 53 - 1)) by (apply IZR_le; lia).
  assert (0 <= IZR (Zpos mg)) by (apply IZR_le; lia).
  nra.
Qed.

(** The rounding step shared by all operations is faithful. *)
Lemma binary_round_aux_spec (sx : bool) (mx ex : Z) (lx : location) (x : R) :
  (0 <= mx)%Z → inbetween mx ex lx x →
  (ex <= fexp prec emax (Zdigits2 mx + ex))%Z →
  rounds_mag sx x (binary_round_aux prec emax sx mx ex lx).
Proof.
  intros Hmx Hin Hpre.
  destruct (shr_fexp_first mx ex lx x Hmx Hin Hpre)
    as (mrs1 & Hs1 & Hb1 & He1 & Hn1 & [Hlo Hhi] & Hex1).
  unfold binary_round_aux. rewrite Hs1.
  set (e1 := fexp prec emax (Zdigits2 mx + ex)) in *.
  destruct (rne_spec mrs1) as [Hr1 Hr2].
  set (m1 := shr_m mrs1) in *.
  set (m2 := round_nearest_even m1 (loc_of_shr_record mrs1)) in *.
  assert (Hexact : x = IZR m1 * bpow e1 → m2 = m1) by (intros Hx; apply Hr1, Hex1, Hx).
  assert (Hm2 : (0 <= m2 <= 2 ^ 53)%Z) by lia.
  assert (Hn2 : (-1074 < e1 → 2 ^ 52 <= m2)%Z) by (intros H; specialize (Hn1 H); lia).
  destruct (shr_fexp_second m2 e1 Hm2 He1 Hn2)
    as (mrs3 & e3 & Hs3 & Hval & Hb3 & He3 & Hn3 & Hcase).
  rewrite Hs3.
  assert (Hfaith : ∀ mg eg, bounded prec emax mg eg = true →
            (IZR (Zpos mg) * bpow eg <= x → IZR (Zpos mg) * bpow eg <= IZR m2 * bpow e1) ∧
            (x <= IZR (Zpos mg) * bpow eg → IZR m2 * bpow e1 <= IZR (Zpos mg) * bpow eg)).
  { intros mg eg Hb. pose proof (bpow_pos e1) as HB.
    assert (Hm12 : IZR m1 <= IZR m2) by (apply IZR_le; lia).
    split; intros Hg.
    - pose proof (no_float_between m1 e1 mg eg ltac:(lia) He1 Hn1 Hb ltac:(lra)). nra.
    - destruct (Req_dec x (IZR m1 * bpow e1)) as [Hx|Hx].
      + rewrite (Hexact Hx). lra.
      + destruct (Rle_lt_dec (IZR (m1 + 1) * bpow e1) (IZR (Zpos mg) * bpow eg)) as [Hge|Hlt].
        * assert (IZR m2 <= IZR (m1 + 1)) by (apply IZR_le; lia). nra.
        * pose proof (no_float_between m1 e1 mg eg ltac:(lia) He1 Hn1 Hb Hlt). lra. }
  destruct (shr_m mrs3) as [|m|m] eqn:Hm3; [| |lia].
  - (* the result is a zero *)
    assert (Hz : IZR m2 * bpow e1 = 0) by (rewrite <- Hval; lra).
    split; [done|]. split; [done|]. left. split; [done|]. split; [done|].
    intros mg eg Hb. cbn [SFmag]. rewrite <- Hz. by apply Hfaith.
  - destruct (Z.leb_spec e3 (emax - prec)) as [Hle|Hgt];
      change (emax - prec)%Z with 971%Z in *.
    + (* a finite result *)
      split; [apply bounded_intro; lia|]. split; [done|]. left. split; [done|].
      cbn [SFmag]. rewrite Hval. split; [|apply Hfaith].
      intros Hx0. pose proof (bpow_pos e1).
      assert (IZR m1 <= 0) by nra.
      assert (m1 = 0)%Z by (apply le_IZR in H0; lia).
      rewrite Hexact; [subst m1; rewrite H1; lra|]. rewrite H1, Hx0. lra.
    + (* overflow *)
      split; [done|]. split; [done|]. right. split; [done|].
      intros mg eg Hb. pose proof (float_le_max mg eg Hb) as Hmax.
      pose proof (bpow_pos e1) as HB.
      destruct Hcase as [[-> Hm32]|(-> & H253 & _)].
      * assert (H52 : (2 ^ 52 <= m1)%Z) by (apply Hn1; lia).
        assert (Hbp : bpow e1 = IZR (2 ^ (e1 - 971)) * bpow 971).
        { replace e1 with (971 + (e1 - 971))%Z at 1 by lia. apply bpow_shift. lia. }
        assert (2 ^ 1 <= 2 ^ (e1 - 971))%Z by (apply Z.pow_le_mono_r; lia).
        assert (IZR (2 ^ 53 - 1) * bpow 971 < IZR m1 * bpow e1); [|lra].
        rewrite Hbp, <- Rmult_assoc, <- mult_IZR. apply grid_lt. nia.
      * assert (Hm1v : m1 = (2 ^ 53 - 1)%Z) by lia.
        assert (Hxne : x ≠ IZR m1 * bpow e1) by (intros Hx; apply Hexact in Hx; lia).
        assert (IZR (2 ^ 53 - 1) * bpow 971 <= IZR m1 * bpow e1); [|lra].
        rewrite Hm1v. pose proof (bpow_le 971 e1 ltac:(lia)).
        assert (0 <= IZR (2 ^ 53 - 1)) by (apply IZR_le; lia). nra.
Qed.

Lemma IZR_cond_Zopp (s : bool) (z : Z) :
  IZR (cond_Zopp s z) = if s then - IZR z else IZR z.
Proof. destruct s; [apply opp_IZR|reflexivity]. Qed.

Lemma SF2R_sign_mag (r : spec_float) :
  is_finite_SF r = true →
  SF2R r = if SFsign r then - SFmag r else SFmag r.
Proof.
  destruct r as [s|s| |s m e]; try done; intros _;
    cbn [SF2R SFmag SFsign].
  - destruct s; lra.
  - rewrite IZR_cond_Zopp. destruct s; lra.
Qed.

Lemma SFmag_nonneg (r : spec_float) : 0 <= SFmag r.
Proof.
  destruct r as [s|s| |s m e]; cbn [SFmag]; try lra.
  pose proof (bpow_pos e). assert (0 < IZR (Zpos m)) by (apply IZR_lt; lia). nra.
Qed.

(** A valid finite float is zero or has a bounded mantissa. *)
Lemma finite_cases (g : spec_float) :
  valid_binary g = true → is_finite_SF g = true →
  (SF2R g = 0 ∧ SFmag g = 0) ∨
  ∃ s m e, g = S754_finite s m e ∧ bounded prec emax m e = true.
Proof.
  destruct g as [s|s| |s m e]; try done; cbn; intros Hv _; [left; done|].
  right. eauto.
Qed.

Lemma rounds_mag_signed (sx : bool) (x : R) (r : spec_float) :
  0 <= x → rounds_mag sx x r → SFrounds (if sx then - x else x) r.
Proof.
  intros Hx (Hv & Hs & [(Hf & Hz & Hfaith)|[-> Hinf]]).
  - split; [done|]. left. split; [done|].
    intros g Hgv Hgf. rewrite (SF2R_sign_mag r Hf), Hs.
    pose proof (SFmag_nonneg r) as Hr.
    destruct (finite_cases g Hgv Hgf) as [[Hg0 _]|(s & m & e & -> & Hb)].
    + rewrite Hg0. destruct sx; split; intros; try lra; rewrite Hz by lra; lra.
    + destruct (Hfaith m e Hb) as [HL HU]. cbn [SF2R].
      assert (0 < IZR (Zpos m) * bpow e).
      { pose proof (bpow_pos e). assert (0 < IZR (Zpos m)) by (apply IZR_lt; lia). nra. }
      rewrite IZR_cond_Zopp. destruct s, sx; split; intros; try lra.
  - split; [done|]. destruct sx.
    + right; right. split; [done|]. intros g Hgv Hgf.
      destruct (finite_cases g Hgv Hgf) as [[Hg0 _]|(s & m & e & -> & Hb)].
      * rewrite Hg0. specialize (Hinf 1%positive (-1074)%Z eq_refl).
        pose proof (bpow_pos (-1074)). lra.
      * specialize (Hinf m e Hb) as Hi. cbn [SF2R].
        assert (0 < IZR (Zpos m) * bpow e).
        { pose proof (bpow_pos e). assert (0 < IZR (Zpos m)) by (apply IZR_lt; lia). nra. }
        rewrite IZR_cond_Zopp. destruct s; lra.
    + right; left. split; [done|]. intros g Hgv Hgf.
      destruct (finite_cases g Hgv Hgf) as [[Hg0 _]|(s & m & e & -> & Hb)].
      * rewrite Hg0. specialize (Hinf 1%positive (-1074)%Z eq_refl).
        pose proof (bpow_pos (-1074)). lra.
      * specialize (Hinf m e Hb) as Hi. cbn [SF2R].
        assert (0 < IZR (Zpos m) * bpow e).
        { pose proof (bpow_pos e). assert (0 < IZR (Zpos m)) by (apply IZR_lt; lia). nra. }
        rewrite IZR_cond_Zopp. destruct s; lra.
Qed.

(** A valid finite float rounds to itself. *)
Lemma SFrounds_refl (r : spec_float) :
  valid_binary r = true → is_finite_SF r = true → SFrounds (SF2R r) r.
Proof. intros Hv Hf. split; [done|]. left. split; [done|]. intros g _ _. split; auto. Qed.

Lemma digits2_pos_ge (m : positive) (k : Z) :
  (2 ^ (k - 1) <= Zpos m)%Z → (k <= Zpos (digits2_pos m))%Z.
Proof.
  intros Hk. destruct (digits2_pos_bounds m) as [_ Dhi].
  set (d := Zpos (digits2_pos m)) in *.
  destruct (Z.le_gt_cases k d) as [|Hgt]; [done|].
  assert (2 ^ d <= 2 ^ (k - 1))%Z by (apply Z.pow_le_mono_r; unfold d; lia). lia.
Qed.

Lemma iter_xO (m d : positive) : Zpos (Pos.iter xO m d) = (Zpos m * 2 ^ Zpos d)%Z.
Proof.
  induction d as [|d IH] using Pos.peano_ind.
  - cbn [Pos.iter]. lia.
  - rewrite Pos.iter_succ, Pos2Z.inj_xO, IH, Pos2Z.inj_succ, Z.pow_succ_r by lia. lia.
Qed.

(** [shl_align] keeps the value, and reaches the exponent asked for when the
    mantissa has to grow for it. *)
Lemma shl_align_spec (mx : positive) (ex ex' : Z) :
  ∃ mz ez, shl_align mx ex ex' = (mz, ez) ∧
    IZR (Zpos mz) * bpow ez = IZR (Zpos mx) * bpow ex ∧
    ez = Z.min ex ex' ∧
    (Zpos (digits2_pos mz) + ez = Zpos (digits2_pos mx) + ex)%Z.
Proof.
  unfold shl_align. destruct (ex' - ex)%Z as [|d|d] eqn:Hd.
  - eexists _, _. split; [reflexivity|]. repeat split; lia.
  - eexists _, _. split; [reflexivity|]. repeat split; lia.
  - eexists _, _. split; [reflexivity|].
    assert (Hex : ex = (ex' + Zpos d)%Z) by lia.
    split; [|split; [lia|]].
    + rewrite iter_xO, mult_IZR, Hex, bpow_shift by lia. lra.
    + destruct (digits2_pos_bounds mx) as [Dlo Dhi].
      set (k := Zpos (digits2_pos mx)) in *.
      rewrite (digits2_pos_unique (Pos.iter xO mx d) (k + Zpos d)); [lia|].
      rewrite iter_xO.
      replace (k + Zpos d - 1)%Z with ((k - 1) + Zpos d)%Z by lia.
      rewrite !Z.pow_add_r by (unfold k; lia).
      assert (0 < 2 ^ Zpos d)%Z by (apply Z.pow_pos_nonneg; lia). nia.
Qed.

Lemma inbetween_exact (m e : Z) : inbetween m e loc_Exact (IZR m * bpow e).
Proof.
  pose proof (bpow_pos e). unfold inbetween. rewrite plus_IZR.
  split; [split; nra|]. split; auto.
Qed.

Lemma binary_round_spec (sx : bool) (mx : positive) (ex : Z) :
  rounds_mag sx (IZR (Zpos mx) * bpow ex) (binary_round prec emax sx mx ex).
Proof.
  unfold binary_round.
  destruct (shl_align_spec mx ex (fexp prec emax (Zpos (digits2_pos mx) + ex)))
    as (mz & ez & -> & Hval & Hez & Hdig).
  rewrite <- Hval. apply binary_round_aux_spec; [lia|apply inbetween_exact|].
  cbn [Zdigits2]. rewrite Hdig. lia.
Qed.

Lemma binary_normalize_spec (m e : Z) (sz : bool) :
  SFrounds (IZR m * bpow e) (binary_normalize prec emax m e sz).
Proof.
  destruct m as [|p|p]; cbn [binary_normalize].
  - rewrite Rmult_0_l. apply (SFrounds_refl (S754_zero sz)); done.
  - pose proof (binary_round_spec false p e) as H.
    apply rounds_mag_signed in H; [done|].
    pose proof (bpow_pos e). assert (0 < IZR (Zpos p)) by (apply IZR_lt; lia). nra.
  - pose proof (binary_round_spec true p e) as H.
    apply rounds_mag_signed in H.
    + rewrite IZR_NEG. replace (- IZR (Zpos p) * bpow e) with (- (IZR (Zpos p) * bpow e)) by lra.
      done.
    + pose proof (bpow_pos e). assert (0 < IZR (Zpos p)) by (apply IZR_lt; lia). nra.
Qed.

Lemma SFrounds_eq (X Y : R) (r : spec_float) : X = Y → SFrounds X r → SFrounds Y r.
Proof. by intros ->. Qed.

Lemma shl_align_fst (mx : positive) (ex ez : Z) :
  (ez <= ex)%Z →
  IZR (Zpos (fst (shl_align mx ex ez))) * bpow ez = IZR (Zpos mx) * bpow ex.
Proof.
  intros Hle. destruct (shl_align_spec mx ex ez) as (mz & ez' & -> & Hval & Hez & _).
  cbn [fst]. rewrite <- Hval. f_equal. f_equal. lia.
Qed.

Lemma SF2R_finite (s : bool) (m : positive) (e : Z) :
  SF2R (S754_finite s m e) = (if s then - 1 else 1) * (IZR (Zpos m) * bpow e).
Proof. cbn [SF2R]. rewrite IZR_cond_Zopp. destruct s; lra. Qed.

Lemma SFadd_spec (x y : spec_float) :
  valid_binary x = true → valid_binary y = true →
  is_finite_SF x = true → is_finite_SF y = true →
  SFrounds (SF2R x + SF2R y) (SFadd prec emax x y).
Proof.
  intros Hvx Hvy Hfx Hfy.
  destruct x as [sx|sx| |sx mx ex], y as [sy|sy| |sy my ey]; try done.
  - apply (SFrounds_eq 0); [cbn; lra|].
    destruct sx, sy; cbn [SFadd]; by apply (SFrounds_refl (S754_zero _)).
  - apply (SFrounds_eq (SF2R (S754_finite sy my ey))); [cbn [SF2R]; lra|].
    by apply SFrounds_refl.
  - apply (SFrounds_eq (SF2R (S754_finite sx mx ex))); [cbn [SF2R]; lra|].
    by apply SFrounds_refl.
  - cbn [SFadd]. set (ez := Z.min ex ey).
    eapply SFrounds_eq; [|apply binary_normalize_spec].
    rewrite plus_IZR, !IZR_cond_Zopp, !SF2R_finite.
    pose proof (shl_align_fst mx ex ez ltac:(unfold ez; lia)) as H1.
    pose proof (shl_align_fst my ey ez ltac:(unfold ez; lia)) as H2.
    destruct sx, sy; nra.
Qed.

Lemma SFsub_spec (x y : spec_float) :
  valid_binary x = true → valid_binary y = true →
  is_finite_SF x = true → is_finite_SF y = true →
  SFrounds (SF2R x - SF2R y) (SFsub prec emax x y).
Proof.
  intros Hvx Hvy Hfx Hfy.
  destruct x as [sx|sx| |sx mx ex], y as [sy|sy| |sy my ey]; try done.
  - apply (SFrounds_eq 0); [cbn; lra|].
    destruct sx, sy; cbn [SFsub]; by apply (SFrounds_refl (S754_zero _)).
  - apply (SFrounds_eq (SF2R (S754_finite (negb sy) my ey))).
    { rewrite !SF2R_finite. cbn [SF2R]. destruct sy; cbn [negb]; lra. }
    by apply SFrounds_refl.
  - apply (SFrounds_eq (SF2R (S754_finite sx mx ex))); [cbn [SF2R]; lra|].
    by apply SFrounds_refl.
  - cbn [SFsub]. set (ez := Z.min ex ey).
    eapply SFrounds_eq; [|apply binary_normalize_spec].
    rewrite minus_IZR, !IZR_cond_Zopp, !SF2R_finite.
    pose proof (shl_align_fst mx ex ez ltac:(unfold ez; lia)) as H1.
    pose proof (shl_align_fst my ey ez ltac:(unfold ez; lia)) as H2.
    destruct sx, sy; nra.
Qed.

Lemma SFmul_spec (x y : spec_float) :
  valid_binary x = true → valid_binary y = true →
  is_finite_SF x = true → is_finite_SF y = true →
  SFrounds (SF2R x * SF2R y) (SFmul prec emax x y).
Proof.
  intros Hvx Hvy Hfx Hfy.
  destruct x as [sx|sx| |sx mx ex], y as [sy|sy| |sy my ey]; try done;
    try (apply (SFrounds_eq 0); [cbn [SF2R]; lra|];
         cbn [SFmul]; by apply (SFrounds_refl (S754_zero _))).
  cbn [SFmul].
  assert (Hpos : 0 <= IZR (Zpos (mx * my)) * bpow (ex + ey)).
  { pose proof (bpow_pos (ex + ey)).
    assert (0 < IZR (Zpos (mx * my))) by (apply IZR_lt; lia). nra. }
  pose proof (binary_round_aux_spec (xorb sx sy) (Zpos (mx * my)) (ex + ey) loc_Exact
                (IZR (Zpos (mx * my)) * bpow (ex + ey))) as H.
  eapply SFrounds_eq; [|apply rounds_mag_signed; [exact Hpos|apply H]].
  - rewrite !SF2R_finite, Pos2Z.inj_mul, mult_IZR, bpow_add.
    destruct sx, sy; cbn [xorb]; lra.
  - lia.
  - apply inbetween_exact.
  - cbn [Zdigits2]. rewrite fexp_eq.
    cbn in Hvx, Hvy.
    destruct (bounded_facts _ _ Hvx) as (Hex & Hmx & Hnx).
    destruct (bounded_facts _ _ Hvy) as (Hey & Hmy & Hny).
    set (D := Zpos (digits2_pos (mx * my))).
    assert (HD1 : (2 ^ 52 <= Zpos mx → 53 <= D)%Z).
    { intros. apply (digits2_pos_ge (mx * my) 53). rewrite Pos2Z.inj_mul. nia. }
    assert (HD2 : (2 ^ 52 <= Zpos my → 53 <= D)%Z).
    { intros. apply (digits2_pos_ge (mx * my) 53). rewrite Pos2Z.inj_mul. nia. }
    assert (HD3 : (2 ^ 52 <= Zpos mx → 2 ^ 52 <= Zpos my → 105 <= D)%Z).
    { intros. apply (digits2_pos_ge (mx * my) 105). rewrite Pos2Z.inj_mul.
      change (2 ^ (105 - 1))%Z with (2 ^ 52 * 2 ^ 52)%Z. nia. }
    destruct (Z.eq_dec ex (-1074)%Z), (Z.eq_dec ey (-1074)%Z); lia.
Qed.

Lemma new_location_exact (nb k : Z) : new_location nb k = loc_Exact ↔ k = 0%Z.
Proof.
  unfold new_location, new_location_even, new_location_odd.
  destruct (Z.even nb), (Z.eqb_spec k 0); split; try done;
    destruct (_ ?= _)%Z; done.
Qed.

(** The quotient of two positive mantissas, as [SFdiv_core_binary] cuts it:
    enough bits for the rounding, and the right slot. *)
Lemma div_core_spec (m1 m2 : positive) (e1 e2 : Z) :
  ∃ q e' l, SFdiv_core_binary prec emax (Zpos m1) e1 (Zpos m2) e2 = (q, e', l) ∧
    (0 <= q)%Z ∧
    inbetween q e' l (IZR (Zpos m1) * bpow e1 / (IZR (Zpos m2) * bpow e2)) ∧
    (e' <= fexp prec emax (Zdigits2 q + e'))%Z.
Proof.
  unfold SFdiv_core_binary. cbn [Zdigits2].
  destruct (digits2_pos_bounds m1) as [D1lo D1hi].
  destruct (digits2_pos_bounds m2) as [D2lo D2hi].
  set (d1 := Zpos (digits2_pos m1)) in *. set (d2 := Zpos (digits2_pos m2)) in *.
  set (e' := Z.min (fexp prec emax (d1 + e1 - (d2 + e2))) (e1 - e2)).
  set (s := (e1 - e2 - e')%Z).
  assert (Hs : (0 <= s)%Z) by (unfold s, e'; lia).
  set (m' := match s with Zpos _ => Z.shiftl (Zpos m1) s | Z0 => Zpos m1 | Zneg _ => 0%Z end).
  assert (Hm' : m' = (Zpos m1 * 2 ^ s)%Z).
  { unfold m'. destruct s as [|p|p] eqn:Es; [lia| |lia]. by rewrite Z.shiftl_mul_pow2. }
  clearbody m'.
  pose proof (Z_div_mod m' (Zpos m2) ltac:(lia)) as Hdm.
  destruct (Z.div_eucl m' (Zpos m2)) as [q r]. destruct Hdm as [Hdm Hr].
  assert (HP : (0 < 2 ^ s)%Z) by (apply Z.pow_pos_nonneg; lia).
  assert (Hq : (0 <= q)%Z) by nia.
  exists q, e', (new_location (Zpos m2) r). split; [done|]. split; [done|].
  split.
  - assert (HX : IZR (Zpos m1) * bpow e1 / (IZR (Zpos m2) * bpow e2)
               = (IZR q + IZR r / IZR (Zpos m2)) * bpow e').
    { replace e1 with (e2 + (e' + s))%Z by (unfold s; lia).
      rewrite bpow_add, bpow_shift by done.
      assert (IZR (Zpos m1) * IZR (2 ^ s) = IZR (Zpos m2) * IZR q + IZR r).
      { rewrite <- !mult_IZR, <- plus_IZR. f_equal. lia. }
      pose proof (bpow_pos e2). pose proof (bpow_pos e').
      assert (0 < IZR (Zpos m2)) by (apply IZR_lt; lia).
      field_simplify_eq; [nra|lra]. }
    rewrite HX. pose proof (bpow_pos e') as HB.
    assert (Hm2 : 0 < IZR (Zpos m2)) by (apply IZR_lt; lia).
    assert (Hr0 : 0 <= IZR r) by (apply IZR_le; lia).
    assert (Hr1 : IZR r < IZR (Zpos m2)) by (apply IZR_lt; lia).
    assert (Hiv : 0 < / IZR (Zpos m2)) by (apply Rinv_0_lt_compat; done).
    assert (Hiv1 : IZR (Zpos m2) * / IZR (Zpos m2) = 1) by (apply Rinv_r; lra).
    unfold Rdiv. set (iv := / IZR (Zpos m2)) in *.
    assert (Hfrac : 0 <= IZR r * iv < 1) by (split; nra).
    unfold inbetween. rewrite plus_IZR. split; [split; nra|].
    rewrite new_location_exact. split.
    + intros ->. lra.
    + intros Heq. assert (Hz : IZR r * iv = 0) by nra.
      apply eq_IZR. nra.
  - rewrite fexp_eq.
    destruct (Z.le_gt_cases e' (-1074)) as [Hle|Hgt]; [lia|].
    assert (He'1 : (e' <= Z.max (d1 + e1 - (d2 + e2) - 53) (-1074))%Z).
    { unfold e'. rewrite fexp_eq. lia. }
    assert (Hk : (53 <= d1 + s - d2)%Z) by (unfold s; lia).
    assert (Hq52 : (2 ^ (d1 + s - d2 - 1) <= q)%Z).
    { assert (Zpos m2 * 2 ^ (d1 + s - d2 - 1) <= m')%Z.
      { rewrite Hm'.
        assert (2 ^ (d1 - 1) * 2 ^ s = 2 ^ d2 * 2 ^ (d1 + s - d2 - 1))%Z.
        { rewrite <- !Z.pow_add_r by (unfold d1, d2; lia). f_equal. lia. }
        assert (0 < 2 ^ (d1 + s - d2 - 1))%Z by (apply Z.pow_pos_nonneg; lia).
        nia. }
      assert (0 < 2 ^ (d1 + s - d2 - 1))%Z by (apply Z.pow_pos_nonneg; lia).
      nia. }
    destruct q as [|pq|pq]; [| |lia].
    + assert (0 < 2 ^ (d1 + s - d2 - 1))%Z by (apply Z.pow_pos_nonneg; lia). lia.
    + cbn [Zdigits2].
      pose proof (digits2_pos_ge pq (d1 + s - d2) Hq52). unfold s in *. lia.
Qed.

Lemma SFdiv_spec (x y : spec_float) :
  valid_binary x = true → valid_binary y = true →
  is_finite_SF x = true → is_finite_SF y = true → SF2R y ≠ 0 →
  SFrounds (SF2R x / SF2R y) (SFdiv prec emax x y).
Proof.
  intros Hvx Hvy Hfx Hfy Hy0.
  destruct x as [sx|sx| |sx mx ex], y as [sy|sy| |sy my ey]; try done.
  - apply (SFrounds_eq 0); [cbn [SF2R]; unfold Rdiv; by rewrite Rmult_0_l|].
    cbn [SFdiv]. by apply (SFrounds_refl (S754_zero _)).
  - cbn [SFdiv].
    destruct (div_core_spec mx my ex ey) as (q & e' & l & -> & Hq & Hin & Hpre).
    pose proof (bpow_pos ex). pose proof (bpow_pos ey).
    assert (0 < IZR (Zpos mx)) by (apply IZR_lt; lia).
    assert (0 < IZR (Zpos my)) by (apply IZR_lt; lia).
    assert (Hden : 0 < IZR (Zpos my) * bpow ey) by nra.
    assert (Hpos : 0 <= IZR (Zpos mx) * bpow ex / (IZR (Zpos my) * bpow ey)).
    { unfold Rdiv. pose proof (Rinv_0_lt_compat _ Hden).
      assert (0 < IZR (Zpos mx) * bpow ex) by nra. nra. }
    eapply SFrounds_eq;
      [|apply rounds_mag_signed; [exact Hpos|by apply binary_round_aux_spec]].
    rewrite !SF2R_finite.
    destruct sx, sy; cbn [xorb]; field; lra.
Qed.

Lemma pos_float_lt_exp (m1 m2 : positive) (e1 e2 : Z) :
  bounded prec emax m1 e1 = true → bounded prec emax m2 e2 = true →
  (e1 < e2)%Z → IZR (Zpos m1) * bpow e1 < IZR (Zpos m2) * bpow e2.
Proof.
  intros H1 H2 Hlt.
  destruct (bounded_facts _ _ H1) as (He1 & Hm1 & _).
  destruct (bounded_facts _ _ H2) as (He2 & _ & Hn2).
  replace e2 with (e1 + (e2 - e1))%Z by lia.
  rewrite bpow_shift, <- Rmult_assoc, <- mult_IZR by lia. apply grid_lt.
  assert (2 ^ 1 <= 2 ^ (e2 - e1))%Z by (apply Z.pow_le_mono_r; lia).
  specialize (Hn2 ltac:(lia)). nia.
Qed.

(** On valid finite floats, [SFcompare] is the comparison of the values. *)
Lemma SFcompare_spec (x y : spec_float) :
  valid_binary x = true → valid_binary y = true →
  is_finite_SF x = true → is_finite_SF y = true →
  match SFcompare x y with
  | Some Lt => SF2R x < SF2R y
  | Some Eq => SF2R x = SF2R y
  | Some Gt => SF2R y < SF2R x
  | None => False
  end.
Proof.
  intros Hvx Hvy Hfx Hfy.
  destruct x as [sx|sx| |sx mx ex], y as [sy|sy| |sy my ey]; try done;
    cbn [SFcompare]; rewrite ?SF2R_finite; cbn [SF2R].
  - pose proof (bpow_pos ey). assert (0 < IZR (Zpos my)) by (apply IZR_lt; lia).
    destruct sy; nra.
  - pose proof (bpow_pos ex). assert (0 < IZR (Zpos mx)) by (apply IZR_lt; lia).
    destruct sx; nra.
  - cbn in Hvx, Hvy.
    pose proof (bpow_pos ex). assert (0 < IZR (Zpos mx)) by (apply IZR_lt; lia).
    pose proof (bpow_pos ey). assert (0 < IZR (Zpos my)) by (apply IZR_lt; lia).
    assert (Hcmp : match Z.compare ex ey with
                   | Lt => IZR (Zpos mx) * bpow ex < IZR (Zpos my) * bpow ey
                   | Gt => IZR (Zpos my) * bpow ey < IZR (Zpos mx) * bpow ex
                   | Eq => match Pos.compare_cont Eq mx my with
                           | Lt => IZR (Zpos mx) * bpow ex < IZR (Zpos my) * bpow ey
                           | Gt => IZR (Zpos my) * bpow ey < IZR (Zpos mx) * bpow ex
                           | Eq => IZR (Zpos mx) * bpow ex = IZR (Zpos my) * bpow ey
                           end
                   end).
    { destruct (Z.compare_spec ex ey) as [->|Hlt|Hgt].
      - change (Pos.compare_cont Eq mx my) with (Pos.compare mx my).
        destruct (Pos.compare_spec mx my) as [->|Hlt|Hgt]; [done| |];
          apply grid_lt; lia.
      - by apply pos_float_lt_exp.
      - by apply pos_float_lt_exp. }
    destruct sx, sy; try nra.
    + destruct (Z.compare ex ey); [|nra|nra].
      destruct (Pos.compare_cont Eq mx my); cbn [CompOpp]; nra.
    + destruct (Z.compare ex ey); [|nra|nra].
      destruct (Pos.compare_cont Eq mx my); nra.
Qed.

(** ** The same, on primitive floats *)

Lemma SFrounds_prim (X : R) (r : float) : SFrounds X (Prim2SF r) → rounds_to X r.
Proof.
  intros (_ & [(Hf & Hfaith)|[(Hinf & Hall)|(Hinf & Hall)]]).
  - left. split; [done|]. intros g Hg. apply Hfaith; [apply Prim2SF_valid|done].
  - right; left. split.
    + apply Prim2SF_inj. by rewrite Hinf.
    + intros g Hg. apply Hall; [apply Prim2SF_valid|done].
  - right; right. split.
    + apply Prim2SF_inj. by rewrite Hinf.
    + intros g Hg. apply Hall; [apply Prim2SF_valid|done].
Qed.

Lemma add_rounds (a b : float) :
  finite a → finite b → rounds_to (FR a + FR b) (a + b)%float.
Proof.
  intros Ha Hb. apply SFrounds_prim. rewrite add_spec.
  apply SFadd_spec; auto using Prim2SF_valid.
Qed.

Lemma sub_rounds (a b : float) :
  finite a → finite b → rounds_to (FR a - FR b) (a - b)%float.
Proof.
  intros Ha Hb. apply SFrounds_prim. rewrite sub_spec.
  apply SFsub_spec; auto using Prim2SF_valid.
Qed.

Lemma mul_rounds (a b : float) :
  finite a → finite b → rounds_to (FR a * FR b) (a * b)%float.
Proof.
  intros Ha Hb. apply SFrounds_prim. rewrite mul_spec.
  apply SFmul_spec; auto using Prim2SF_valid.
Qed.

Lemma div_rounds (a b : float) :
  finite a → finite b → FR b ≠ 0 → rounds_to (FR a / FR b) (a / b)%float.
Proof.
  intros Ha Hb Hb0. apply SFrounds_prim. rewrite div_spec.
  apply SFdiv_spec; auto using Prim2SF_valid.
Qed.

(** Comparisons of finite floats are those of their values. *)
Lemma compare_finite (a b : float) :
  finite a → finite b →
  ((a <? b)%float = true ↔ FR a < FR b) ∧
  ((a <=? b)%float = true ↔ FR a <= FR b) ∧
  ((a =? b)%float = true ↔ FR a = FR b).
Proof.
  intros Ha Hb. rewrite FloatAxioms.ltb_spec, FloatAxioms.leb_spec, FloatAxioms.eqb_spec.
  unfold SFltb, SFleb, SFeqb, FR.
  pose proof (SFcompare_spec (Prim2SF a) (Prim2SF b)
                (Prim2SF_valid a) (Prim2SF_valid b) Ha Hb) as H.
  destruct (SFcompare (Prim2SF a) (Prim2SF b)) as [[| |]|]; [| | |done];
    repeat split; intros; try done; try lra.
Qed.

Lemma ltb_finite (a b : float) :
  finite a → finite b → (a <? b)%float = true ↔ FR a < FR b.
Proof. intros Ha Hb. apply (compare_finite a b Ha Hb). Qed.

Lemma leb_finite (a b : float) :
  finite a → finite b → (a <=? b)%float = true ↔ FR a <= FR b.
Proof. intros Ha Hb. apply (compare_finite a b Ha Hb). Qed.

Lemma eqb_finite (a b : float) :
  finite a → finite b → (a =? b)%float = true ↔ FR a = FR b.
Proof. intros Ha Hb. apply (compare_finite a b Ha Hb). Qed.

(** Every float is a NaN, an infinity, or finite. *)
Lemma float_cases (f : float) :
  f = nan ∨ f = infinity ∨ f = neg_infinity ∨ finite f.
Proof.
  unfold finite. destruct (Prim2SF f) as [s|s| |s m e] eqn:E; auto.
  - right. destruct s; [right; left|left]; apply Prim2SF_inj; by rewrite E.
  - left. apply Prim2SF_inj. by rewrite E.
Qed.

(** ** Floats that are not finite *)

Lemma Prim2SF_nan : Prim2SF nan = S754_nan.
Proof. reflexivity. Qed.

Lemma Prim2SF_infinity : Prim2SF infinity = S754_infinity false.
Proof. reflexivity. Qed.

Lemma Prim2SF_neg_infinity : Prim2SF neg_infinity = S754_infinity true.
Proof. reflexivity. Qed.

Lemma finite_not_special (f : float) :
  finite f → f ≠ nan ∧ f ≠ infinity ∧ f ≠ neg_infinity.
Proof. unfold finite. intros Hf. repeat split; intros ->; done. Qed.

(** A comparison that holds has no NaN on either side; an infinity can only
    stand on its own side of it. *)
Lemma ltb_true_cases (a b : float) :
  (a <? b)%float = true →
  (a = neg_infinity ∨ finite a) ∧ (b = infinity ∨ finite b) ∧
  (finite a → finite b → FR a < FR b).
Proof.
  intros H. split; [|split].
  - destruct (float_cases a) as [->|[->|[->|Ha]]]; auto; exfalso;
      rewrite FloatAxioms.ltb_spec in H; unfold SFltb in H;
      rewrite ?Prim2SF_nan, ?Prim2SF_infinity in H;
      destruct (Prim2SF b) as [s|[|]| |s m e]; done.
  - destruct (float_cases b) as [->|[->|[->|Hb]]]; auto; exfalso;
      rewrite FloatAxioms.ltb_spec in H; unfold SFltb in H;
      rewrite ?Prim2SF_nan, ?Prim2SF_neg_infinity in H;
      destruct (Prim2SF a) as [s|[|]| |[|] m e]; done.
  - intros Ha Hb. by apply ltb_finite.
Qed.

Lemma leb_true_cases (a b : float) :
  (a <=? b)%float = true →
  (a = neg_infinity ∨ finite a ∨ (a = infinity ∧ b = infinity)) ∧
  (b = infinity ∨ finite b ∨ (a = neg_infinity ∧ b = neg_infinity)) ∧
  (finite a → finite b → FR a <= FR b).
Proof.
  intros H. split; [|split].
  - destruct (float_cases a) as [->|[->|[->|Ha]]]; auto.
    + exfalso. rewrite FloatAxioms.leb_spec in H. unfold SFleb in H.
      rewrite Prim2SF_nan in H. done.
    + right; right. split; [done|].
      destruct (float_cases b) as [->|[->|[->|Hb]]]; auto; exfalso;
        rewrite FloatAxioms.leb_spec in H; unfold SFleb in H;
        rewrite ?Prim2SF_nan, ?Prim2SF_infinity, ?Prim2SF_neg_infinity in H; try done.
      unfold finite in Hb. destruct (Prim2SF b) as [s|[|]| |s m e]; done.
  - destruct (float_cases b) as [->|[->|[->|Hb]]]; auto.
    + exfalso. rewrite FloatAxioms.leb_spec in H. unfold SFleb in H.
      rewrite Prim2SF_nan in H. destruct (Prim2SF a) as [s|[|]| |s m e]; done.
    + right; right. split; [|done].
      destruct (float_cases a) as [->|[->|[->|Ha]]]; auto; exfalso;
        rewrite FloatAxioms.leb_spec in H; unfold SFleb in H;
        rewrite ?Prim2SF_nan, ?Prim2SF_infinity, ?Prim2SF_neg_infinity in H; try done.
      unfold finite in Ha. destruct (Prim2SF a) as [s|[|]| |[|] m e]; done.
  - intros Ha Hb. by apply leb_finite.
Qed.

Lemma leb_infinity_r (a : float) : a ≠ nan → (a <=? infinity)%float = true.
Proof.
  intros Ha. rewrite FloatAxioms.leb_spec. unfold SFleb. rewrite Prim2SF_infinity.
  destruct (Prim2SF a) as [s|[|]| |[|] m e] eqn:E; try done.
  destruct Ha. apply Prim2SF_inj. by rewrite E.
Qed.

Lemma leb_neg_infinity_l (a : float) : a ≠ nan → (neg_infinity <=? a)%float = true.
Proof.
  intros Ha. rewrite FloatAxioms.leb_spec. unfold SFleb. rewrite Prim2SF_neg_infinity.
  destruct (Prim2SF a) as [s|[|]| |[|] m e] eqn:E; try done.
  destruct Ha. apply Prim2SF_inj. by rewrite E.
Qed.

(** ** Consequences of faithful rounding *)

(** A float below the exact value is below the rounded one, and likewise
    above. *)
Lemma rounds_ge (X : R) (r g : float) :
  rounds_to X r → finite g → FR g <= X →
  r = infinity ∨ (finite r ∧ FR g <= FR r).
Proof.
  intros [(Hf & Hfaith)|[(-> & _)|(-> & Hall)]] Hg Hle; auto.
  - right. split; [done|]. by apply Hfaith.
  - specialize (Hall g Hg). lra.
Qed.

Lemma rounds_le (X : R) (r g : float) :
  rounds_to X r → finite g → X <= FR g →
  r = neg_infinity ∨ (finite r ∧ FR r <= FR g).
Proof.
  intros [(Hf & Hfaith)|[(-> & Hall)|(-> & _)]] Hg Hle; auto.
  - right. split; [done|]. by apply Hfaith.
  - specialize (Hall g Hg). lra.
Qed.

Lemma rounds_between (X : R) (r gl gu : float) :
  rounds_to X r → finite gl → finite gu → FR gl <= X → X <= FR gu →
  finite r ∧ FR gl <= FR r <= FR gu.
Proof.
  intros Hr Hgl Hgu Hl Hu.
  destruct (rounds_ge X r gl Hr Hgl Hl) as [->|[Hf H1]].
  - destruct (rounds_le X _ gu Hr Hgu Hu) as [E|[Hf' _]]; [|done].
    apply (f_equal Prim2SF) in E. done.
  - destruct (rounds_le X _ gu Hr Hgu Hu) as [->|[_ H2]]; done.
Qed.

(** A value that is itself a float is rounded to it. *)
Lemma rounds_exact (r g : float) :
  rounds_to (FR g) r → finite g → finite r ∧ FR r = FR g.
Proof.
  intros Hr Hg.
  destruct (rounds_between (FR g) r g g Hr Hg Hg) as [Hf H]; [lra|lra|].
  split; [done|lra].
Qed.

Lemma rounds_not_nan (X : R) (r : float) : rounds_to X r → r ≠ nan.
Proof.
  intros [(Hf & _)|[(-> & _)|(-> & _)]]; try done.
  by apply finite_not_special.
Qed.

(** ** Operations on an infinity, and results that are not NaN *)

Lemma finite_pos_sign (b : float) :
  finite b → 0 < FR b → ∃ m e, Prim2SF b = S754_finite false m e.
Proof.
  unfold finite, FR. destruct (Prim2SF b) as [s|s| |[|] m e]; try done; cbn [SF2R].
  - intros _ H. lra.
  - intros _ H. rewrite IZR_cond_Zopp in H. pose proof (bpow_pos e).
    assert (0 < IZR (Zpos m)) by (apply IZR_lt; lia). nra.
  - eauto.
Qed.

Lemma infinity_div_pos (b : float) :
  finite b → 0 < FR b → (infinity / b)%float = infinity.
Proof.
  intros Hb Hpos. destruct (finite_pos_sign b Hb Hpos) as (m & e & E).
  apply Prim2SF_inj. by rewrite div_spec, E.
Qed.

Lemma infinity_mul_pos (b : float) :
  finite b → 0 < FR b → (b * infinity)%float = infinity.
Proof.
  intros Hb Hpos. destruct (finite_pos_sign b Hb Hpos) as (m & e & E).
  apply Prim2SF_inj. by rewrite mul_spec, E.
Qed.

Lemma div_not_nan (a b : float) :
  a ≠ nan → finite b → FR b ≠ 0 → (a / b)%float ≠ nan.
Proof.
  intros Ha Hb Hb0.
  destruct (float_cases a) as [->|[->|[->|Hfa]]]; [done| | |].
  - intros E. apply (f_equal Prim2SF) in E. rewrite div_spec in E.
    unfold finite, FR in *. destruct (Prim2SF b) as [s|s| |s m e]; done.
  - intros E. apply (f_equal Prim2SF) in E. rewrite div_spec in E.
    unfold finite, FR in *. destruct (Prim2SF b) as [s|s| |s m e]; done.
  - eapply rounds_not_nan. by apply div_rounds.
Qed.

Lemma mul_nan_r (a : float) : (a * nan)%float = nan.
Proof.
  apply Prim2SF_inj. rewrite mul_spec. by destruct (Prim2SF a) as [s|s| |s m e].
Qed.

Lemma mul_nan_l (a : float) : (nan * a)%float = nan.
Proof.
  apply Prim2SF_inj. rewrite mul_spec. by destruct (Prim2SF a) as [s|s| |s m e].
Qed.

Lemma add_nan_r (a : float) : (a + nan)%float = nan.
Proof.
  apply Prim2SF_inj. rewrite add_spec. by destruct (Prim2SF a) as [s|s| |s m e].
Qed.

(** A product of floats that is zero has a finite factor on the left: an
    infinity or a NaN there gives an infinity or a NaN. *)
Lemma mul_zero_finite_l (a b : float) :
  (a * b =? 0)%float = true → finite a.
Proof.
  intros H. rewrite FloatAxioms.eqb_spec, mul_spec in H. unfold finite, SFeqb in *.
  destruct (Prim2SF a) as [sa|sa| |sa ma ea]; try done;
    destruct (Prim2SF b) as [sb|sb| |sb mb eb]; try done;
    cbn in H; destruct (xorb sa sb); done.
Qed.

(** ** Bounds on finite floats *)

Lemma finite_abs_lt (f : float) : finite f → Rabs (FR f) < bpow 1024.
Proof.
  unfold finite, FR. pose proof (Prim2SF_valid f) as Hv.
  destruct (Prim2SF f) as [s|s| |s m e]; try done; intros _; cbn [SF2R].
  - rewrite Rabs_pos_eq by lra. apply bpow_pos.
  - rewrite IZR_cond_Zopp. cbn in Hv.
    pose proof (float_le_max m e Hv) as Hmax.
    assert (Hpos : 0 < IZR (Zpos m) * bpow e).
    { pose proof (bpow_pos e). assert (0 < IZR (Zpos m)) by (apply IZR_lt; lia). nra. }
    assert (Hlt : IZR (2 ^ 53 - 1) * bpow 971 < bpow 1024).
    { replace 1024%Z with (971 + 53)%Z by lia. rewrite bpow_shift by lia.
      apply grid_lt. lia. }
    destruct s.
    + replace (- IZR (Zpos m) * bpow e) with (- (IZR (Zpos m) * bpow e)) by lra.
      rewrite Rabs_Ropp, Rabs_pos_eq; lra.
    + rewrite Rabs_pos_eq; lra.
Qed.

(** Twice a float is a float, unless it is too large. *)
Lemma double_representable (c : float) :
  finite c → Rabs (FR c) < bpow 1023 → ∃ g, finite g ∧ FR g = 2 * FR c.
Proof.
  unfold finite, FR. pose proof (Prim2SF_valid c) as Hv.
  destruct (Prim2SF c) as [s|s| |s m e] eqn:E; try done; intros _ Hlt.
  - exists c. unfold finite, FR. rewrite E. cbn [SF2R]. split; [done|lra].
  - cbn in Hv. destruct (bounded_facts m e Hv) as (He & Hm & Hn).
    rewrite SF2R_finite in Hlt.
    assert (Hpos : 0 < IZR (Zpos m) * bpow e).
    { pose proof (bpow_pos e). assert (0 < IZR (Zpos m)) by (apply IZR_lt; lia). nra. }
    assert (Habs : IZR (Zpos m) * bpow e < bpow 1023).
    { destruct s.
      - replace (-1 * (IZR (Zpos m) * bpow e)) with (- (IZR (Zpos m) * bpow e)) in Hlt by lra.
        rewrite Rabs_Ropp, Rabs_pos_eq in Hlt; lra.
      - rewrite Rmult_1_l, Rabs_pos_eq in Hlt; lra. }
    destruct (Z.le_gt_cases (2 ^ 52) (Zpos m)) as [Hnorm|Hsub].
    + (* a normal number: the exponent grows *)
      assert (He1 : (e + 1 <= 971)%Z).
      { destruct (Z.le_gt_cases (e + 1) 971) as [|Hgt]; [done|]. exfalso.
        assert (bpow 1023 <= IZR (Zpos m) * bpow e); [|lra].
        replace e with (971 + (e - 971))%Z by lia. rewrite bpow_shift by lia.
        replace 1023%Z with (971 + 52)%Z by lia. rewrite (bpow_shift 971 52) by lia.
        rewrite <- Rmult_assoc, <- mult_IZR. apply grid_le.
        assert (2 ^ 0 <= 2 ^ (e - 971))%Z by (apply Z.pow_le_mono_r; lia). nia. }
      assert (Hb : bounded prec emax m (e + 1) = true) by (apply bounded_intro; lia).
      exists (SF2Prim (S754_finite s m (e + 1))).
      unfold finite, FR. rewrite Prim2SF_SF2Prim by exact Hb.
      split; [done|]. rewrite !SF2R_finite, bpow_add, (bpow_IZR 1) by lia.
      change (2 ^ 1)%Z with 2%Z. lra.
    + (* a subnormal number: the mantissa doubles *)
      assert (He0 : e = (-1074)%Z).
      { destruct (Z.eq_dec e (-1074)%Z) as [|Hne]; [done|]. specialize (Hn ltac:(lia)). lia. }
      assert (Hb : bounded prec emax (m~0) e = true).
      { apply bounded_intro; [lia|rewrite Pos2Z.inj_xO; lia|lia]. }
      exists (SF2Prim (S754_finite s (m~0) e)).
      unfold finite, FR. rewrite Prim2SF_SF2Prim by exact Hb.
      split; [done|]. rewrite !SF2R_finite, Pos2Z.inj_xO, mult_IZR. lra.
Qed.

(** ** Values of float constants *)

Lemma bpow_neg (n : Z) : (0 <= n)%Z → bpow (- n) = / IZR (2 ^ n).
Proof. intros Hn. unfold bpow. rewrite powerRZ_neg'. f_equal. by apply bpow_IZR. Qed.

Lemma FR_const (f : float) (s : bool) (m : positive) (e : Z) :
  Prim2SF f = S754_finite s m e →
  finite f ∧ FR f = (if s then -1 else 1) * (IZR (Zpos m) * bpow e).
Proof. intros H. unfold finite, FR. rewrite H. split; [done|apply SF2R_finite]. Qed.

(** Proves [finite c ∧ FR c = q] for a float literal [c] and the rational [q]
    it stands for. *)
Ltac float_value :=
  lazymatch goal with
  | |- finite ?c ∧ FR ?c = _ =>
      let sf := eval vm_compute in (Prim2SF c) in
      lazymatch sf with
      | S754_zero _ =>
          unfold finite, FR; change (Prim2SF c) with sf; cbn [SF2R is_finite_SF];
          split; [reflexivity|lra]
      | S754_finite ?s ?m ?e =>
          let Hf := fresh "Hf" in
          let Hv := fresh "Hv" in
          destruct (FR_const c s m e ltac:(vm_compute; reflexivity)) as [Hf Hv];
          split; [exact Hf|]; rewrite Hv;
          lazymatch e with
          | Zneg ?p =>
              change e with (- Zpos p)%Z; rewrite (bpow_neg (Zpos p)) by lia;
              let v := eval vm_compute in (2 ^ Zpos p)%Z in
              change (2 ^ Zpos p)%Z with v
          | _ =>
              rewrite (bpow_IZR e) by lia;
              let v := eval vm_compute in (2 ^ e)%Z in
              change (2 ^ e)%Z with v
          end;
          lra
      end
  end.

Lemma FR_0 : finite 0 ∧ FR 0 = 0.
Proof. float_value. Qed.

Lemma FR_1 : finite 1 ∧ FR 1 = 1.
Proof. float_value. Qed.

Lemma FR_2 : finite 2 ∧ FR 2 = 2.
Proof. float_value. Qed.

Lemma FR_half : finite 0.5 ∧ FR 0.5 = / 2.
Proof. float_value. Qed.

Lemma FR_neg_1 : finite (-1) ∧ FR (-1) = -1.
Proof. float_value. Qed.

Lemma FR_100 : finite 100 ∧ FR 100 = 100.
Proof. float_value. Qed.

(** ** Comparisons that pin a float down *)

Lemma between_finite (lo hi c : float) :
  finite lo → finite hi → (lo <=? c)%float = true → (c <=? hi)%float = true →
  finite c ∧ FR lo <= FR c <= FR hi.
Proof.
  intros Flo Fhi H0 H1.
  apply leb_true_cases in H0 as (_ & Hc0 & Hle0).
  apply leb_true_cases in H1 as (Hc1 & _ & Hle1).
  apply finite_not_special in Flo as Slo. apply finite_not_special in Fhi as Shi.
  assert (Fc : finite c).
  { destruct Hc1 as [->|[Fc|[-> E]]]; [|done|by destruct Shi as (_ & ? & _)].
    destruct Hc0 as [E|[Fc|[E _]]].
    - apply (f_equal Prim2SF) in E. done.
    - by apply finite_not_special in Fc as (_ & _ & ?).
    - by destruct Slo as (_ & _ & ?). }
  split; [done|]. split; [by apply Hle0|by apply Hle1].
Qed.

Lemma eqb_zero_finite (x : float) :
  (x =? 0)%float = true → finite x ∧ FR x = 0.
Proof.
  rewrite FloatAxioms.eqb_spec. unfold finite, FR.
  change (Prim2SF 0) with (S754_zero false).
  destruct (Prim2SF x) as [s|[]| |[] m e]; cbn; done.
Qed.

Lemma finite_zero_eqb (x : float) :
  finite x → FR x = 0 → (x =? 0)%float = true.
Proof.
  intros Fx Ex. destruct FR_0 as [F0 E0].
  apply (eqb_finite x 0 Fx F0). by rewrite E0.
Qed.

Lemma not_nan_is_nan (x : float) : x ≠ nan → is_nan x = false.
Proof.
  intros Hx. destruct (float_cases x) as [->|[->|[->|Fx]]];
    [by destruct Hx|by vm_compute|by vm_compute|].
  unfold is_nan. by rewrite (proj2 (eqb_finite x x Fx Fx) eq_refl).
Qed.

Lemma add_infinity_r (c : float) : finite c → (c + infinity)%float = infinity.
Proof.
  intros Fc. apply Prim2SF_inj. rewrite add_spec. unfold finite in Fc.
  by destruct (Prim2SF c) as [s|s| |s m e].
Qed.

Lemma sub_infinity_l (c : float) : finite c → (infinity - c)%float = infinity.
Proof.
  intros Fc. apply Prim2SF_inj. rewrite sub_spec. unfold finite in Fc.
  by destruct (Prim2SF c) as [s|s| |s m e].
Qed.

Lemma Rdiv_lower (a b c : R) : 0 < c → a * c <= b → a <= b / c.
Proof.
  intros Hc H. unfold Rdiv. pose proof (Rinv_0_lt_compat c Hc) as Hi.
  assert (E : c * / c = 1) by (apply Rinv_r; lra).
  replace a with (a * c * / c) by (rewrite Rmult_assoc, E; lra).
  apply Rmult_le_compat_r; lra.
Qed.

Lemma Rdiv_upper (a b c : R) : 0 < c → b <= a * c → b / c <= a.
Proof.
  intros Hc H. unfold Rdiv. pose proof (Rinv_0_lt_compat c Hc) as Hi.
  assert (E : c * / c = 1) by (apply Rinv_r; lra).
  replace a with (a * c * / c) by (rewrite Rmult_assoc, E; lra).
  apply Rmult_le_compat_r; lra.
Qed.

Lemma FR_pow2_m1029 : finite 0x1p-1029 ∧ FR 0x1p-1029 = bpow (-1029).
Proof.
  destruct (FR_const 0x1p-1029 false 35184372088832 (-1074)
              ltac:(vm_compute; reflexivity)) as [F E].
  split; [done|]. rewrite E.
  change (-1029)%Z with (45 + -1074)%Z. rewrite bpow_add, (bpow_IZR 45) by lia.
  change (2 ^ 45)%Z with 35184372088832%Z. lra.
Qed.

Lemma FR_pow2_m1030 : finite 0x1p-1030 ∧ FR 0x1p-1030 = bpow (-1030).
Proof.
  destruct (FR_const 0x1p-1030 false 17592186044416 (-1074)
              ltac:(vm_compute; reflexivity)) as [F E].
  split; [done|]. rewrite E.
  change (-1030)%Z with (44 + -1074)%Z. rewrite bpow_add, (bpow_IZR 44) by lia.
  change (2 ^ 44)%Z with 17592186044416%Z. lra.
Qed.

(** ** Square root *)

Lemma sqrt_core_spec (m : positive) (e : Z) :
  ∃ q e' l, SFsqrt_core_binary prec emax (Zpos m) e = (q, e', l) ∧
    (0 <= q)%Z ∧
    inbetween q e' l (R_sqrt.sqrt (IZR (Zpos m) * bpow e)) ∧
    (e' <= fexp prec emax (Zdigits2 q + e'))%Z.
Proof.
  unfold SFsqrt_core_binary. cbn [Zdigits2].
  destruct (digits2_pos_bounds m) as [Dlo Dhi].
  set (d := Zpos (digits2_pos m)) in *.
  set (e' := Z.min (fexp prec emax (Z.div2 (d + e + 1))) (Z.div2 e)).
  set (s := (e - 2 * e')%Z).
  assert (He'1 : (e' <= fexp prec emax ((d + e + 1) / 2))%Z).
  { unfold e'. rewrite (Z.div2_div (d + e + 1)). apply Z.le_min_l. }
  assert (Hs : (0 <= s)%Z).
  { unfold s, e'. rewrite (Z.div2_div e).
    generalize (fexp prec emax (Z.div2 (d + e + 1))). intros F.
    pose proof (Z.le_min_r F (e / 2)). pose proof (Z.mul_div_le e 2 ltac:(lia)). lia. }
  set (m' := match s with Zpos _ => Z.shiftl (Zpos m) s | Z0 => Zpos m | Zneg _ => 0%Z end).
  assert (Hm' : m' = (Zpos m * 2 ^ s)%Z).
  { unfold m'. destruct s as [|p|p] eqn:Es; [lia| |lia]. by rewrite Z.shiftl_mul_pow2. }
  clearbody m'.
  assert (HP : (0 < 2 ^ s)%Z) by (apply Z.pow_pos_nonneg; lia).
  pose proof (Z.sqrtrem_spec m' ltac:(nia)) as Hsq.
  destruct (Z.sqrtrem m') as [q r]. destruct Hsq as [Hmq Hr].
  assert (Hq : (0 <= q)%Z) by lia.
  eexists q, e', _. split; [reflexivity|]. split; [done|]. split.
  - set (A := IZR (Zpos m) * bpow e). set (B := bpow e').
    assert (HB : 0 < B) by apply bpow_pos.
    assert (HA : A = IZR m' * (B * B)).
    { unfold A, B. replace e with (e' + e' + s)%Z by (unfold s; lia).
      rewrite bpow_shift, bpow_add, Hm', mult_IZR by done. lra. }
    assert (Hm0 : 0 <= IZR m') by (apply IZR_le; nia).
    assert (HA0 : 0 <= A) by (rewrite HA; nra).
    pose proof (sqrt_pos A) as HX0. pose proof (sqrt_sqrt A HA0) as HXX.
    set (X := R_sqrt.sqrt A) in *.
    assert (Hmr : IZR m' = IZR q * IZR q + IZR r)
      by (rewrite <- mult_IZR, <- plus_IZR; by f_equal).
    assert (Hq0 : 0 <= IZR q) by (by apply IZR_le).
    assert (Hr0 : 0 <= IZR r) by (apply IZR_le; lia).
    assert (Hr1 : IZR r <= 2 * IZR q)
      by (rewrite <- mult_IZR; apply IZR_le; lia).
    assert (HBB : 0 < B * B) by nra.
    assert (Hlo : IZR q * B <= X).
    { destruct (Rle_or_lt (IZR q * B) X) as [|Hlt]; [done|exfalso].
      assert (X * X < IZR q * B * (IZR q * B))
        by (apply Rmult_le_0_lt_compat; lra).
      assert (IZR q * B * (IZR q * B) <= IZR m' * (B * B)) by (rewrite Hmr; nra).
      lra. }
    assert (Hhi : X < (IZR q + 1) * B).
    { destruct (Rlt_or_le X ((IZR q + 1) * B)) as [|Hge]; [done|exfalso].
      assert (0 <= (IZR q + 1) * B) by (apply Rmult_le_pos; lra).
      assert ((IZR q + 1) * B * ((IZR q + 1) * B) <= X * X)
        by (apply Rmult_le_compat; lra).
      assert (IZR m' * (B * B) < (IZR q + 1) * B * ((IZR q + 1) * B)).
      { rewrite Hmr.
        replace ((IZR q + 1) * B * ((IZR q + 1) * B))
          with ((IZR q * IZR q + 2 * IZR q + 1) * (B * B)) by ring.
        apply Rmult_lt_compat_r; lra. }
      lra. }
    unfold inbetween. rewrite plus_IZR. split; [done|].
    destruct (Z.eqb_spec r 0) as [Hr0'|Hr0'].
    + split; [intros _|done]. subst r. rewrite Rplus_0_r in Hmr.
      destruct (Rle_lt_or_eq_dec _ _ Hlo) as [Hlt|]; [exfalso|done].
      assert (0 <= IZR q * B) by (apply Rmult_le_pos; lra).
      assert (IZR q * B * (IZR q * B) < X * X)
        by (apply Rmult_le_0_lt_compat; lra).
      rewrite HXX, HA, Hmr in *. lra.
    + split; [done|]. intros HXq. exfalso. apply Hr0'. apply eq_IZR.
      assert (E : IZR m' * (B * B) = IZR q * IZR q * (B * B))
        by (rewrite <- HA, <- HXX, HXq; unfold B; ring).
      apply Rmult_eq_reg_r in E; lra.
  - rewrite fexp_eq in *.
    destruct (Z.le_gt_cases e' (-1074)) as [Hle|Hgt]; [lia|].
    assert (Hds : (105 <= d + s)%Z)
      by (pose proof (Z.mul_div_le (d + e + 1) 2 ltac:(lia)); unfold s; lia).
    assert (H104 : (2 ^ 104 <= m')%Z).
    { rewrite Hm'.
      assert (2 ^ 104 <= 2 ^ (d - 1 + s))%Z by (apply Z.pow_le_mono_r; lia).
      rewrite Z.pow_add_r in * by (unfold d; lia). nia. }
    assert (Hq52 : (2 ^ 52 <= q)%Z).
    { destruct (Z.le_gt_cases (2 ^ 52) q) as [|Hlt]; [done|exfalso].
      change (2 ^ 104)%Z with (2 ^ 52 * 2 ^ 52)%Z in H104.
      set (P := (2 ^ 52)%Z) in *. assert (0 < P)%Z by (unfold P; lia). nia. }
    destruct q as [|pq|pq]; [lia| |lia].
    cbn [Zdigits2]. pose proof (digits2_pos_ge pq 53 Hq52). lia.
Qed.

Lemma SFsqrt_spec (x : spec_float) :
  (∃ s, x = S754_zero s) ∨ (∃ m e, x = S754_finite false m e) →
  SFrounds (R_sqrt.sqrt (SF2R x)) (SFsqrt prec emax x).
Proof.
  intros [[s ->]|(m & e & ->)].
  - cbn [SF2R SFsqrt]. rewrite sqrt_0.
    by apply (SFrounds_refl (S754_zero s)).
  - cbn [SFsqrt].
    destruct (sqrt_core_spec m e) as (q & e' & l & -> & Hq & Hin & Hpre).
    rewrite SF2R_finite, Rmult_1_l.
    apply (rounds_mag_signed false); [apply sqrt_pos|].
    by apply binary_round_aux_spec.
Qed.

(** The square root of a float: rounded from the real square root on the
    floats that are not negative, and a NaN or [infinity] elsewhere. *)
Lemma sqrt_cases (x : float) :
  (finite x ∧ 0 <= FR x ∧ rounds_to (R_sqrt.sqrt (FR x)) (PrimFloat.sqrt x))
  ∨ PrimFloat.sqrt x = nan ∨ PrimFloat.sqrt x = infinity.
Proof.
  unfold finite, FR.
  destruct (Prim2SF x) as [s|[]| |[] m e] eqn:E.
  - left. split; [done|]. split; [cbn; lra|].
    apply SFrounds_prim. rewrite sqrt_spec, E. apply SFsqrt_spec. eauto.
  - right; left. apply Prim2SF_inj. by rewrite sqrt_spec, E.
  - right; right. apply Prim2SF_inj. by rewrite sqrt_spec, E.
  - right; left. apply Prim2SF_inj. by rewrite sqrt_spec, E.
  - right; left. apply Prim2SF_inj. by rewrite sqrt_spec, E.
  - left. split; [done|]. rewrite SF2R_finite, Rmult_1_l.
    pose proof (bpow_pos e). assert (0 < IZR (Zpos m)) by (apply IZR_lt; lia).
    split; [nra|].
    apply SFrounds_prim. rewrite sqrt_spec, E.
    rewrite <- (Rmult_1_l (IZR (Zpos m) * bpow e)), <- (SF2R_finite false).
    apply SFsqrt_spec. eauto.
Qed.

Lemma sqrt_not_negative (x : float) : (PrimFloat.sqrt x <? 0)%float = false.
Proof.
  destruct FR_0 as [F0 E0].
  destruct (sqrt_cases x) as [(Fx & Hx & Hr)|[->| ->]]; [|by vm_compute..].
  destruct (rounds_ge _ _ 0%float Hr F0) as [->|[Fr Hr0]].
  - rewrite E0. apply sqrt_pos.
  - by vm_compute.
  - apply not_true_is_false. intros H. apply (ltb_finite _ _ Fr F0) in H. lra.
Qed.

Lemma sqrt_zero_only_at_zero (x : float) :
  (PrimFloat.sqrt x =? 0)%float = true → (x =? 0)%float = true.
Proof.
  intros H. destruct FR_0 as [F0 E0]. destruct FR_1 as [F1 E1].
  destruct (eqb_zero_finite _ H) as [Fr Er].
  destruct (sqrt_cases x) as [(Fx & Hx & Hr)|[E|E]].
  - destruct (Req_dec (FR x) 0) as [Ex|Hne]; [by apply finite_zero_eqb|exfalso].
    assert (Hpos : 0 < FR x) by lra.
    destruct (Rle_or_lt (FR x) 1) as [Hle|Hgt].
    + (* sqrt x >= x on [0, 1] *)
      assert (Hsx : FR x <= R_sqrt.sqrt (FR x)).
      { pose proof (sqrt_pos (FR x)) as Hs0.
        pose proof (sqrt_sqrt (FR x) Hx) as Hss.
        destruct (Rle_or_lt (FR x) (R_sqrt.sqrt (FR x))) as [|Hlt]; [done|exfalso].
        set (S := R_sqrt.sqrt (FR x)) in *. nra. }
      destruct (rounds_ge _ _ x Hr Fx Hsx) as [Ei|[_ Hge]].
      * rewrite Ei in Fr. by apply finite_not_special in Fr as (_ & ? & _).
      * lra.
    + assert (Hsx : FR 1 <= R_sqrt.sqrt (FR x)).
      { rewrite E1, <- sqrt_1. apply sqrt_le_1; lra. }
      destruct (rounds_ge _ _ 1%float Hr F1 Hsx) as [Ei|[_ Hge]].
      * rewrite Ei in Fr. by apply finite_not_special in Fr as (_ & ? & _).
      * lra.
  - rewrite E in Fr. by apply finite_not_special in Fr as (? & _).
  - rewrite E in Fr. by apply finite_not_special in Fr as (_ & ? & _).
Qed.

End B64Theory.

(** * Properties of the quantum volume analysis *)

Module QuantumVolumeTheory.
Import QuantumVolume B64 B64Theory.

(** The specification's examples, run on the reference numerics. *)
Example heavy_output_example :
  _calc_ideal_heavy_output [0.2; 0.8]%float 1 = inr ["1"].
Proof. vm_compute. reflexivity. Qed.

Example heavy_output_uniform_example :
  _calc_ideal_heavy_output [0.25; 0.25; 0.25; 0.25]%float 2 = inr [].
Proof. vm_compute. reflexivity. Qed.

Example quantum_volume_example_150 :
  ∃ r ws, _calc_quantum_volume reference_numerics (replicate 150 0.8%float) 2 150
          = inr (r, ws)
    ∧ qv_success r = true ∧ quantum_volume r = 4%Z ∧ ws = [].
Proof. eexists _, _. vm_compute. repeat split; reflexivity. Qed.

Example quantum_volume_example_50 :
  ∃ r ws, _calc_quantum_volume reference_numerics (replicate 50 0.8%float) 2 50
          = inr (r, ws)
    ∧ qv_success r = false ∧ quantum_volume r = 1%Z
    ∧ ((2 / 3 + 2 * sigma r)%float <? mean_hop r)%float = true
    ∧ ws = ["Must use at least 100 trials to consider Quantum Volume as successful."].
Proof. eexists _, _. vm_compute. repeat split; reflexivity. Qed.

(** ** Integers as floats *)

Lemma SFrounds_to_float (X : R) (sf : spec_float) :
  SFrounds X sf →
  match sf with
  | S754_infinity _ => True
  | _ => finite (SF2Prim sf) ∧ rounds_to X (SF2Prim sf)
  end.
Proof.
  intros H. pose proof H as (Hv & Hcases).
  assert (Hp : Prim2SF (SF2Prim sf) = sf) by (by apply Prim2SF_SF2Prim).
  assert (Hr : rounds_to X (SF2Prim sf)) by (apply SFrounds_prim; by rewrite Hp).
  destruct sf as [s|s| |s m e]; try done.
  - split; [|done]. unfold finite. by rewrite Hp.
  - destruct Hcases as [[? _]|[[? _]|[? _]]]; done.
  - split; [|done]. unfold finite. by rewrite Hp.
Qed.

Lemma FR_opp (g : float) : finite g → finite (- g) ∧ FR (- g) = (- FR g)%R.
Proof.
  unfold finite, FR. rewrite opp_spec.
  destruct (Prim2SF g) as [s|s| |s m e]; try done; intros _; cbn [SFopp SF2R is_finite_SF].
  - split; [done|lra].
  - split; [done|]. rewrite !IZR_cond_Zopp. destruct s; cbn [negb]; lra.
Qed.

(** An infinity is returned only for a value above all floats. *)
Lemma SFrounds_infinity (X : R) (s : bool) :
  SFrounds X (S754_infinity s) → ∀ g, finite g → (FR g < Rabs X)%R.
Proof.
  intros (_ & [[? _]|[[_ Hall]|[_ Hall]]]) g Hg; [done| |].
  - specialize (Hall (Prim2SF g) (Prim2SF_valid g) Hg). fold (FR g) in Hall.
    pose proof (Rle_abs X). lra.
  - destruct (FR_opp g Hg) as [Hog Vog].
    specialize (Hall (Prim2SF (- g)) (Prim2SF_valid _) Hog). fold (FR (- g)) in Hall.
    pose proof (Rle_abs (- X)). rewrite Rabs_Ropp in H. lra.
Qed.

(** [int_to_float] gives a finite float, a faithful rounding of the
    integer. *)
Lemma int_to_float_spec (n : Z) (t : float) :
  int_to_float n = inr t → finite t ∧ rounds_to (IZR n) t.
Proof.
  unfold int_to_float.
  pose proof (binary_normalize_spec n 0 false) as H.
  apply (SFrounds_eq _ (IZR n)) in H; [|unfold bpow; cbn; lra].
  apply SFrounds_to_float in H.
  destruct (binary_normalize prec emax n 0 false) as [s|s| |s m e];
    intros [= <-]; done.
Qed.

Lemma int_to_float_ge_100 (n : Z) (t : float) :
  int_to_float n = inr t → (100 <= n)%Z → finite t ∧ (100 <= FR t)%R.
Proof.
  intros Ht Hn. destruct (int_to_float_spec n t Ht) as [Hf Hr].
  split; [done|]. destruct FR_100 as [H100 V100].
  destruct (rounds_ge _ _ 100%float Hr H100) as [->|[_ Hle]].
  - rewrite V100. apply IZR_le. lia.
  - done.
  - lra.
Qed.

Lemma truediv_core (pa pb : positive) (sx : bool) :
  SFrounds ((if sx then -1 else 1) * (IZR (Zpos pa) / IZR (Zpos pb)))
    (let '(q, e, l) := SFdiv_core_binary prec emax (Zpos pa) 0 (Zpos pb) 0 in
     binary_round_aux prec emax sx q e l).
Proof.
  destruct (div_core_spec pa pb 0 0) as (q & e & l & -> & Hq & Hin & Hpre).
  assert (Hb0 : bpow 0 = 1%R) by reflexivity.
  rewrite Hb0, !Rmult_1_r in Hin.
  assert (Hpos : (0 <= IZR (Zpos pa) / IZR (Zpos pb))%R).
  { unfold Rdiv.
    assert (0 < IZR (Zpos pa))%R by (apply IZR_lt; lia).
    assert (0 < / IZR (Zpos pb))%R by (apply Rinv_0_lt_compat, IZR_lt; lia).
    nra. }
  eapply SFrounds_eq; [|apply (rounds_mag_signed sx); [exact Hpos|]].
  - destruct sx; lra.
  - by apply binary_round_aux_spec.
Qed.

(** [int_truediv a b], for [b] other than 0: a finite float, a faithful
    rounding of the quotient, or [OverflowError]. *)
Lemma int_truediv_spec (a b : Z) :
  b ≠ 0%Z →
  (int_truediv a b = inl OverflowError ∧
   ∀ g, finite g → (FR g < Rabs (IZR a / IZR b))%R) ∨
  ∃ f, int_truediv a b = inr f ∧ finite f ∧ rounds_to (IZR a / IZR b) f.
Proof.
  intros Hb. unfold int_truediv.
  destruct (Z.eqb_spec b 0) as [|_]; [done|].
  set (sf := match a with
             | 0%Z => S754_zero (b <? 0)%Z
             | _ => let '(q, e, l) := SFdiv_core_binary prec emax (Z.abs a) 0 (Z.abs b) 0 in
                    binary_round_aux prec emax (xorb (a <? 0)%Z (b <? 0)%Z) q e l
             end).
  assert (Hsf : SFrounds (IZR a / IZR b) sf).
  { assert (Hnz : ∀ p, IZR (Zpos p) ≠ 0%R) by (intros p; apply not_0_IZR; lia).
    destruct a as [|pa|pa].
    - apply (SFrounds_eq 0%R); [unfold Rdiv; by rewrite Rmult_0_l|].
      by apply (SFrounds_refl (S754_zero _)).
    - destruct b as [|pb|pb]; [done| |].
      + eapply SFrounds_eq; [|apply (truediv_core pa pb false)]. lra.
      + eapply SFrounds_eq; [|apply (truediv_core pa pb true)].
        rewrite (IZR_NEG pb). field. apply Hnz.
    - destruct b as [|pb|pb]; [done| |].
      + eapply SFrounds_eq; [|apply (truediv_core pa pb true)].
        rewrite (IZR_NEG pa). field. apply Hnz.
      + eapply SFrounds_eq; [|apply (truediv_core pa pb false)].
        rewrite (IZR_NEG pa), (IZR_NEG pb). field. apply Hnz. }
  pose proof (SFrounds_to_float _ _ Hsf) as Hfl. clearbody sf.
  destruct sf as [s|s| |s m e]; [right|left|right|right]; try done; eauto.
  split; [done|]. by eapply SFrounds_infinity.
Qed.

(** ** The heavy-output probability of a trial *)

Lemma sum_values_delete (m : gmap string Z) (k : string) (v : Z) :
  m !! k = Some v → sum_values m = (v + sum_values (delete k m))%Z.
Proof.
  intros Hk. unfold sum_values.
  apply (map_fold_delete_L (λ (_ : string) (v acc : Z), (v + acc)%Z)); [|done].
  intros. lia.
Qed.

Lemma sum_values_nonneg (m : gmap string Z) :
  map_Forall (λ _ v, (0 <= v)%Z) m → (0 <= sum_values m)%Z.
Proof.
  unfold sum_values. induction m as [|k v m Hk Hfold IH] using map_first_key_ind.
  - intros _. by rewrite map_fold_empty.
  - intros Hall. rewrite map_fold_insert_first_key by done.
    apply map_Forall_insert in Hall as [Hv Hall]; [|done].
    specialize (IH Hall). lia.
Qed.

(** The counts of distinct keys add up to at most the total. *)
Lemma heavy_counts_bounds (heavy : list string) : ∀ m : gmap string Z,
  NoDup heavy → map_Forall (λ _ v, (0 <= v)%Z) m →
  (0 <= sum_list (map (λ value, default 0%Z (m !! value)) heavy) <= sum_values m)%Z.
Proof.
  induction heavy as [|k heavy IH]; intros m Hnd Hall; cbn [map sum_list foldr].
  - split; [done|]. by apply sum_values_nonneg.
  - apply NoDup_cons in Hnd as [Hk Hnd].
    destruct (m !! k) as [v|] eqn:Hmk; cbn [default].
    + assert (Hv : (0 <= v)%Z) by (by apply (map_Forall_lookup_1 _ _ _ _ Hall Hmk)).
      rewrite (sum_values_delete m k v Hmk).
      assert (Heq : map (λ value, default 0%Z (m !! value)) heavy
                  = map (λ value, default 0%Z (delete k m !! value)) heavy).
      { apply map_ext_in. intros x Hx. rewrite lookup_delete_ne; [done|].
        intros ->. apply Hk. by apply list_elem_of_In. }
      rewrite Heq.
      specialize (IH (delete k m) Hnd (map_Forall_delete _ _ _ Hall)).
      unfold sum_list, Datatypes.id in *. lia.
    + specialize (IH m Hnd Hall). unfold sum_list in *. lia.
Qed.

(** C4. [_calc_exp_heavy_output_probability] raises [ZeroDivisionError]
    exactly when the counts add up to 0. Otherwise, for a set of heavy
    outputs (a list without repetition) and counts that are not negative, it
    returns the float that the quotient of the heavy counts by the total
    rounds to, and this float lies between 0 and 1. *)
Theorem heavy_output_probability_spec (trial : TrialRecord) (heavy_outputs : list string) :
  let circ_shots := sum_values (counts trial) in
  let heavy_output_counts :=
    sum_list (map (λ value, default 0%Z (counts trial !! value)) heavy_outputs) in
  (_calc_exp_heavy_output_probability trial heavy_outputs = inl ZeroDivisionError
   ↔ circ_shots = 0%Z)
  ∧ (NoDup heavy_outputs → map_Forall (λ _ c, (0 <= c)%Z) (counts trial) →
     circ_shots ≠ 0%Z →
     ∃ f, _calc_exp_heavy_output_probability trial heavy_outputs = inr f
        ∧ rounds_to (IZR heavy_output_counts / IZR circ_shots) f
        ∧ (0 <=? f)%float = true ∧ (f <=? 1)%float = true).
Proof.
  intros circ_shots heavy_output_counts.
  unfold _calc_exp_heavy_output_probability.
  fold circ_shots. fold heavy_output_counts. split.
  - split.
    + intros H. destruct (Z.eq_dec circ_shots 0%Z) as [|Hne]; [done|].
      destruct (int_truediv_spec heavy_output_counts circ_shots Hne)
        as [[E _]|(f & E & _)]; rewrite E in H; done.
    + intros ->. reflexivity.
  - intros Hnd Hall Hne.
    pose proof (heavy_counts_bounds heavy_outputs (counts trial) Hnd Hall) as Hb.
    fold circ_shots heavy_output_counts in Hb.
    assert (Hq : (0 <= IZR heavy_output_counts / IZR circ_shots <= 1)%R).
    { assert (0 < IZR circ_shots)%R by (apply IZR_lt; lia).
      assert (0 <= IZR heavy_output_counts)%R by (apply IZR_le; lia).
      assert (IZR heavy_output_counts <= IZR circ_shots)%R by (apply IZR_le; lia).
      assert (Hiv : (0 < / IZR circ_shots)%R) by (by apply Rinv_0_lt_compat).
      assert (IZR circ_shots * / IZR circ_shots = 1)%R by (apply Rinv_r; lra).
      unfold Rdiv. split; nra. }
    destruct FR_0 as [F0 V0], FR_1 as [F1 V1].
    destruct (int_truediv_spec heavy_output_counts circ_shots Hne)
      as [[_ Hover]|(f & E & Hf & Hr)].
    + specialize (Hover 1%float F1). rewrite V1, Rabs_pos_eq in Hover; lra.
    + exists f. split; [done|]. split; [done|].
      destruct (rounds_between _ f 0%float 1%float Hr F0 F1) as [_ [H0 H1]];
        [lra|lra|].
      split; by apply leb_finite.
Qed.

Lemma heavy_output_probability_spec_witness :
  (_calc_exp_heavy_output_probability trial_heavy ["11"] = inl ZeroDivisionError
   ↔ sum_values (counts trial_heavy) = 0%Z)
  ∧ ∃ f, _calc_exp_heavy_output_probability trial_heavy ["11"] = inr f
       ∧ rounds_to (IZR (sum_list (map (λ value, default 0%Z (counts trial_heavy !! value))
                                       ["11"]))
                    / IZR (sum_values (counts trial_heavy))) f
       ∧ (0 <=? f)%float = true ∧ (f <=? 1)%float = true.
Proof.
  destruct (heavy_output_probability_spec trial_heavy ["11"]) as [H1 H2].
  split; [exact H1|]. apply H2.
  - apply NoDup_cons. split; [apply not_elem_of_nil|apply NoDup_nil_2].
  - apply map_Forall_singleton. lia.
  - vm_compute. discriminate.
Defined.

(** ** Formatting an index in binary *)

Lemma binary_value_from_app (s1 s2 : string) (acc : N) :
  binary_value_from (s1 +:+ s2) acc = binary_value_from s2 (binary_value_from s1 acc).
Proof.
  revert acc. induction s1 as [|c s1 IH]; intros acc; cbn; [done|]. apply IH.
Qed.

Lemma binary_value_from_zeros (k : nat) (acc : N) :
  acc = 0%N → binary_value_from (zeros k) acc = 0%N.
Proof. intros ->. induction k as [|k IH]; cbn; [done|]. apply IH. Qed.

Lemma binary_value_pos_bits (p : positive) : binary_value (pos_bits p) = Npos p.
Proof.
  unfold binary_value. induction p as [p IH|p IH|]; cbn [pos_bits].
  - rewrite binary_value_from_app, IH. cbn. lia.
  - rewrite binary_value_from_app, IH. cbn. lia.
  - reflexivity.
Qed.

Lemma binary_value_format (depth b : nat) :
  binary_value (format_binary depth b) = N.of_nat b.
Proof.
  unfold format_binary, zfill, binary_value.
  rewrite binary_value_from_app, binary_value_from_zeros by done.
  destruct (N.of_nat b) as [|p]; [reflexivity|]. apply binary_value_pos_bits.
Qed.

Lemma format_binary_inj (depth b1 b2 : nat) :
  format_binary depth b1 = format_binary depth b2 → b1 = b2.
Proof.
  intros H. apply (f_equal binary_value) in H.
  rewrite !binary_value_format in H. lia.
Qed.

Lemma string_length_app (s1 s2 : string) :
  String.length (s1 +:+ s2) = String.length s1 + String.length s2.
Proof. induction s1 as [|c s1 IH]; simpl; [done|]. f_equal. exact IH. Qed.

Lemma length_zeros (k : nat) : String.length (zeros k) = k.
Proof. induction k as [|k IH]; cbn; [done|]. by rewrite IH. Qed.

Lemma length_pos_bits (p : positive) :
  String.length (pos_bits p) = Pos.size_nat p.
Proof.
  induction p as [p IH|p IH|]; cbn [pos_bits Pos.size_nat]; [| |done].
  - rewrite string_length_app, IH. cbn. lia.
  - rewrite string_length_app, IH. cbn. lia.
Qed.

Lemma size_nat_bound (p : positive) :
  ∀ depth, Pos.to_nat p < 2 ^ depth → (1 ≤ Pos.size_nat p ≤ depth)%nat.
Proof.
  induction p as [p IH|p IH|]; intros depth Hp; cbn [Pos.size_nat].
  - destruct depth as [|depth]; cbn [Nat.pow] in Hp; [lia|].
    specialize (IH depth ltac:(lia)). lia.
  - destruct depth as [|depth]; cbn [Nat.pow] in Hp; [lia|].
    specialize (IH depth ltac:(lia)). lia.
  - destruct depth as [|depth]; cbn [Nat.pow] in Hp; lia.
Qed.

(** The formatted index has [depth] digits (one digit when [depth] is 0). *)
Lemma format_binary_length (depth b : nat) :
  b < 2 ^ depth → String.length (format_binary depth b) = Nat.max depth 1.
Proof.
  intros Hb. unfold format_binary, zfill. rewrite string_length_app, length_zeros.
  destruct (N.of_nat b) as [|p] eqn:E; cbn [bin].
  - cbn. lia.
  - rewrite length_pos_bits.
    pose proof (size_nat_bound p depth ltac:(lia)). lia.
Qed.

(** ** The dict of ideal probabilities *)

Lemma dict_set_new {V} (k : string) (v : V) (d : list (string * V)) :
  k ∉ dict_keys d → dict_set k v d = d ++ [(k, v)].
Proof.
  induction d as [|[k' v'] d IH]; intros Hk; cbn [dict_set app]; [done|].
  unfold dict_keys in Hk. cbn [map fst] in Hk.
  apply not_elem_of_cons in Hk as [Hne Hk].
  destruct (String.eqb_spec k k') as [->|_]; [done|]. f_equal. by apply IH.
Qed.

Lemma build_dict_spec (depth : nat) (probs : list float) (bs : list nat) :
  ∀ d, (∀ b, b ∈ bs → b < length probs) → NoDup bs →
       (∀ b, b ∈ bs → format_binary depth b ∉ dict_keys d) →
       build_dict depth probs bs d =
         inr (d ++ map (λ b, (format_binary depth b, nth b probs nan)) bs).
Proof.
  induction bs as [|b bs IH]; intros d Hlt Hnd Hnew; cbn [build_dict map].
  - by rewrite app_nil_r.
  - apply NoDup_cons in Hnd as [Hb Hnd].
    assert (Hbl : b < length probs) by (apply Hlt; left).
    destruct (lookup_lt_is_Some_2 probs b Hbl) as [p Hp]. rewrite Hp.
    rewrite (nth_lookup_Some _ _ nan _ Hp).
    rewrite dict_set_new by (apply Hnew; left).
    rewrite IH.
    + by rewrite <- app_assoc.
    + intros b' Hb'. apply Hlt. by right.
    + done.
    + intros b' Hb'. unfold dict_keys. rewrite map_app. cbn [map fst].
      rewrite elem_of_app, list_elem_of_singleton. intros [Hin|Heq].
      * apply (Hnew b'); [by right|done].
      * apply format_binary_inj in Heq. by subst.
Qed.

Lemma dict_get_map (depth : nat) (g : nat → float) (bs : list nat) (b : nat) :
  b ∈ bs →
  dict_get (format_binary depth b) (map (λ b, (format_binary depth b, g b)) bs)
    = Some (g b).
Proof.
  induction bs as [|b0 bs IH]; intros Hb; [by apply elem_of_nil in Hb|].
  cbn [map dict_get].
  destruct (String.eqb_spec (format_binary depth b) (format_binary depth b0)) as [Heq|Hne].
  - apply format_binary_inj in Heq. by subst.
  - apply elem_of_cons in Hb as [->|Hb]; [done|]. by apply IH.
Qed.

Lemma filter_map_keys {A B} (f : A → B) (P : B → bool) (Q : A → bool) (l : list A) :
  (∀ a, a ∈ l → P (f a) = Q a) →
  List.filter P (map f l) = map f (List.filter Q l).
Proof.
  induction l as [|a l IH]; intros HPQ; cbn [map List.filter]; [done|].
  rewrite HPQ by left. rewrite IH by (intros; apply HPQ; by right).
  by destruct (Q a).
Qed.

Lemma calc_ideal_heavy_output_unfold (probs : list float) (depth : nat) :
  length probs = 2 ^ depth →
  _calc_ideal_heavy_output probs depth =
    inr (map (format_binary depth)
           (List.filter (λ b, (np_median probs <? nth b probs nan)%float)
                        (seq 0 (2 ^ depth)))).
Proof.
  intros Hlen. unfold _calc_ideal_heavy_output.
  rewrite (build_dict_spec depth probs (seq 0 (2 ^ depth)) []).
  - cbn [app]. f_equal. unfold dict_keys. rewrite map_map. cbn [fst].
    apply filter_map_keys. intros b Hb. unfold is_heavy.
    by rewrite (dict_get_map depth (λ b, nth b probs nan)).
  - intros b Hb. apply elem_of_seq in Hb. lia.
  - apply NoDup_seq.
  - intros b _. apply not_elem_of_nil.
Qed.

Lemma SFcompare_eq_sym (x y : spec_float) :
  SFcompare x y = Some Eq → SFcompare y x = Some Eq.
Proof.
  destruct x as [?|[]| |[] m1 e1], y as [?|[]| |[] m2 e2]; cbn; try done.
  - destruct (Z.compare_spec e1 e2) as [->| |]; try done.
    rewrite Z.compare_refl. intros [= H].
    assert (m1 = m2) as ->
      by (apply Pos.compare_eq; unfold Pos.compare;
          by destruct (Pos.compare_cont Eq m1 m2)).
    by rewrite Pos.compare_cont_refl.
  - destruct (Z.compare_spec e1 e2) as [->| |]; try done.
    rewrite Z.compare_refl. intros [= H].
    assert (m1 = m2) as ->
      by (apply Pos.compare_eq; unfold Pos.compare;
          by destruct (Pos.compare_cont Eq m1 m2)).
    by rewrite Pos.compare_cont_refl.
Qed.

Lemma eqb_not_ltb (a b : float) :
  (a =? b)%float = true → (b <? a)%float = false.
Proof.
  rewrite FloatAxioms.eqb_spec, FloatAxioms.ltb_spec. unfold SFeqb, SFltb.
  destruct (SFcompare (Prim2SF a) (Prim2SF b)) as [[]|] eqn:E; try done.
  intros _. by rewrite (SFcompare_eq_sym _ _ E).
Qed.

(** ** The median of a constant vector *)

Lemma unit_interval_finite (c : float) :
  (0 <=? c)%float = true → (c <=? 1)%float = true →
  finite c ∧ (0 <= FR c <= 1)%R.
Proof.
  intros H0 H1.
  destruct FR_0 as [F0 E0]. destruct FR_1 as [F1 E1].
  apply leb_true_cases in H0 as (_ & Hc0 & Hle0).
  apply leb_true_cases in H1 as (Hc1 & _ & Hle1).
  assert (Fc : finite c).
  { destruct Hc1 as [->|[Fc|[-> E]]]; [|done|].
    - destruct Hc0 as [E|[Fc|[E _]]].
      + apply (f_equal Prim2SF) in E. done.
      + by apply finite_not_special in Fc as (_ & _ & ?).
      + apply (f_equal Prim2SF) in E. done.
    - apply (f_equal Prim2SF) in E. done. }
  split; [done|]. specialize (Hle0 F0 Fc). specialize (Hle1 Fc F1).
  rewrite E0 in Hle0. rewrite E1 in Hle1. done.
Qed.

Lemma finite_is_nan (c : float) : finite c → is_nan c = false.
Proof.
  intros Fc. unfold is_nan.
  by rewrite (proj2 (eqb_finite c c Fc Fc) eq_refl).
Qed.

Lemma finite_leb_refl (c : float) : finite c → (c <=? c)%float = true.
Proof. intros Fc. apply (leb_finite c c Fc Fc). apply Rle_refl. Qed.

Lemma finite_ltb_irrefl (c : float) : finite c → (c <? c)%float = false.
Proof.
  intros Fc. apply not_true_is_false. intros H.
  apply (ltb_finite c c Fc Fc) in H. by apply Rlt_irrefl in H.
Qed.

Lemma half_of_double (c : float) :
  finite c → (0 <= FR c <= 1)%R →
  finite ((c + c) / 2)%float ∧ FR ((c + c) / 2)%float = FR c.
Proof.
  intros Fc Hc. destruct FR_2 as [F2 E2].
  assert (H1 : (1 < bpow 1023)%R).
  { change 1%R with (bpow 0). apply bpow_lt. lia. }
  destruct (double_representable c Fc) as (g & Fg & Eg).
  { rewrite Rabs_pos_eq by lra. lra. }
  pose proof (add_rounds c c Fc Fc) as Hs.
  replace (FR c + FR c)%R with (FR g) in Hs by lra.
  apply rounds_exact in Hs as [Fs Es]; [|done].
  pose proof (div_rounds (c + c)%float 2%float Fs F2) as Hm.
  rewrite E2 in Hm. specialize (Hm ltac:(lra)).
  replace (FR (c + c)%float / 2)%R with (FR c) in Hm by lra.
  by apply rounds_exact in Hm.
Qed.

Lemma existsb_is_nan_replicate (n : nat) (c : float) :
  finite c → existsb is_nan (replicate n c) = false.
Proof.
  intros Fc. induction n as [|n IH]; cbn [replicate existsb]; [done|].
  by rewrite finite_is_nan, IH.
Qed.

Lemma sort_floats_replicate (n : nat) (c : float) :
  finite c → sort_floats (replicate n c) = replicate n c.
Proof.
  intros Fc. unfold sort_floats.
  induction n as [|n IH]; cbn [replicate foldr]; [done|]. rewrite IH.
  destruct n as [|n]; cbn [replicate insert_sorted]; [done|].
  by rewrite finite_leb_refl.
Qed.

Lemma nth_replicate_lt (n i : nat) (c : float) :
  i < n → nth i (replicate n c) nan = c.
Proof. intros Hi. apply nth_lookup_Some. by apply lookup_replicate_2. Qed.

Lemma np_median_replicate (n : nat) (c : float) :
  finite c → 0 < n →
  np_median (replicate n c) = if Nat.even n then ((c + c) / 2)%float else c.
Proof.
  intros Fc Hn. unfold np_median.
  rewrite existsb_is_nan_replicate, sort_floats_replicate by done.
  rewrite length_replicate.
  destruct (Nat.eqb_spec n 0) as [|_]; [lia|].
  assert (n / 2 < n) by (apply Nat.div_lt; lia).
  rewrite !nth_replicate_lt by lia. done.
Qed.

Lemma np_median_replicate_not_below (n : nat) (c : float) :
  finite c → (0 <= FR c <= 1)%R → 0 < n →
  (np_median (replicate n c) <? c)%float = false.
Proof.
  intros Fc Hc Hn. rewrite np_median_replicate by done.
  destruct (Nat.even n).
  - destruct (half_of_double c Fc Hc) as [Fm Em].
    apply not_true_is_false. intros H.
    apply (ltb_finite _ c Fm Fc) in H. lra.
  - by apply finite_ltb_irrefl.
Qed.

Lemma filter_none {A} (P : A → bool) (l : list A) :
  (∀ a, a ∈ l → P a = false) → List.filter P l = [].
Proof.
  induction l as [|a l IH]; intros HP; cbn [List.filter]; [done|].
  rewrite HP by left. apply IH. intros; apply HP; by right.
Qed.

Lemma pow2_pos (depth : nat) : 0 < 2 ^ depth.
Proof. induction depth as [|d IH]; cbn; lia. Qed.

Lemma uniform_has_no_heavy_output (depth : nat) (c : float) :
  finite c → (0 <= FR c <= 1)%R →
  _calc_ideal_heavy_output (replicate (2 ^ depth) c) depth = inr [].
Proof.
  intros Fc Hc. pose proof (pow2_pos depth) as Hn.
  rewrite calc_ideal_heavy_output_unfold by apply length_replicate.
  rewrite filter_none; [done|]. intros b Hb. apply elem_of_seq in Hb.
  rewrite nth_replicate_lt by lia.
  by apply np_median_replicate_not_below.
Qed.

Lemma reciprocal_power_of_two (depth : nat) :
  ∃ c, int_truediv 1 (2 ^ Z.of_nat depth) = inr c
       ∧ finite c ∧ (0 <= FR c <= 1)%R.
Proof.
  assert (Hz : (1 <= 2 ^ Z.of_nat depth)%Z)
    by (pose proof (Z.pow_pos_nonneg 2 (Z.of_nat depth)); lia).
  assert (Hr : (1 <= IZR (2 ^ Z.of_nat depth))%R) by (by apply IZR_le).
  assert (HX : (0 <= 1 / IZR (2 ^ Z.of_nat depth) <= 1)%R).
  { unfold Rdiv. rewrite Rmult_1_l.
    assert (0 < / IZR (2 ^ Z.of_nat depth))%R by (apply Rinv_0_lt_compat; lra).
    split; [lra|]. rewrite <- Rinv_1. apply Rinv_le_contravar; lra. }
  destruct FR_0 as [F0 E0]. destruct FR_1 as [F1 E1].
  destruct (int_truediv_spec 1 (2 ^ Z.of_nat depth)) as [[_ Hov]|(f & Ef & Ff & Hf)];
    [lia| |].
  - specialize (Hov 1%float F1). rewrite E1, Rabs_pos_eq in Hov by lra. lra.
  - exists f. split; [done|].
    apply (rounds_between _ f 0%float 1%float) in Hf; [|done|done|lra|lra].
    destruct Hf as [Ff' Hf]. rewrite E0, E1 in Hf. done.
Qed.

(** C2. When the vector of ideal probabilities has one entry per
    [depth]-bit string, the heavy outputs are the zero-padded binary
    strings of width [depth], in increasing order, of exactly the indices
    whose probability is strictly greater than the median of the whole
    vector; an entry equal to the median is left out. When all entries are equal (to any
    probability, in particular to [1 / 2 ** depth]) the heavy set is
    empty. *)
Theorem calc_ideal_heavy_output_spec (probabilities_vector : list float) (depth : nat) :
  length probabilities_vector = 2 ^ depth →
  let median_probabilities := np_median probabilities_vector in
  (_calc_ideal_heavy_output probabilities_vector depth =
     inr (map (format_binary depth)
            (List.filter
               (λ b, (median_probabilities <? nth b probabilities_vector nan)%float)
               (seq 0 (2 ^ depth)))))
  ∧ (∀ b, b < 2 ^ depth →
       String.length (format_binary depth b) = Nat.max depth 1)
  ∧ (∀ b, b < 2 ^ depth →
       (nth b probabilities_vector nan =? median_probabilities)%float = true →
       ∀ heavy_outputs,
         _calc_ideal_heavy_output probabilities_vector depth = inr heavy_outputs →
         format_binary depth b ∉ heavy_outputs)
  ∧ (∀ c, (0 <=? c)%float = true → (c <=? 1)%float = true →
       probabilities_vector = replicate (2 ^ depth) c →
       _calc_ideal_heavy_output probabilities_vector depth = inr [])
  ∧ (∃ c, int_truediv 1 (2 ^ Z.of_nat depth) = inr c
          ∧ _calc_ideal_heavy_output (replicate (2 ^ depth) c) depth = inr []).
Proof.
  intros Hlen median_probabilities.
  pose proof (calc_ideal_heavy_output_unfold _ _ Hlen) as Hunf.
  split; [exact Hunf|]. split; [|split; [|split]].
  - intros b Hb. by apply format_binary_length.
  - intros b Hb Heq heavy_outputs Hrun. rewrite Hunf in Hrun.
    injection Hrun as <-. intros Hin.
    apply list_elem_of_fmap in Hin as (b' & Hfmt & Hb').
    apply format_binary_inj in Hfmt as <-.
    apply list_elem_of_In, filter_In in Hb' as [_ Hlt].
    fold median_probabilities in Hlt.
    by rewrite (eqb_not_ltb _ _ Heq) in Hlt.
  - intros c H0 H1 ->.
    destruct (unit_interval_finite c H0 H1) as [Fc Hc].
    by apply uniform_has_no_heavy_output.
  - destruct (reciprocal_power_of_two depth) as (c & Ec & Fc & Hc).
    exists c. split; [done|]. by apply uniform_has_no_heavy_output.
Qed.

Lemma calc_ideal_heavy_output_spec_witness :
  length example_probabilities = 2 ^ 2
  ∧ _calc_ideal_heavy_output example_probabilities 2 = inr ["11"].
Proof.
  split; [reflexivity|].
  rewrite (proj1 (calc_ideal_heavy_output_spec example_probabilities 2 eq_refl)).
  vm_compute. reflexivity.
Defined.

(** ** The verdict *)

Section Verdict.
Variable N : Numerics.

Lemma calc_z_value_cases (mean sigma : float) :
  _calc_z_value mean sigma =
    if (sigma =? 0)%float
    then inr (((mean - 2 / 3) / 1e-10)%float,
              ["Standard deviation sigma should not be zero."])
    else inr (((mean - 2 / 3) / sigma)%float, []).
Proof.
  unfold _calc_z_value, checked_div.
  destruct (sigma =? 0)%float eqn:E; cbn; [reflexivity|]. by rewrite E.
Qed.

(** [_calc_quantum_volume] unfolded: it returns whenever the trial count has
    a float, and the record is then the following one. *)
Lemma calc_quantum_volume_unfold (hop : list float) (d : nat) (n : Z) (t : float) :
  int_to_float n = inr t →
  let mean := np_mean N hop in
  let sigma_hop := pow_half N (mean * ((1 - mean) / t))%float in
  let success := ((2 / 3 + 2 * sigma_hop)%float <? mean)%float && (100 <=? n)%Z in
  ∃ z ws, _calc_z_value mean sigma_hop = inr (z, ws) ∧
    _calc_quantum_volume N hop d n =
      inr ({| quantum_volume := if success then (2 ^ Z.of_nat d)%Z else 1%Z;
              qv_success := success;
              confidence := _calc_confidence_level N z;
              heavy_output_probability := hop;
              mean_hop := mean;
              sigma := sigma_hop;
              depth := d;
              trials := n |},
           ws ++ (if (n <? 100)%Z
                  then ["Must use at least 100 trials to consider Quantum Volume as successful."]
                  else [])).
Proof.
  intros Ht mean sigma_hop success.
  unfold _calc_quantum_volume. rewrite Ht. fold mean. cbn [lift].
  unfold mbind, Run_bind, bind, ret. fold sigma_hop.
  rewrite calc_z_value_cases.
  destruct (sigma_hop =? 0)%float; eexists _, _; (split; [reflexivity|]);
    fold success; destruct (n <? 100)%Z, success; reflexivity.
Qed.

Lemma calc_quantum_volume_inv (hop : list float) (d : nat) (n : Z)
    (r : QuantumVolumeResult) (ws : list string) :
  _calc_quantum_volume N hop d n = inr (r, ws) →
  ∃ t, int_to_float n = inr t.
Proof.
  unfold _calc_quantum_volume. destruct (int_to_float n) as [e|t]; [done|eauto].
Qed.

(** C1. In every record the estimator returns, [qv success] holds exactly
    when [mean_hop > 2/3 + 2 * sigma] and [trials >= 100], where [sigma] is
    [(mean_hop * ((1 - mean_hop) / trials)) ** 0.5]; the quantum volume is
    [2^depth] on success and 1 otherwise; with 50 trials there is no success
    and the quantum volume is 1. *)
Theorem calc_quantum_volume_verdict (hop : list float) (d : nat) (n : Z)
    (r : QuantumVolumeResult) (ws : list string) :
  _calc_quantum_volume N hop d n = inr (r, ws) →
  let threshold := (2 / 3 + 2 * sigma r)%float in
  (qv_success r = true ↔ (threshold <? mean_hop r)%float = true ∧ (100 <= n)%Z)
  ∧ quantum_volume r = (if qv_success r then 2 ^ Z.of_nat d else 1)%Z
  ∧ (n = 50%Z → qv_success r = false ∧ quantum_volume r = 1%Z)
  ∧ mean_hop r = np_mean N hop
  ∧ ∃ t, int_to_float n = inr t ∧
         sigma r = pow_half N (mean_hop r * ((1 - mean_hop r) / t))%float.
Proof.
  intros Hrun. destruct (calc_quantum_volume_inv _ _ _ _ _ Hrun) as [t Ht].
  destruct (calc_quantum_volume_unfold hop d n t Ht) as (z & ws' & _ & Heq).
  rewrite Heq in Hrun. injection Hrun as <- _. cbn [sigma mean_hop qv_success quantum_volume].
  set (b1 := ((2 / 3 + 2 * pow_half N (np_mean N hop * ((1 - np_mean N hop) / t)))%float
              <? np_mean N hop)%float).
  split; [|split; [|split; [|split]]].
  - rewrite andb_true_iff, Z.leb_le. tauto.
  - reflexivity.
  - intros ->. change (100 <=? 50)%Z with false. by rewrite andb_false_r.
  - reflexivity.
  - eauto.
Qed.

End Verdict.

Lemma calc_quantum_volume_verdict_witness :
  ∃ r, (qv_success r = true ↔
          ((2 / 3 + 2 * sigma r)%float <? mean_hop r)%float = true ∧ (100 <= 50)%Z)
    ∧ quantum_volume r = (if qv_success r then 2 ^ Z.of_nat 2 else 1)%Z
    ∧ (50%Z = 50%Z → qv_success r = false ∧ quantum_volume r = 1%Z)
    ∧ mean_hop r = np_mean reference_numerics (replicate 50 0.8%float)
    ∧ ∃ t, int_to_float 50 = inr t ∧
           sigma r = pow_half reference_numerics (mean_hop r * ((1 - mean_hop r) / t))%float.
Proof.
  destruct (_calc_quantum_volume reference_numerics (replicate 50 0.8%float) 2 50)
    as [e|[r ws]] eqn:E; [vm_compute in E; discriminate E|].
  exists r.
  exact (calc_quantum_volume_verdict reference_numerics _ _ _ _ _ E).
Defined.

(** ** Which depth the result carries *)

Lemma heavy_output_probabilities_length (data : list TrialRecord) (hops : list float) :
  heavy_output_probabilities data = inr hops → length hops = length data.
Proof.
  revert hops. induction data as [|t data IH]; intros hops; cbn [heavy_output_probabilities].
  - by intros [= <-].
  - destruct (_calc_ideal_heavy_output _ _) as [e|heavy]; [done|].
    destruct (_calc_exp_heavy_output_probability _ _) as [e|hop]; [done|].
    destruct (heavy_output_probabilities data) as [e|hops']; [done|].
    intros [= <-]. cbn. f_equal. by apply IH.
Qed.

(** C10. In the record [_run_analysis] returns, the depth is the
    experiment's [num_qubits] and the quantum volume is [2^num_qubits] on
    success and 1 otherwise, whatever depth the trials' metadata record:
    that depth is used for the trial's heavy outputs only, so it enters
    through the list of heavy-output probabilities alone. Another container
    with the same [num_qubits] and the same heavy-output probabilities gets
    the same outcome; and on trials that hold one ideal probability per
    bit string of their depth, two containers that agree in everything but
    the depths in the metadata get the same outcome. *)
Theorem run_analysis_depth_from_experiment (N : Numerics) (HAS_MATPLOTLIB : bool)
    (ed : ExperimentData) (plot : bool) (ax : option string)
    (results : list QuantumVolumeResult) (figures : option (list Figure))
    (ws : list string) :
  _run_analysis N HAS_MATPLOTLIB ed plot ax = inr ((results, figures), ws) →
  ∃ r, results = [r]
    ∧ depth r = num_qubits ed
    ∧ quantum_volume r = (if qv_success r then 2 ^ Z.of_nat (num_qubits ed) else 1)%Z
    ∧ heavy_output_probabilities (data ed) = inr (heavy_output_probability r)
    ∧ (∀ ed', num_qubits ed' = num_qubits ed →
              heavy_output_probabilities (data ed') = heavy_output_probabilities (data ed) →
              _run_analysis N HAS_MATPLOTLIB ed' plot ax =
              _run_analysis N HAS_MATPLOTLIB ed plot ax)
    ∧ (∀ ed', same_but_metadata_depth ed ed' →
              Forall (λ t, length (ideal_probabilities t) = 2 ^ metadata_depth t)
                     (data ed) →
              Forall (λ t, length (ideal_probabilities t) = 2 ^ metadata_depth t)
                     (data ed') →
              _run_analysis N HAS_MATPLOTLIB ed' plot ax =
              _run_analysis N HAS_MATPLOTLIB ed plot ax).
Proof.
  unfold _run_analysis at 1. unfold mbind, Run_bind, bind.
  destruct (heavy_output_probabilities (data ed)) as [e|hops] eqn:Hhops; [done|].
  cbn [lift ret].
  destruct (_calc_quantum_volume N hops _ _) as [e|[r ws']] eqn:Hcalc; [done|].
  cbn [ret]. intros [= <- <- <-]. exists r.
  destruct (calc_quantum_volume_inv N _ _ _ _ _ Hcalc) as [t Ht].
  destruct (calc_quantum_volume_unfold N hops (num_qubits ed) _ t Ht)
    as (z & ws'' & _ & Heq).
  rewrite Heq in Hcalc. injection Hcalc as <- _.
  cbn [depth quantum_volume qv_success heavy_output_probability].
  split; [done|]. split; [done|]. split; [done|]. split; [done|].
  assert (Hsame : ∀ ed', num_qubits ed' = num_qubits ed →
            heavy_output_probabilities (data ed') = inr hops →
            _run_analysis N HAS_MATPLOTLIB ed' plot ax =
            _run_analysis N HAS_MATPLOTLIB ed plot ax).
  { intros ed' Hnq Hh. unfold _run_analysis. rewrite Hnq, Hh, Hhops.
    apply heavy_output_probabilities_length in Hhops as Hlen.
    apply heavy_output_probabilities_length in Hh as Hlen'.
    by rewrite <- Hlen, <- Hlen'. }
  split; [exact Hsame|].
  intros ed' [Hnq Hall] Hwf Hwf'. apply Hsame; [by symmetry|].
  rewrite <- Hhops. f_equal. symmetry.
  clear -Hall Hwf Hwf'.
  induction Hall as [|t1 t2 l1 l2 [Hc Hp] _ IH]; [done|].
  apply Forall_cons in Hwf as [H1 Hwf]. apply Forall_cons in Hwf' as [H2 Hwf'].
  rewrite (IH Hwf Hwf'). f_equal.
  destruct t1 as [c1 d1 p1], t2 as [c2 d2 p2]. cbn in *. subst.
  f_equal. apply (Nat.pow_inj_r 2); [lia|congruence].
Qed.

Lemma run_analysis_depth_from_experiment_witness :
  ∃ r, Forall (λ t, metadata_depth t = 2) (data example_experiment_three_qubits)
    ∧ depth r = 3
    ∧ qv_success r = true
    ∧ quantum_volume r = 8%Z
    ∧ heavy_output_probabilities (data example_experiment_three_qubits)
        = inr (heavy_output_probability r).
Proof.
  assert (E : ∃ r figures ws,
            _run_analysis reference_numerics false example_experiment_three_qubits
                          false None
              = inr (([r], figures), ws) ∧ qv_success r = true)
    by (vm_compute; eauto 6).
  destruct E as (r0 & figures & ws & E & Hs).
  destruct (run_analysis_depth_from_experiment _ _ _ _ _ _ _ _ E)
    as (r & [= <-] & Hd & Hq & Hh & _).
  exists r0. split.
  { unfold example_experiment_three_qubits. cbn [data].
    apply Forall_app. split; apply Forall_replicate; reflexivity. }
  split; [exact Hd|]. split; [exact Hs|]. split; [by rewrite Hq, Hs|exact Hh].
Defined.

(** ** The confidence level *)

Lemma FR_1448 : finite 1.4140625 ∧ FR 1.4140625 = (1448 / 1024)%R.
Proof. float_value. Qed.

Lemma FR_1449 : finite 1.4150390625 ∧ FR 1.4150390625 = (1449 / 1024)%R.
Proof. float_value. Qed.

Lemma FR_1447 : finite 1.4130859375 ∧ FR 1.4130859375 = (1447 / 1024)%R.
Proof. float_value. Qed.

Lemma FR_977 : finite 0.9541015625 ∧ FR 0.9541015625 = (977 / 1024)%R.
Proof. float_value. Qed.

Lemma FR_2001 : finite 0.97705078125 ∧ FR 0.97705078125 = (2001 / 2048)%R.
Proof. float_value. Qed.

Lemma epsilon_value :
  finite 1e-10 ∧ (0 < FR 1e-10 <= / 8)%R.
Proof.
  assert (F : finite 1e-10) by (vm_compute; reflexivity).
  assert (F8 : finite 0.125 ∧ FR 0.125 = (/ 8)%R) by float_value.
  destruct F8 as [F8 E8]. destruct FR_0 as [F0 E0].
  split; [done|]. split.
  - rewrite <- E0. apply (ltb_finite 0 1e-10 F0 F). by vm_compute.
  - rewrite <- E8. apply (leb_finite 1e-10 0.125 F F8). by vm_compute.
Qed.

Lemma two_thirds_value :
  finite (2 / 3) ∧ (21 / 32 <= FR (2 / 3) <= 43 / 64)%R.
Proof.
  assert (F : finite (2 / 3)) by (vm_compute; reflexivity).
  assert (Flo : finite 0.65625 ∧ FR 0.65625 = (21 / 32)%R) by float_value.
  assert (Fhi : finite 0.671875 ∧ FR 0.671875 = (43 / 64)%R) by float_value.
  destruct Flo as [Flo Elo]. destruct Fhi as [Fhi Ehi].
  split; [done|]. split.
  - rewrite <- Elo. apply (leb_finite 0.65625 (2 / 3) Flo F). by vm_compute.
  - rewrite <- Ehi. apply (leb_finite (2 / 3) 0.671875 F Fhi). by vm_compute.
Qed.

(** ** Success forces a large z value *)

(** A mean above 21/32 whose variance term [mean * ((1 - mean) / trials)]
    is a zero is within 1/32 of 1: the product does not underflow
    otherwise. *)
Lemma zero_product_mean_near_one (mean t : float) :
  finite mean → finite t → (100 <= FR t)%R → (21 / 32 <= FR mean)%R →
  (mean * ((1 - mean) / t) =? 0)%float = true →
  (31 / 32 <= FR mean)%R.
Proof.
  intros Fm Ft Ht Hm Hp.
  destruct (Rle_or_lt (31 / 32) (FR mean)) as [|Hlt]; [done|exfalso].
  destruct FR_1 as [F1 E1].
  assert (G32 : finite 0.03125 ∧ FR 0.03125 = (/ 32)%R) by float_value.
  destruct G32 as [F32 E32].
  destruct FR_pow2_m1029 as [F29 E29]. destruct FR_pow2_m1030 as [F30 E30].
  pose proof (finite_abs_lt t Ft) as Htmax. rewrite Rabs_pos_eq in Htmax by lra.
  pose proof (bpow_pos (-1029)) as P29. pose proof (bpow_pos (-1030)) as P30.
  assert (B29 : (bpow (-1029) * bpow 1024 = / 32)%R).
  { rewrite <- bpow_add. change (-1029 + 1024)%Z with (- (5))%Z.
    rewrite (bpow_neg 5) by lia. change (2 ^ 5)%Z with 32%Z. reflexivity. }
  assert (B30 : (bpow (-1029) = 2 * bpow (-1030))%R).
  { change (-1029)%Z with (1 + -1030)%Z. rewrite bpow_add, (bpow_IZR 1) by lia.
    change (2 ^ 1)%Z with 2%Z. reflexivity. }
  pose proof (sub_rounds 1 mean F1 Fm) as Hx. rewrite E1 in Hx.
  apply (rounds_between _ _ 0.03125%float 1%float) in Hx; [|done|done|lra|lra].
  destruct Hx as [Fx Hx]. rewrite E32, E1 in Hx.
  pose proof (div_rounds _ t Fx Ft ltac:(lra)) as Hy.
  assert (Hylo : (FR 0x1p-1029 <= FR (1 - mean)%float / FR t)%R).
  { rewrite E29. apply Rdiv_lower; [lra|]. nra. }
  assert (Hyhi : (FR (1 - mean)%float / FR t <= FR 1)%R).
  { rewrite E1. apply Rdiv_upper; lra. }
  apply (rounds_between _ _ _ _ Hy F29 F1 Hylo) in Hyhi as [Fy Hyb].
  rewrite E29, E1 in Hyb.
  pose proof (mul_rounds mean _ Fm Fy) as Hpr.
  apply (rounds_ge _ _ 0x1p-1030%float) in Hpr; [|done|rewrite E30; nra].
  destruct (eqb_zero_finite _ Hp) as [Fp Ep].
  destruct Hpr as [E|[_ Hge]].
  - rewrite E in Fp. by apply finite_not_special in Fp as (_ & ? & _).
  - rewrite E30, Ep in Hge. lra.
Qed.

Section Confidence.
Variable N : Numerics.
Hypothesis HN : NumericsSpec N.

Lemma pow_half_two_value :
  finite (pow_half N 2)
  ∧ (1448 / 1024 <= FR (pow_half N 2) <= 1449 / 1024)%R.
Proof.
  destruct (pow_half_two N HN) as [Hlo Hhi].
  destruct FR_1448 as [F1 E1]. destruct FR_1449 as [F2 E2].
  destruct (between_finite _ _ _ F1 F2 Hlo Hhi) as [F H].
  rewrite E1, E2 in H. done.
Qed.

(** Off NaN, the confidence level is a finite float in [[0, 1]]. *)
Lemma confidence_level_range (z_value : float) :
  z_value ≠ nan →
  finite (_calc_confidence_level N z_value)
  ∧ (0 <= FR (_calc_confidence_level N z_value) <= 1)%R.
Proof.
  intros Hz. unfold _calc_confidence_level.
  destruct pow_half_two_value as [Fs Hs].
  destruct FR_0 as [F0 E0]. destruct FR_1 as [F1 E1]. destruct FR_2 as [F2 E2].
  destruct FR_half as [Fh Eh]. destruct FR_neg_1 as [Fm Em].
  set (w := (z_value / pow_half N 2)%float).
  assert (Hw : w ≠ nan) by (apply div_not_nan; [done|done|lra]).
  destruct (erf_range N HN w (not_nan_is_nan w Hw)) as [Hlo Hhi].
  destruct (between_finite _ _ _ Fm F1 Hlo Hhi) as [Fe He].
  rewrite Em, E1 in He.
  pose proof (add_rounds 1 (math_erf N w) F1 Fe) as Ha. rewrite E1 in Ha.
  apply (rounds_between _ _ 0%float 2%float) in Ha; [|done|done|lra|lra].
  destruct Ha as [Fa Ha]. rewrite E0, E2 in Ha.
  pose proof (mul_rounds 0.5 _ Fh Fa) as Hc. rewrite Eh in Hc.
  apply (rounds_between _ _ 0%float 1%float) in Hc; [|done|done|lra|lra].
  destruct Hc as [Fc Hc]. rewrite E0, E1 in Hc. done.
Qed.

(** C3. When sigma is zero the estimator returns (no division fault): the
    z value is [(mean_hop - 2/3) / 1e-10], the warning that sigma should not
    be zero is emitted, and the confidence level is
    [0.5 * (1 + erf(z_value / 2 ** 0.5))], a finite float in [[0, 1]]. *)
Theorem calc_quantum_volume_zero_sigma (hop : list float) (d : nat) (n : Z) (t : float) :
  int_to_float n = inr t →
  let mean := np_mean N hop in
  let sigma_hop := pow_half N (mean * ((1 - mean) / t))%float in
  (sigma_hop =? 0)%float = true →
  let z_value := ((mean - 2 / 3) / 1e-10)%float in
  _calc_z_value mean sigma_hop
    = inr (z_value, ["Standard deviation sigma should not be zero."])
  ∧ ∃ r ws, _calc_quantum_volume N hop d n = inr (r, ws)
      ∧ "Standard deviation sigma should not be zero." ∈ ws
      ∧ mean_hop r = mean ∧ sigma r = sigma_hop
      ∧ confidence r = (0.5 * (1 + math_erf N (z_value / pow_half N 2)))%float
      ∧ finite (confidence r)
      ∧ (0 <=? confidence r)%float = true
      ∧ (confidence r <=? 1)%float = true.
Proof.
  intros Ht mean sigma_hop Hsig z_value.
  assert (Hzv : _calc_z_value mean sigma_hop
                = inr (z_value, ["Standard deviation sigma should not be zero."]))
    by (by rewrite calc_z_value_cases, Hsig).
  split; [exact Hzv|].
  destruct (calc_quantum_volume_unfold N hop d n t Ht) as (z & ws' & Hz & Heq).
  fold mean sigma_hop in Hz, Heq. rewrite Hzv in Hz. injection Hz as <- <-.
  eexists _, _. split; [exact Heq|]. cbn [mean_hop sigma confidence].
  split; [apply elem_of_app; left; apply list_elem_of_singleton; reflexivity|].
  split; [reflexivity|]. split; [reflexivity|]. split; [reflexivity|].
  assert (Fmean : finite mean).
  { apply (mul_zero_finite_l mean ((1 - mean) / t)%float).
    by apply (pow_half_zero N HN). }
  destruct two_thirds_value as [Fc _]. destruct epsilon_value as [Fe He].
  assert (Hz : z_value ≠ nan).
  { apply div_not_nan; [|done|lra].
    apply (rounds_not_nan (FR mean - FR (2 / 3))). by apply sub_rounds. }
  destruct (confidence_level_range z_value Hz) as [Fconf Hconf].
  destruct FR_0 as [F0 E0]. destruct FR_1 as [F1 E1].
  split; [done|]. split.
  - apply (leb_finite _ _ F0 Fconf). rewrite E0. lra.
  - apply (leb_finite _ _ Fconf F1). rewrite E1. lra.
Qed.

(** When the mean is above the threshold [2/3 + 2 * sigma] the z value is
    at least 2 (or infinite), whether sigma was replaced by 1e-10 or
    not. *)
Lemma success_z_value (mean t : float) :
  finite t → (100 <= FR t)%R →
  let sigma_hop := pow_half N (mean * ((1 - mean) / t))%float in
  ((2 / 3 + 2 * sigma_hop)%float <? mean)%float = true →
  let z_value := (if (sigma_hop =? 0)%float then (mean - 2 / 3) / 1e-10
                  else (mean - 2 / 3) / sigma_hop)%float in
  z_value = infinity ∨ (finite z_value ∧ (2 <= FR z_value)%R).
Proof.
  intros Ft Ht sigma_hop Hlt z_value.
  pose proof (pow_half_nonneg N HN (mean * ((1 - mean) / t))%float) as Hnn.
  pose proof (pow_half_zero N HN (mean * ((1 - mean) / t))%float) as Hz0.
  fold sigma_hop in Hnn, Hz0. clearbody sigma_hop.
  destruct two_thirds_value as [Fc Hc]. destruct epsilon_value as [Fe He].
  destruct FR_0 as [F0 E0]. destruct FR_2 as [F2 E2].
  destruct (ltb_true_cases _ _ Hlt) as (HT & Hmean & Hord).
  assert (Hs : finite sigma_hop ∧ (0 <= FR sigma_hop)%R).
  { destruct (float_cases sigma_hop) as [E|[E|[E|Fs]]].
    - exfalso. rewrite E, mul_nan_r, add_nan_r in HT. destruct HT as [HT|HT].
      + apply (f_equal Prim2SF) in HT. done.
      + by apply finite_not_special in HT as (? & _).
    - exfalso.
      rewrite E, (infinity_mul_pos 2 F2 ltac:(lra)), (add_infinity_r _ Fc) in HT.
      destruct HT as [HT|HT].
      + apply (f_equal Prim2SF) in HT. done.
      + by apply finite_not_special in HT as (_ & ? & _).
    - exfalso. rewrite E in Hnn. by vm_compute in Hnn.
    - split; [done|]. destruct (Rle_or_lt 0 (FR sigma_hop)) as [|Hneg]; [done|].
      exfalso. apply not_true_iff_false in Hnn. apply Hnn.
      apply (ltb_finite _ _ Fs F0). by rewrite E0. }
  destruct Hs as [Fs Hs0].
  assert (Hspos : (sigma_hop =? 0)%float = false → (0 < FR sigma_hop)%R).
  { intros Hne. destruct (Req_dec (FR sigma_hop) 0) as [E|]; [|lra].
    by rewrite (finite_zero_eqb _ Fs E) in Hne. }
  destruct Hmean as [Em|Fm].
  { left. subst z_value. rewrite Em, (sub_infinity_l _ Fc).
    destruct (sigma_hop =? 0)%float eqn:Hsz.
    - apply infinity_div_pos; [done|lra].
    - apply infinity_div_pos; [done|by apply Hspos]. }
  pose proof (mul_rounds 2 sigma_hop F2 Fs) as Hd. rewrite E2 in Hd.
  destruct (rounds_ge _ _ 0%float Hd F0 ltac:(rewrite E0; lra)) as [Ed|[Fd Hd0]].
  { exfalso. rewrite Ed, (add_infinity_r _ Fc) in HT. destruct HT as [HT|HT].
    - apply (f_equal Prim2SF) in HT. done.
    - by apply finite_not_special in HT as (_ & ? & _). }
  rewrite E0 in Hd0.
  pose proof (add_rounds (2 / 3) _ Fc Fd) as HTr.
  assert (FT : finite (2 / 3 + 2 * sigma_hop)%float).
  { destruct HT as [ET|]; [exfalso|done].
    destruct (rounds_ge _ _ 0%float HTr F0 ltac:(rewrite E0; lra)) as [E|[F _]].
    - rewrite ET in E. apply (f_equal Prim2SF) in E. done.
    - rewrite ET in F. by apply finite_not_special in F as (_ & _ & ?). }
  specialize (Hord FT Fm).
  assert (Hsum : (FR (2 / 3) + FR (2 * sigma_hop)%float < FR mean)%R).
  { destruct (Rlt_or_le (FR (2 / 3) + FR (2 * sigma_hop)%float) (FR mean))
      as [|Hge]; [done|exfalso].
    destruct HTr as [(_ & HTg)|[(E & _)|(E & _)]].
    - destruct (HTg mean Fm) as [HTg1 _]. specialize (HTg1 Hge). lra.
    - rewrite E in FT. by apply finite_not_special in FT as (_ & ? & _).
    - rewrite E in FT. by apply finite_not_special in FT as (_ & _ & ?). }
  pose proof (sub_rounds mean (2 / 3) Fm Fc) as Hu.
  subst z_value. destruct (sigma_hop =? 0)%float eqn:Hsz.
  - (* sigma is zero: the mean is close to 1 *)
    pose proof (zero_product_mean_near_one mean t Fm Ft Ht ltac:(lra) (Hz0 eq_refl))
      as Hnear.
    assert (G4 : finite 0.25 ∧ FR 0.25 = (/ 4)%R) by float_value.
    destruct G4 as [F4 E4].
    destruct (rounds_ge _ _ 0.25%float Hu F4 ltac:(rewrite E4; lra)) as [Eu|[Fu Hu4]].
    + left. rewrite Eu. apply infinity_div_pos; [done|lra].
    + rewrite E4 in Hu4. rewrite <- E2.
      apply (rounds_ge (FR (mean - 2 / 3)%float / FR 1e-10)); [|done|].
      * apply div_rounds; [done|done|lra].
      * rewrite E2. apply Rdiv_lower; lra.
  - (* sigma is positive *)
    specialize (Hspos eq_refl).
    destruct (Rlt_or_le (FR sigma_hop) (bpow 1023)) as [Hsmall|Hbig].
    + destruct (double_representable sigma_hop Fs) as (g & Fg & Eg).
      { rewrite Rabs_pos_eq by lra. done. }
      rewrite <- Eg in Hd. apply rounds_exact in Hd as [_ Ed]; [|done].
      rewrite Eg in Ed.
      destruct (rounds_ge _ _ (2 * sigma_hop)%float Hu Fd ltac:(lra)) as [Eu|[Fu Hud]].
      * left. rewrite Eu. by apply infinity_div_pos.
      * rewrite <- E2.
        apply (rounds_ge (FR (mean - 2 / 3)%float / FR sigma_hop)); [|done|].
        -- apply div_rounds; [done|done|lra].
        -- rewrite E2. apply Rdiv_lower; lra.
    + exfalso. pose proof (finite_abs_lt mean Fm) as Hmax.
      pose proof (Rle_abs (FR mean)) as Habs.
      assert (B : (bpow 1024 = 2 * bpow 1023)%R).
      { change 1024%Z with (1 + 1023)%Z. rewrite bpow_add, (bpow_IZR 1) by lia.
        change (2 ^ 1)%Z with 2%Z. reflexivity. }
      destruct (rounds_ge _ _ mean Hd Fm ltac:(lra)) as [Ed|[_ Hmd]].
      * rewrite Ed in Fd. by apply finite_not_special in Fd as (_ & ? & _).
      * lra.
Qed.

(** A z value of at least 2 gives a confidence level above 0.977. *)
Lemma confidence_above (z_value : float) :
  z_value = infinity ∨ (finite z_value ∧ (2 <= FR z_value)%R) →
  (0.977 <? _calc_confidence_level N z_value)%float = true.
Proof.
  intros Hz. unfold _calc_confidence_level.
  destruct pow_half_two_value as [Fs Hs].
  destruct FR_1 as [F1 E1]. destruct FR_2 as [F2 E2]. destruct FR_half as [Fh Eh].
  destruct FR_1447 as [F47 E47]. destruct FR_977 as [F77 E77].
  destruct FR_2001 as [F01 E01].
  set (w := (z_value / pow_half N 2)%float).
  assert (Hw : (1.4130859375 <=? w)%float = true).
  { destruct Hz as [Ez|[Fz Hz2]].
    - subst w. rewrite Ez, infinity_div_pos by (done || lra). by vm_compute.
    - pose proof (div_rounds z_value _ Fz Fs ltac:(lra)) as Hd.
      apply (rounds_ge _ _ 1.4130859375%float) in Hd; [|done|].
      + destruct Hd as [E|[Fw Hw]]; [fold w in E; rewrite E; by vm_compute|].
        by apply (leb_finite _ _ F47 Fw).
      + rewrite E47. apply Rdiv_lower; lra. }
  assert (Hwn : is_nan w = false).
  { apply not_nan_is_nan. intros E. rewrite E in Hw. by vm_compute in Hw. }
  pose proof (erf_lower N HN w Hw) as Hlo.
  destruct (erf_range N HN w Hwn) as [_ Hhi].
  destruct (between_finite _ _ _ F77 F1 Hlo Hhi) as [Fe He].
  rewrite E77, E1 in He.
  assert (G : finite 1.9541015625 ∧ FR 1.9541015625 = (2001 / 1024)%R) by float_value.
  destruct G as [Fg Eg].
  pose proof (add_rounds 1 (math_erf N w) F1 Fe) as Ha. rewrite E1 in Ha.
  apply (rounds_between _ _ 1.9541015625%float 2%float) in Ha;
    [|done|done|lra|lra].
  destruct Ha as [Fa Ha]. rewrite Eg, E2 in Ha.
  pose proof (mul_rounds 0.5 _ Fh Fa) as Hc. rewrite Eh in Hc.
  apply (rounds_between _ _ 0.97705078125%float 1%float) in Hc;
    [|done|done|lra|lra].
  destruct Hc as [Fc Hc]. rewrite E01 in Hc.
  assert (F977 : finite 0.977) by (vm_compute; reflexivity).
  apply (ltb_finite _ _ F977 Fc).
  assert (H : (FR 0.977 < FR 0.97705078125)%R)
    by (apply (ltb_finite _ _ F977 F01); by vm_compute).
  lra.
Qed.

(** C9. In every record the estimator returns with [qv success] set, the
    confidence level is strictly greater than 0.977. *)
Theorem success_implies_confidence (hop : list float) (d : nat) (n : Z)
    (r : QuantumVolumeResult) (ws : list string) :
  _calc_quantum_volume N hop d n = inr (r, ws) →
  qv_success r = true →
  (0.977 <? confidence r)%float = true.
Proof.
  intros Hrun Hsucc.
  destruct (calc_quantum_volume_inv N _ _ _ _ _ Hrun) as [t Ht].
  destruct (calc_quantum_volume_unfold N hop d n t Ht) as (z & ws' & Hz & Heq).
  rewrite Heq in Hrun. injection Hrun as <- _.
  cbn [qv_success confidence] in *.
  apply andb_true_iff in Hsucc as [Hlt Hn]. apply Z.leb_le in Hn.
  destruct (int_to_float_ge_100 n t Ht Hn) as [Ft H100].
  pose proof (success_z_value (np_mean N hop) t Ft H100 Hlt) as Hzv.
  rewrite calc_z_value_cases in Hz. cbn zeta in Hzv.
  apply confidence_above.
  destruct (pow_half N (np_mean N hop * ((1 - np_mean N hop) / t)) =? 0)%float;
    injection Hz as <- _; exact Hzv.
Qed.

End Confidence.

(** ** The reference numerics meet the hypotheses *)

Lemma pow_half_sqrt_zero (x : float) :
  (pow_half_sqrt x =? 0)%float = true → (x =? 0)%float = true.
Proof.
  unfold pow_half_sqrt. destruct (x =? 0)%float eqn:E0; [done|].
  destruct (x =? neg_infinity)%float; intros H.
  - by vm_compute in H.
  - apply sqrt_zero_only_at_zero in H. congruence.
Qed.

Lemma pow_half_sqrt_nonneg (x : float) : (pow_half_sqrt x <? 0)%float = false.
Proof.
  unfold pow_half_sqrt. destruct (x =? 0)%float; [by vm_compute|].
  destruct (x =? neg_infinity)%float; [by vm_compute|]. apply sqrt_not_negative.
Qed.

Lemma erf_steps_range (x : float) :
  is_nan x = false →
  (-1 <=? erf_steps x)%float = true ∧ (erf_steps x <=? 1)%float = true.
Proof.
  intros Hx. unfold erf_steps. rewrite Hx.
  destruct (x <? -1.4130859375)%float; [by vm_compute|].
  destruct (1.4130859375 <=? x)%float; by vm_compute.
Qed.

Lemma erf_steps_lower (x : float) :
  (1.4130859375 <=? x)%float = true →
  (0.9541015625 <=? erf_steps x)%float = true.
Proof.
  intros Hx. unfold erf_steps.
  destruct (x <? -1.4130859375)%float eqn:E1; [exfalso|by rewrite Hx].
  destruct FR_1447 as [Fc Ec].
  assert (G : finite (-1.4130859375) ∧ FR (-1.4130859375) = (- (1447 / 1024))%R)
    by float_value.
  destruct G as [Fn En].
  apply leb_true_cases in Hx as (_ & Hx & Hle).
  apply ltb_true_cases in E1 as (Hx' & _ & Hlt).
  assert (Fx : finite x).
  { destruct Hx' as [->|]; [|done].
    destruct Hx as [E|[F|[E _]]]; [| |].
    - apply (f_equal Prim2SF) in E. done.
    - done.
    - apply (f_equal Prim2SF) in E. done. }
  specialize (Hle Fc Fx). specialize (Hlt Fx Fn). lra.
Qed.

Lemma reference_numerics_spec : NumericsSpec reference_numerics.
Proof.
  split; cbn [pow_half math_erf reference_numerics].
  - apply pow_half_sqrt_zero.
  - apply pow_half_sqrt_nonneg.
  - by vm_compute.
  - apply erf_steps_range.
  - apply erf_steps_lower.
Qed.

Lemma calc_quantum_volume_zero_sigma_witness :
  ∃ r ws,
    _calc_quantum_volume reference_numerics [1; 1; 1; 1]%float 2 4 = inr (r, ws)
    ∧ "Standard deviation sigma should not be zero." ∈ ws
    ∧ (0 <=? confidence r)%float = true
    ∧ (confidence r <=? 1)%float = true.
Proof.
  destruct (calc_quantum_volume_zero_sigma reference_numerics reference_numerics_spec
              [1; 1; 1; 1]%float 2 4 4%float)
    as (_ & r & ws & Hrun & Hw & _ & _ & _ & _ & H0 & H1).
  - vm_compute. reflexivity.
  - vm_compute. reflexivity.
  - exists r, ws. auto.
Defined.

Lemma success_implies_confidence_witness :
  ∃ r ws,
    _calc_quantum_volume reference_numerics (replicate 100 1%float) 2 100
      = inr (r, ws)
    ∧ qv_success r = true
    ∧ (0.977 <? confidence r)%float = true.
Proof.
  assert (E : ∃ r ws,
            _calc_quantum_volume reference_numerics (replicate 100 1%float) 2 100
              = inr (r, ws) ∧ qv_success r = true)
    by (vm_compute; eauto).
  destruct E as (r & ws & E & Hs). exists r, ws. split; [done|]. split; [done|].
  exact (success_implies_confidence reference_numerics reference_numerics_spec
           _ _ _ _ _ E Hs).
Defined.

(** * Further properties of the quantum volume analysis *)

(** ** The ideal heavy outputs on any vector *)

Lemma build_dict_raises (depth : nat) (probs : list float) (bs : list nat) :
  ∀ d, (∃ b, b ∈ bs ∧ (length probs ≤ b)%nat) →
       build_dict depth probs bs d = inl IndexError.
Proof.
  induction bs as [|b bs IH]; intros d (b' & Hin & Hb').
  - by apply elem_of_nil in Hin.
  - cbn [build_dict]. destruct (probs !! b) as [p|] eqn:Hp; [|done].
    apply IH. apply elem_of_cons in Hin as [->|Hin]; [|eauto].
    apply lookup_lt_Some in Hp. lia.
Qed.

(** The result on a vector with at least [2^depth] entries: the indices
    are those below [2^depth], the median is that of the whole vector. *)
Lemma calc_ideal_heavy_output_prefix (probs : list float) (depth : nat) :
  (2 ^ depth ≤ length probs)%nat →
  _calc_ideal_heavy_output probs depth =
    inr (map (format_binary depth)
           (List.filter (λ b, (np_median probs <? nth b probs nan)%float)
                        (seq 0 (2 ^ depth)))).
Proof.
  intros Hlen. unfold _calc_ideal_heavy_output.
  rewrite (build_dict_spec depth probs (seq 0 (2 ^ depth)) []).
  - cbn [app]. f_equal. unfold dict_keys. rewrite map_map. cbn [fst].
    apply filter_map_keys. intros b Hb. unfold is_heavy.
    by rewrite (dict_get_map depth (λ b, nth b probs nan)).
  - intros b Hb. apply elem_of_seq in Hb. lia.
  - apply NoDup_seq.
  - intros b _. apply not_elem_of_nil.
Qed.

(** X4. [_calc_ideal_heavy_output] raises exactly when the vector has fewer
    than [2^depth] entries, and what it raises is [IndexError]; on a longer
    vector the entries past [2^depth] get no string and count for the
    median only. *)
Theorem calc_ideal_heavy_output_index_error (probabilities_vector : list float)
    (depth : nat) :
  (_calc_ideal_heavy_output probabilities_vector depth = inl IndexError
   ↔ length probabilities_vector < 2 ^ depth)
  ∧ (∀ e, _calc_ideal_heavy_output probabilities_vector depth = inl e →
          e = IndexError)
  ∧ ((2 ^ depth ≤ length probabilities_vector)%nat →
     _calc_ideal_heavy_output probabilities_vector depth =
       inr (map (format_binary depth)
              (List.filter
                 (λ b, (np_median probabilities_vector
                        <? nth b probabilities_vector nan)%float)
                 (seq 0 (2 ^ depth))))).
Proof.
  assert (Hshort : length probabilities_vector < 2 ^ depth →
                   _calc_ideal_heavy_output probabilities_vector depth
                   = inl IndexError).
  { intros Hlt. unfold _calc_ideal_heavy_output.
    rewrite build_dict_raises; [done|].
    exists (length probabilities_vector). split; [|done].
    apply elem_of_seq. lia. }
  split; [|split].
  - split; [|exact Hshort]. intros H.
    destruct (Nat.lt_ge_cases (length probabilities_vector) (2 ^ depth))
      as [|Hge]; [done|].
    by rewrite (calc_ideal_heavy_output_prefix _ _ Hge) in H.
  - intros e H.
    destruct (Nat.lt_ge_cases (length probabilities_vector) (2 ^ depth))
      as [Hlt|Hge].
    + rewrite (Hshort Hlt) in H. by injection H as <-.
    + by rewrite (calc_ideal_heavy_output_prefix _ _ Hge) in H.
  - apply calc_ideal_heavy_output_prefix.
Qed.

Lemma ltb_nan_l (x : float) : (nan <? x)%float = false.
Proof. rewrite FloatAxioms.ltb_spec, Prim2SF_nan. reflexivity. Qed.

(** X5. A vector that holds a NaN has no heavy output: its median is a NaN,
    and no probability compares greater than a NaN. *)
Theorem calc_ideal_heavy_output_nan (probabilities_vector : list float)
    (depth : nat) :
  (2 ^ depth ≤ length probabilities_vector)%nat →
  existsb is_nan probabilities_vector = true →
  _calc_ideal_heavy_output probabilities_vector depth = inr [].
Proof.
  intros Hlen Hnan. rewrite (calc_ideal_heavy_output_prefix _ _ Hlen).
  unfold np_median. rewrite Hnan.
  rewrite filter_none; [done|]. intros b _. apply ltb_nan_l.
Qed.

Lemma calc_ideal_heavy_output_nan_witness :
  _calc_ideal_heavy_output [0.5; nan]%float 1 = inr [].
Proof.
  apply calc_ideal_heavy_output_nan; [cbn; lia|reflexivity].
Defined.

Lemma NoDup_bool_filter {A} (f : A → bool) (l : list A) :
  NoDup l → NoDup (List.filter f l).
Proof.
  induction l as [|a l IH]; intros Hnd; cbn [List.filter]; [constructor|].
  apply NoDup_cons in Hnd as [Ha Hnd]. destruct (f a); [|by apply IH].
  apply NoDup_cons. split; [|by apply IH].
  intros Hin. apply Ha. apply list_elem_of_In, filter_In in Hin as [Hin _].
  by apply list_elem_of_In.
Qed.

(** X6. The heavy outputs are pairwise distinct strings, and a string is
    among them exactly when it is the formatted index [b < 2^depth] of a
    probability greater than the median; read back as a binary number
    ([int(x, 2)]) it is this index. *)
Theorem calc_ideal_heavy_output_distinct (probabilities_vector : list float)
    (depth : nat) (heavy_outputs : list string) :
  _calc_ideal_heavy_output probabilities_vector depth = inr heavy_outputs →
  NoDup heavy_outputs
  ∧ (∀ x, x ∈ heavy_outputs ↔
          ∃ b, b < 2 ^ depth ∧ x = format_binary depth b
               ∧ (np_median probabilities_vector
                  <? nth b probabilities_vector nan)%float = true)
  ∧ (∀ x, x ∈ heavy_outputs →
          x = format_binary depth (N.to_nat (binary_value x))
          ∧ N.to_nat (binary_value x) < 2 ^ depth).
Proof.
  intros Hrun.
  assert (Hlen : (2 ^ depth ≤ length probabilities_vector)%nat).
  { destruct (Nat.lt_ge_cases (length probabilities_vector) (2 ^ depth))
      as [Hlt|]; [|done].
    unfold _calc_ideal_heavy_output in Hrun.
    rewrite build_dict_raises in Hrun; [done|].
    exists (length probabilities_vector). split; [|done].
    apply elem_of_seq. lia. }
  rewrite (calc_ideal_heavy_output_prefix _ _ Hlen) in Hrun.
  injection Hrun as <-.
  set (heavy b := (np_median probabilities_vector
                   <? nth b probabilities_vector nan)%float).
  assert (Hmem : ∀ x, x ∈ map (format_binary depth)
                          (List.filter heavy (seq 0 (2 ^ depth))) ↔
                      ∃ b, b < 2 ^ depth ∧ x = format_binary depth b
                           ∧ heavy b = true).
  { intros x. rewrite list_elem_of_fmap. split.
    - intros (b & -> & Hb). apply list_elem_of_In, filter_In in Hb as [Hb Hh].
      apply list_elem_of_In, elem_of_seq in Hb. exists b. split; [lia|done].
    - intros (b & Hb & -> & Hh). exists b. split; [done|].
      apply list_elem_of_In, filter_In. split; [|done].
      apply list_elem_of_In, elem_of_seq. lia. }
  split; [|split].
  - apply NoDup_fmap_2_strong.
    + intros b1 b2 _ _. apply format_binary_inj.
    + apply NoDup_bool_filter, NoDup_seq.
  - exact Hmem.
  - intros x Hx. apply Hmem in Hx as (b & Hb & -> & _).
    rewrite binary_value_format, Nat2N.id. done.
Qed.

Lemma calc_ideal_heavy_output_distinct_witness :
  NoDup ["11"] ∧ N.to_nat (binary_value "11") < 2 ^ 2.
Proof.
  destruct (calc_ideal_heavy_output_distinct example_probabilities 2 ["11"])
    as (Hnd & _ & Hback).
  - vm_compute. reflexivity.
  - split; [exact Hnd|]. apply (Hback "11"). apply list_elem_of_singleton. reflexivity.
Defined.

(** ** Sorting, and how many outputs can be heavy *)

Lemma insert_sorted_perm (x : float) (l : list float) :
  insert_sorted x l ≡ₚ x :: l.
Proof.
  induction l as [|y l IH]; cbn [insert_sorted]; [done|].
  destruct (x <=? y)%float; [done|]. rewrite IH. apply perm_swap.
Qed.

Lemma sort_floats_perm (l : list float) : sort_floats l ≡ₚ l.
Proof.
  unfold sort_floats. induction l as [|x l IH]; cbn [foldr]; [done|].
  by rewrite insert_sorted_perm, IH.
Qed.

Lemma filter_length_perm {A} (f : A → bool) (l l' : list A) :
  l ≡ₚ l' → length (List.filter f l) = length (List.filter f l').
Proof.
  induction 1 as [|x l l' _ IH|x y l|l l' l'' _ IH1 _ IH2]; cbn [List.filter].
  - done.
  - destruct (f x); cbn [length]; by rewrite IH.
  - by destruct (f x), (f y).
  - by rewrite IH1.
Qed.

Lemma filter_length_le {A} (f : A → bool) (l : list A) :
  (length (List.filter f l) ≤ length l)%nat.
Proof.
  induction l as [|x l IH]; cbn [List.filter length]; [done|].
  destruct (f x); cbn [length]; lia.
Qed.

Lemma insert_sorted_sorted (x : float) (l : list float) :
  finite x → Forall finite l →
  StronglySorted (λ a b, (FR a <= FR b)%R) l →
  StronglySorted (λ a b, (FR a <= FR b)%R) (insert_sorted x l).
Proof.
  intros Fx. induction l as [|y l IH]; intros Fl Hs; cbn [insert_sorted].
  - repeat constructor.
  - apply Forall_cons in Fl as [Fy Fl].
    apply StronglySorted_inv in Hs as [Hs Hy].
    destruct (x <=? y)%float eqn:E.
    + apply (leb_finite x y Fx Fy) in E.
      constructor; [by constructor|]. constructor; [done|].
      eapply Forall_impl; [exact Hy|]. cbn. intros z Hz. lra.
    + constructor; [by apply IH|].
      rewrite insert_sorted_perm. constructor; [|done].
      destruct (Rle_or_lt (FR x) (FR y)) as [Hle|Hlt]; [|lra].
      apply (leb_finite x y Fx Fy) in Hle. congruence.
Qed.

Lemma sort_floats_sorted (l : list float) :
  Forall finite l → StronglySorted (λ a b, (FR a <= FR b)%R) (sort_floats l).
Proof.
  unfold sort_floats. induction l as [|x l IH]; intros Fl; cbn [foldr].
  - constructor.
  - apply Forall_cons in Fl as [Fx Fl].
    apply insert_sorted_sorted; [done| |by apply IH].
    fold (sort_floats l). by rewrite sort_floats_perm.
Qed.

(** In a sorted list the entries up to position [k] are at most the entry
    at [k]. *)
Lemma sorted_take_le (s : list float) : ∀ k a,
  StronglySorted (λ a b, (FR a <= FR b)%R) s → s !! k = Some a →
  Forall (λ x, (FR x <= FR a)%R) (take (S k) s).
Proof.
  induction s as [|y s IH]; intros k a Hs Hk; [done|].
  apply StronglySorted_inv in Hs as [Hs Hy].
  destruct k as [|k]; cbn [take].
  - injection Hk as ->. rewrite take_0. constructor; [lra|constructor].
  - cbn in Hk. constructor; [|by apply IH].
    rewrite Forall_forall in Hy. apply Hy. by eapply list_elem_of_lookup_2.
Qed.

(** When nothing up to position [k] passes the test, at most the entries
    after [k] do. *)
Lemma filter_length_after (f : float → bool) (s : list float) (k : nat) :
  Forall (λ x, f x = false) (take (S k) s) →
  (length (List.filter f s) ≤ length s - S k)%nat.
Proof.
  intros Hno. rewrite <- (take_drop (S k) s) at 1.
  rewrite List.filter_app, length_app.
  rewrite (filter_none f (take (S k) s)).
  - cbn [length]. pose proof (filter_length_le f (drop (S k) s)) as H.
    rewrite length_drop in H. lia.
  - intros a Ha. rewrite Forall_forall in Hno. by apply Hno.
Qed.

Lemma map_nth_seq_from (d : float) (v : list float) : ∀ pre,
  map (λ b, nth b (pre ++ v) d) (seq (length pre) (length v)) = v.
Proof.
  induction v as [|x v IH]; intros pre; cbn [length seq map]; [done|].
  f_equal.
  - rewrite app_nth2 by lia. by rewrite Nat.sub_diag.
  - specialize (IH (pre ++ [x])). rewrite length_app in IH. cbn [length] in IH.
    rewrite <- app_assoc in IH. cbn [app] in IH.
    by rewrite Nat.add_1_r in IH.
Qed.

Lemma filter_indices_length (f : float → bool) (v : list float) :
  length (List.filter (λ b, f (nth b v nan)) (seq 0 (length v)))
  = length (List.filter f v).
Proof.
  pose proof (map_nth_seq_from nan v []) as E. cbn [app length] in E.
  transitivity (length (List.filter f (map (λ b, nth b v nan) (seq 0 (length v)))));
    [|by rewrite E].
  rewrite (filter_map_keys (λ b, nth b v nan) f (λ b, f (nth b v nan)))
    by done.
  by rewrite length_map.
Qed.

(** The mean of two probabilities, as [np.median] takes it, is not below
    the smaller one. *)
Lemma mean_of_two_ge (a b : float) :
  finite a → finite b → (0 <= FR a)%R → (FR a <= FR b)%R → (FR b <= 1)%R →
  finite ((a + b) / 2)%float ∧ (FR a <= FR ((a + b) / 2)%float)%R.
Proof.
  intros Fa Fb Ha Hab Hb. destruct FR_2 as [F2 E2]. destruct FR_1 as [F1 E1].
  assert (H1 : (1 < bpow 1023)%R).
  { change 1%R with (bpow 0). apply bpow_lt. lia. }
  destruct (double_representable a Fa) as (g & Fg & Eg).
  { rewrite Rabs_pos_eq by lra. lra. }
  pose proof (add_rounds a b Fa Fb) as Hs.
  apply (rounds_between _ _ g 2%float) in Hs; [|done|done|lra|lra].
  destruct Hs as [Fs Hs]. rewrite Eg, E2 in Hs.
  pose proof (div_rounds (a + b)%float 2%float Fs F2) as Hm.
  rewrite E2 in Hm. specialize (Hm ltac:(lra)).
  apply (rounds_between _ _ a 1%float) in Hm; [|done|done|lra|lra].
  destruct Hm as [Fm Hm]. split; [done|lra].
Qed.

(** X7. On a vector of [2^depth] probabilities (floats between 0 and 1) at
    most half of the [2^depth] strings are heavy: twice their number is at
    most [2^depth]. *)
Theorem heavy_outputs_at_most_half (probabilities_vector : list float)
    (depth : nat) :
  length probabilities_vector = 2 ^ depth →
  Forall (λ p, (0 <=? p)%float = true ∧ (p <=? 1)%float = true)
         probabilities_vector →
  ∃ heavy_outputs,
    _calc_ideal_heavy_output probabilities_vector depth = inr heavy_outputs
    ∧ (2 * length heavy_outputs ≤ 2 ^ depth)%nat.
Proof.
  intros Hlen Hunit.
  rewrite (calc_ideal_heavy_output_prefix probabilities_vector depth ltac:(lia)).
  eexists. split; [reflexivity|]. rewrite length_map, <- Hlen.
  rewrite (filter_indices_length
             (λ p, (np_median probabilities_vector <? p)%float)).
  pose proof (pow2_pos depth) as Hpos. rewrite <- Hlen in Hpos.
  set (v := probabilities_vector) in *. set (n := length v) in *.
  assert (Hv : Forall (λ p, finite p ∧ (0 <= FR p <= 1)%R) v).
  { eapply Forall_impl; [exact Hunit|]. cbn. intros p [H0 H1].
    by apply unit_interval_finite. }
  assert (Fv : Forall finite v) by (eapply Forall_impl; [exact Hv|]; by intros p [? _]).
  set (s := sort_floats v).
  assert (Hperm : s ≡ₚ v) by apply sort_floats_perm.
  assert (Hs : Forall (λ p, finite p ∧ (0 <= FR p <= 1)%R) s) by (by rewrite Hperm).
  assert (Hsorted : StronglySorted (λ a b, (FR a <= FR b)%R) s)
    by (by apply sort_floats_sorted).
  assert (Hsn : length s = n) by (by rewrite Hperm).
  rewrite <- (filter_length_perm _ _ _ Hperm).
  assert (Hnan : existsb is_nan v = false).
  { apply not_true_is_false. intros H. apply existsb_exists in H as (x & Hx & Hn).
    rewrite Forall_forall in Fv. apply list_elem_of_In in Hx.
    rewrite (finite_is_nan x (Fv x Hx)) in Hn. done. }
  unfold np_median. rewrite Hnan. fold s. rewrite Hsn.
  destruct (Nat.eqb_spec n 0) as [|_]; [lia|].
  pose proof (Nat.div_mod_eq n 2) as Hdm.
  pose proof (Nat.mod_upper_bound n 2 ltac:(lia)) as Hmod.
  rewrite Forall_forall in Hs.
  destruct (Nat.even n) eqn:Hev.
  - apply Nat.even_spec in Hev as [k' Hk'].
    set (k := n / 2) in *. assert (Hk : n = 2 * k) by lia.
    assert (Hk1 : (1 ≤ k)%nat) by lia.
    destruct (lookup_lt_is_Some_2 s (k - 1) ltac:(lia)) as [a Ha].
    destruct (lookup_lt_is_Some_2 s k ltac:(lia)) as [b Hb].
    rewrite (nth_lookup_Some _ _ nan _ Ha), (nth_lookup_Some _ _ nan _ Hb).
    destruct (Hs a (list_elem_of_lookup_2 _ _ _ Ha)) as [Fa Ha01].
    destruct (Hs b (list_elem_of_lookup_2 _ _ _ Hb)) as [Fb Hb01].
    pose proof (sorted_take_le s k b Hsorted Hb) as Hleb.
    assert (Hab : (FR a <= FR b)%R).
    { rewrite Forall_forall in Hleb. apply Hleb.
      apply (list_elem_of_lookup_2 _ (k - 1)). rewrite lookup_take_lt by lia. done. }
    destruct (mean_of_two_ge a b Fa Fb ltac:(lra) Hab ltac:(lra)) as [Fm Hm].
    pose proof (sorted_take_le s (k - 1) a Hsorted Ha) as Hlea.
    pose proof (filter_length_after (λ p, ((a + b) / 2 <? p)%float) s (k - 1)) as Hcount.
    rewrite Hsn in Hcount.
    assert (length (List.filter (λ p, ((a + b) / 2 <? p)%float) s) ≤ n - S (k - 1))%nat.
    { apply Hcount. rewrite Forall_forall in Hlea. apply Forall_forall.
      intros x Hx. specialize (Hlea x Hx).
      assert (Hxs : x ∈ s)
        by (apply elem_of_take in Hx as (j & Hj & _); by eapply list_elem_of_lookup_2).
      destruct (Hs x Hxs) as [Fx _].
      apply not_true_is_false. intros Hlt.
      apply (ltb_finite _ _ Fm Fx) in Hlt. lra. }
    lia.
  - assert (Hodd : Nat.odd n = true) by (by rewrite <- Nat.negb_even, Hev).
    apply Nat.odd_spec in Hodd as [k' Hk'].
    set (k := n / 2) in *. assert (Hk : n = 2 * k + 1) by lia.
    destruct (lookup_lt_is_Some_2 s k ltac:(lia)) as [a Ha].
    rewrite (nth_lookup_Some _ _ nan _ Ha).
    destruct (Hs a (list_elem_of_lookup_2 _ _ _ Ha)) as [Fa Ha01].
    pose proof (sorted_take_le s k a Hsorted Ha) as Hlea.
    pose proof (filter_length_after (λ p, (a <? p)%float) s k) as Hcount.
    rewrite Hsn in Hcount.
    assert (length (List.filter (λ p, (a <? p)%float) s) ≤ n - S k)%nat.
    { apply Hcount. rewrite Forall_forall in Hlea. apply Forall_forall.
      intros x Hx. specialize (Hlea x Hx).
      assert (Hxs : x ∈ s)
        by (apply elem_of_take in Hx as (j & Hj & _); by eapply list_elem_of_lookup_2).
      destruct (Hs x Hxs) as [Fx _].
      apply not_true_is_false. intros Hlt.
      apply (ltb_finite _ _ Fa Fx) in Hlt. lra. }
    lia.
Qed.

Lemma heavy_outputs_at_most_half_witness :
  ∃ heavy_outputs,
    _calc_ideal_heavy_output example_probabilities 2 = inr heavy_outputs
    ∧ (2 * length heavy_outputs ≤ 2 ^ 2)%nat.
Proof.
  apply heavy_outputs_at_most_half; [reflexivity|].
  unfold example_probabilities. repeat constructor.
Defined.

(** ** The heavy-output probability: which strings count *)

Lemma sum_list_app (l1 l2 : list Z) :
  sum_list (l1 ++ l2) = (sum_list l1 + sum_list l2)%Z.
Proof.
  unfold sum_list. induction l1 as [|x l1 IH]; cbn [app foldr]; [done|].
  rewrite IH. lia.
Qed.

Lemma sum_list_perm (l1 l2 : list Z) : l1 ≡ₚ l2 → sum_list l1 = sum_list l2.
Proof.
  unfold sum_list.
  induction 1 as [|x l l' _ IH|x y l|l l' l'' _ IH1 _ IH2]; cbn [foldr];
    [done|by rewrite IH|lia|congruence].
Qed.

(** The strings that the counts do not hold add nothing to the sum. *)
Lemma heavy_counts_measured (m : gmap string Z) (l : list string) :
  sum_list (map (λ value, default 0%Z (m !! value)) l)
  = sum_list (map (λ value, default 0%Z (m !! value))
                (List.filter (λ x, match m !! x with Some _ => true | None => false end) l)).
Proof.
  induction l as [|x l IH]; cbn [map List.filter]; [done|].
  destruct (m !! x) as [v|] eqn:E; cbn [map default].
  - rewrite E. cbn [default]. unfold sum_list in *. cbn [foldr]. by rewrite IH.
  - unfold sum_list in *. cbn [foldr]. rewrite IH. lia.
Qed.

(** X8. The heavy-output probability depends on the heavy outputs only
    through those that were measured (the keys of [counts]), and not on
    their order: [counts.get(value, 0)] gives 0 for a string that was never
    measured. *)
Theorem heavy_output_probability_measured_only (trial : TrialRecord)
    (heavy_outputs heavy_outputs' : list string) :
  let measured x :=
    match counts trial !! x with Some _ => true | None => false end in
  List.filter measured heavy_outputs ≡ₚ List.filter measured heavy_outputs' →
  _calc_exp_heavy_output_probability trial heavy_outputs
  = _calc_exp_heavy_output_probability trial heavy_outputs'.
Proof.
  intros measured Hperm. unfold _calc_exp_heavy_output_probability. f_equal.
  rewrite (heavy_counts_measured _ heavy_outputs).
  rewrite (heavy_counts_measured _ heavy_outputs').
  apply sum_list_perm. fold measured. by rewrite Hperm.
Qed.

Lemma heavy_output_probability_measured_only_witness :
  _calc_exp_heavy_output_probability trial_heavy ["11"; "00"]
  = _calc_exp_heavy_output_probability trial_heavy ["01"; "11"].
Proof.
  apply heavy_output_probability_measured_only. vm_compute. reflexivity.
Defined.

(** The counts of a list of distinct strings that holds every measured
    string add up to the total. *)
Lemma heavy_counts_all (heavy : list string) : ∀ m : gmap string Z,
  NoDup heavy → (∀ k, is_Some (m !! k) → k ∈ heavy) →
  sum_list (map (λ value, default 0%Z (m !! value)) heavy) = sum_values m.
Proof.
  induction heavy as [|k heavy IH]; intros m Hnd Hall; cbn [map].
  - assert (m = ∅) as ->.
    { apply map_empty. intros i. destruct (m !! i) as [v|] eqn:E; [|done].
      exfalso. eapply not_elem_of_nil. apply (Hall i). by rewrite E. }
    unfold sum_values. by rewrite map_fold_empty.
  - apply NoDup_cons in Hnd as [Hk Hnd].
    unfold sum_list. cbn [foldr]. fold (sum_list (map (λ value, default 0%Z (m !! value)) heavy)).
    destruct (m !! k) as [v|] eqn:Hmk; cbn [default].
    + rewrite (sum_values_delete m k v Hmk). f_equal.
      rewrite <- (IH (delete k m) Hnd).
      * f_equal. apply map_ext_in. intros x Hx. rewrite lookup_delete_ne; [done|].
        intros ->. apply Hk. by apply list_elem_of_In.
      * intros i [w Hi]. apply lookup_delete_Some in Hi as [Hne Hi].
        specialize (Hall i (mk_is_Some _ _ Hi)).
        apply elem_of_cons in Hall as [->|]; done.
    + rewrite IH; [lia|done|]. intros i Hi.
      specialize (Hall i Hi). apply elem_of_cons in Hall as [->|]; [|done].
      rewrite Hmk in Hi. by destruct Hi.
Qed.

Lemma int_truediv_self (n : Z) :
  n ≠ 0%Z → ∃ f, int_truediv n n = inr f ∧ (f =? 1)%float = true.
Proof.
  intros Hn. destruct FR_1 as [F1 E1].
  assert (Hq : (IZR n / IZR n = 1)%R).
  { apply Rinv_r. intros H. by apply eq_IZR in H. }
  destruct (int_truediv_spec n n Hn) as [[_ Hover]|(f & E & Ff & Hr)].
  - specialize (Hover 1%float F1). rewrite Hq, E1, Rabs_R1 in Hover. lra.
  - exists f. split; [done|]. rewrite Hq, <- E1 in Hr.
    apply rounds_exact in Hr as [_ Ef]; [|done]. by apply (eqb_finite f 1 Ff F1).
Qed.

Lemma int_truediv_zero (n : Z) :
  n ≠ 0%Z → ∃ f, int_truediv 0 n = inr f ∧ (f =? 0)%float = true.
Proof.
  intros Hn. unfold int_truediv. destruct (Z.eqb_spec n 0) as [|_]; [done|].
  eexists. split; [reflexivity|]. by destruct (n <? 0)%Z.
Qed.

(** X9. The two ends of the range. With a shot count that is not 0: when no
    heavy output was measured the heavy-output probability is 0.0, and when
    the heavy outputs (a list without repetition) hold every measured
    string it is exactly 1.0. *)
Theorem heavy_output_probability_endpoints (trial : TrialRecord)
    (heavy_outputs : list string) :
  sum_values (counts trial) ≠ 0%Z →
  ((∀ x, x ∈ heavy_outputs → counts trial !! x = None) →
   ∃ f, _calc_exp_heavy_output_probability trial heavy_outputs = inr f
        ∧ (f =? 0)%float = true)
  ∧ (NoDup heavy_outputs →
     (∀ k, is_Some (counts trial !! k) → k ∈ heavy_outputs) →
     ∃ f, _calc_exp_heavy_output_probability trial heavy_outputs = inr f
          ∧ (f =? 1)%float = true).
Proof.
  intros Hne. unfold _calc_exp_heavy_output_probability. split.
  - intros Hnone.
    assert (E : sum_list (map (λ value, default 0%Z (counts trial !! value))
                            heavy_outputs) = 0%Z).
    { rewrite heavy_counts_measured. rewrite filter_none; [done|].
      intros x Hx. by rewrite (Hnone x Hx). }
    rewrite E. by apply int_truediv_zero.
  - intros Hnd Hall. rewrite (heavy_counts_all _ _ Hnd Hall).
    by apply int_truediv_self.
Qed.

Lemma heavy_output_probability_endpoints_witness :
  (∃ f, _calc_exp_heavy_output_probability trial_heavy ["00"; "01"] = inr f
        ∧ (f =? 0)%float = true)
  ∧ (∃ f, _calc_exp_heavy_output_probability trial_heavy ["11"; "10"] = inr f
          ∧ (f =? 1)%float = true).
Proof.
  split.
  - apply (heavy_output_probability_endpoints trial_heavy ["00"; "01"]).
    + by vm_compute.
    + intros x Hx.
      apply elem_of_cons in Hx as [->|Hx]; [by vm_compute|].
      apply list_elem_of_singleton in Hx as ->. by vm_compute.
  - apply (heavy_output_probability_endpoints trial_heavy ["11"; "10"]).
    + by vm_compute.
    + apply NoDup_cons. split; [|apply NoDup_singleton].
      rewrite list_elem_of_singleton. done.
    + intros k [v Hk]. unfold trial_heavy in Hk. cbn [counts] in Hk.
      apply lookup_singleton_Some in Hk as [<- _]. left.
Defined.

(** ** The loop over the trials *)

Lemma calc_ideal_heavy_output_NoDup (probs : list float) (depth : nat) :
  (2 ^ depth ≤ length probs)%nat →
  ∃ heavy, _calc_ideal_heavy_output probs depth = inr heavy ∧ NoDup heavy.
Proof.
  intros Hlen. rewrite (calc_ideal_heavy_output_prefix _ _ Hlen).
  eexists. split; [reflexivity|]. apply NoDup_fmap_2_strong.
  - intros b1 b2 _ _. apply format_binary_inj.
  - apply NoDup_bool_filter, NoDup_seq.
Qed.

Lemma heavy_output_probability_range (trial : TrialRecord) (heavy : list string) :
  NoDup heavy → map_Forall (λ _ c, (0 <= c)%Z) (counts trial) →
  sum_values (counts trial) ≠ 0%Z →
  ∃ f, _calc_exp_heavy_output_probability trial heavy = inr f
       ∧ (0 <=? f)%float = true ∧ (f <=? 1)%float = true.
Proof.
  intros Hnd Hall Hne. unfold _calc_exp_heavy_output_probability.
  pose proof (heavy_counts_bounds heavy (counts trial) Hnd Hall) as Hb.
  set (h := sum_list _) in *. set (c := sum_values _) in *.
  assert (Hq : (0 <= IZR h / IZR c <= 1)%R).
  { assert (0 < IZR c)%R by (apply IZR_lt; lia).
    assert (0 <= IZR h)%R by (apply IZR_le; lia).
    assert (IZR h <= IZR c)%R by (apply IZR_le; lia).
    split; [apply Rdiv_lower; lra|apply Rdiv_upper; lra]. }
  destruct FR_0 as [F0 V0], FR_1 as [F1 V1].
  destruct (int_truediv_spec h c Hne) as [[_ Hover]|(f & E & Hf & Hr)].
  - specialize (Hover 1%float F1). rewrite V1, Rabs_pos_eq in Hover; lra.
  - exists f. split; [done|].
    destruct (rounds_between _ f 0%float 1%float Hr F0 F1) as [_ [H0 H1]];
      [lra|lra|].
    split; [by apply (leb_finite _ _ F0 Hf)|by apply (leb_finite _ _ Hf F1)].
Qed.

(** X10. The loop of [_run_analysis] over trials that are well formed (at
    least [2^depth] ideal probabilities for the depth in the trial's
    metadata, no negative count): it raises [ZeroDivisionError] exactly
    when some trial has no shot at all; otherwise it returns one
    heavy-output probability per trial, each between 0 and 1. *)
Theorem heavy_output_probabilities_spec (data : list TrialRecord) :
  Forall (λ t, (2 ^ metadata_depth t ≤ length (ideal_probabilities t))%nat
               ∧ map_Forall (λ _ c, (0 <= c)%Z) (counts t)) data →
  (heavy_output_probabilities data = inl ZeroDivisionError
   ↔ Exists (λ t, sum_values (counts t) = 0%Z) data)
  ∧ (Forall (λ t, sum_values (counts t) ≠ 0%Z) data →
     ∃ hops, heavy_output_probabilities data = inr hops
       ∧ length hops = length data
       ∧ Forall (λ h, (0 <=? h)%float = true ∧ (h <=? 1)%float = true) hops).
Proof.
  induction 1 as [|t data [Hlen Hnn] Hwf [IH1 IH2]];
    cbn [heavy_output_probabilities].
  - split.
    + split; [done|]. by intros H%Exists_nil.
    + intros _. exists []. repeat split; constructor.
  - destruct (calc_ideal_heavy_output_NoDup _ _ Hlen) as (heavy & -> & Hnd).
    destruct (Z.eq_dec (sum_values (counts t)) 0%Z) as [Hz|Hnz].
    + assert (E : _calc_exp_heavy_output_probability t heavy = inl ZeroDivisionError).
      { unfold _calc_exp_heavy_output_probability, int_truediv. by rewrite Hz. }
      rewrite E. split.
      * split; [intros _; by left|done].
      * intros Hall. apply Forall_cons in Hall as [Hne _]. done.
    + destruct (heavy_output_probability_range t heavy Hnd Hnn Hnz)
        as (f & -> & Hf).
      split.
      * split.
        -- intros H. right. apply IH1.
           destruct (heavy_output_probabilities data) as [e|hops]; [|done].
           by injection H as ->.
        -- intros H. apply Exists_cons in H as [H|H]; [done|].
           apply IH1 in H. by rewrite H.
      * intros Hall. apply Forall_cons in Hall as [_ Hall].
        destruct (IH2 Hall) as (hops & -> & Hl & Hr).
        exists (f :: hops). split; [done|]. split; [cbn; by rewrite Hl|].
        by constructor.
Qed.

Lemma heavy_output_probabilities_spec_witness :
  ∃ hops, heavy_output_probabilities [trial_heavy; trial_light] = inr hops
    ∧ length hops = 2
    ∧ Forall (λ h, (0 <=? h)%float = true ∧ (h <=? 1)%float = true) hops.
Proof.
  assert (Hnn : ∀ k : string, map_Forall (λ (_ : string) (c : Z), (0 <= c)%Z)
                                 ({[k := 1%Z]} : gmap string Z)).
  { intros k. apply map_Forall_singleton. lia. }
  apply (proj2 (heavy_output_probabilities_spec [trial_heavy; trial_light]
                  ltac:(repeat constructor; try apply Hnn; cbn; lia))).
  repeat constructor; by vm_compute.
Defined.

(** ** The estimator and the analysis as a whole *)

(** X11. In what [_run_analysis] returns, the trial count is the number of
    trials in the data and there is one heavy-output probability per
    trial. An experiment of fewer than 100 trials never succeeds: its
    quantum volume is 1 and the warning about the number of trials is
    emitted. *)
Theorem run_analysis_needs_100_trials (N : Numerics) (HAS_MATPLOTLIB : bool)
    (ed : ExperimentData) (plot : bool) (ax : option string)
    (results : list QuantumVolumeResult) (figures : option (list Figure))
    (ws : list string) :
  _run_analysis N HAS_MATPLOTLIB ed plot ax = inr ((results, figures), ws) →
  ∃ r, results = [r]
    ∧ trials r = Z.of_nat (length (data ed))
    ∧ length (heavy_output_probability r) = length (data ed)
    ∧ (qv_success r = true → (100 ≤ length (data ed))%nat)
    ∧ (length (data ed) < 100 →
       qv_success r = false ∧ quantum_volume r = 1%Z
       ∧ "Must use at least 100 trials to consider Quantum Volume as successful."
         ∈ ws).
Proof.
  unfold _run_analysis. unfold mbind, Run_bind, bind.
  destruct (heavy_output_probabilities (data ed)) as [e|hops] eqn:Hhops; [done|].
  cbn [lift ret].
  destruct (_calc_quantum_volume N hops _ _) as [e|[r ws']] eqn:Hcalc; [done|].
  cbn [ret]. intros [= <- <- <-]. exists r.
  destruct (calc_quantum_volume_inv N _ _ _ _ _ Hcalc) as [t Ht].
  destruct (calc_quantum_volume_unfold N hops (num_qubits ed) _ t Ht)
    as (z & ws'' & _ & Heq).
  rewrite Heq in Hcalc. injection Hcalc as <- <-.
  cbn [trials heavy_output_probability qv_success quantum_volume].
  apply heavy_output_probabilities_length in Hhops.
  split; [done|]. split; [done|]. split; [done|]. split.
  - intros Hs. apply andb_true_iff in Hs as [_ Hn]. apply Z.leb_le in Hn. lia.
  - intros Hlt.
    assert (Hn : (100 <=? Z.of_nat (length (data ed)))%Z = false)
      by (apply Z.leb_gt; lia).
    rewrite Hn, andb_false_r. split; [done|]. split; [done|].
    rewrite app_nil_r, elem_of_app. right.
    destruct (Z.ltb_spec (Z.of_nat (length (data ed))) 100) as [_|]; [|lia].
    by apply list_elem_of_singleton.
Qed.

Lemma run_analysis_needs_100_trials_witness :
  ∃ r, [r] = [r]
    ∧ trials r = 2%Z
    ∧ qv_success r = false ∧ quantum_volume r = 1%Z.
Proof.
  assert (E : ∃ results figures ws,
            _run_analysis reference_numerics false
              (mkExperimentData 2 [trial_heavy; trial_heavy]) false None
              = inr ((results, figures), ws))
    by (vm_compute; eauto).
  destruct E as (results & figures & ws & E).
  destruct (run_analysis_needs_100_trials _ _ _ _ _ _ _ _ E)
    as (r & -> & Ht & _ & _ & Hfew).
  exists r. split; [reflexivity|]. split; [exact Ht|].
  destruct (Hfew ltac:(cbn; lia)) as (Hs & Hq & _). by split.
Defined.

Lemma ltb_infinity_r (c : float) : finite c → (c <? infinity)%float = true.
Proof.
  intros Fc. rewrite FloatAxioms.ltb_spec, Prim2SF_infinity. unfold finite in Fc.
  by destruct (Prim2SF c) as [s|s| |[] m e].
Qed.

(** What a mean above the threshold [2/3 + 2 * sigma] tells, when sigma is
    not negative: the mean is above 2/3. *)
Lemma above_threshold_above_two_thirds (mean sigma_hop : float) :
  (sigma_hop <? 0)%float = false →
  ((2 / 3 + 2 * sigma_hop)%float <? mean)%float = true →
  (2 / 3 <? mean)%float = true.
Proof.
  intros Hnn Hlt.
  destruct two_thirds_value as [Fc Hc].
  destruct FR_0 as [F0 E0]. destruct FR_2 as [F2 E2].
  destruct (ltb_true_cases _ _ Hlt) as (HT & Hmean & Hord).
  destruct Hmean as [->|Fm]; [by apply ltb_infinity_r|].
  assert (Hs : finite sigma_hop ∧ (0 <= FR sigma_hop)%R).
  { destruct (float_cases sigma_hop) as [E|[E|[E|Fs]]].
    - exfalso. rewrite E, mul_nan_r, add_nan_r in HT. destruct HT as [HT|HT].
      + apply (f_equal Prim2SF) in HT. done.
      + by apply finite_not_special in HT as (? & _).
    - exfalso.
      rewrite E, (infinity_mul_pos 2 F2 ltac:(lra)), (add_infinity_r _ Fc) in HT.
      destruct HT as [HT|HT].
      + apply (f_equal Prim2SF) in HT. done.
      + by apply finite_not_special in HT as (_ & ? & _).
    - exfalso. rewrite E in Hnn. by vm_compute in Hnn.
    - split; [done|]. destruct (Rle_or_lt 0 (FR sigma_hop)) as [|Hneg]; [done|].
      exfalso. apply not_true_iff_false in Hnn. apply Hnn.
      apply (ltb_finite _ _ Fs F0). by rewrite E0. }
  destruct Hs as [Fs Hs0].
  pose proof (mul_rounds 2 sigma_hop F2 Fs) as Hd. rewrite E2 in Hd.
  destruct (rounds_ge _ _ 0%float Hd F0 ltac:(rewrite E0; lra)) as [Ed|[Fd Hd0]].
  { exfalso. rewrite Ed, (add_infinity_r _ Fc) in HT. destruct HT as [HT|HT].
    - apply (f_equal Prim2SF) in HT. done.
    - by apply finite_not_special in HT as (_ & ? & _). }
  rewrite E0 in Hd0.
  pose proof (add_rounds (2 / 3) _ Fc Fd) as HTr.
  destruct (rounds_ge _ _ (2 / 3)%float HTr Fc ltac:(lra)) as [E|[FT HcT]].
  - exfalso. rewrite E in HT. destruct HT as [HT|HT].
    + apply (f_equal Prim2SF) in HT. done.
    + by apply finite_not_special in HT as (_ & ? & _).
  - specialize (Hord FT Fm). apply (ltb_finite _ _ Fc Fm). lra.
Qed.

(** X12. A success means a mean heavy-output probability above 2/3, the
    criterion of the docstring: as [x ** 0.5] is never negative, the
    threshold [2/3 + 2 * sigma] is at least 2/3. *)
Theorem success_implies_mean_above_two_thirds (N : Numerics)
    (hop : list float) (d : nat) (n : Z)
    (r : QuantumVolumeResult) (ws : list string) :
  (∀ x, (pow_half N x <? 0)%float = false) →
  _calc_quantum_volume N hop d n = inr (r, ws) →
  qv_success r = true →
  (2 / 3 <? mean_hop r)%float = true.
Proof.
  intros Hnn Hrun Hsucc.
  destruct (calc_quantum_volume_inv N _ _ _ _ _ Hrun) as [t Ht].
  destruct (calc_quantum_volume_unfold N hop d n t Ht) as (z & ws' & _ & Heq).
  rewrite Heq in Hrun. injection Hrun as <- _.
  cbn [qv_success mean_hop] in *.
  apply andb_true_iff in Hsucc as [Hlt _].
  eapply above_threshold_above_two_thirds; [apply Hnn|exact Hlt].
Qed.

Lemma success_implies_mean_above_two_thirds_witness :
  ∃ r ws,
    _calc_quantum_volume reference_numerics (replicate 100 1%float) 2 100
      = inr (r, ws)
    ∧ (2 / 3 <? mean_hop r)%float = true.
Proof.
  assert (E : ∃ r ws,
            _calc_quantum_volume reference_numerics (replicate 100 1%float) 2 100
              = inr (r, ws) ∧ qv_success r = true)
    by (vm_compute; eauto).
  destruct E as (r & ws & E & Hs). exists r, ws. split; [done|].
  exact (success_implies_mean_above_two_thirds reference_numerics _ _ _ _ _
           pow_half_sqrt_nonneg E Hs).
Defined.

Lemma FR_pow2_1023 : finite 0x1p1023 ∧ FR 0x1p1023 = IZR (2 ^ 1023).
Proof.
  destruct (FR_const 0x1p1023 false 4503599627370496 971
              ltac:(vm_compute; reflexivity)) as [F E].
  split; [done|]. rewrite E, (bpow_IZR 971), Rmult_1_l, <- mult_IZR by lia.
  f_equal.
Qed.

Lemma int_to_float_total (n : Z) :
  (Z.abs n <= 2 ^ 1023)%Z → ∃ t, int_to_float n = inr t.
Proof.
  intros Hn. unfold int_to_float.
  pose proof (binary_normalize_spec n 0 false) as Hr.
  destruct (binary_normalize prec emax n 0 false) as [s|s| |s m e] eqn:E; eauto.
  exfalso. destruct FR_pow2_1023 as [Fg Eg].
  pose proof (SFrounds_infinity _ _ Hr _ Fg) as Hlt.
  rewrite Eg in Hlt. change (bpow 0) with 1%R in Hlt.
  rewrite Rmult_1_r, <- abs_IZR in Hlt. apply lt_IZR in Hlt. lia.
Qed.

(** X13. The estimator raises nothing but [OverflowError], and this only
    for a trial count too large for a float: for every count of absolute
    value up to [2^1023], also for 0 trials, a negative count or an empty
    list of probabilities, it returns a record. *)
Theorem calc_quantum_volume_returns (N : Numerics) (hop : list float)
    (d : nat) (n : Z) :
  (∀ e, _calc_quantum_volume N hop d n = inl e →
        e = OverflowError ∧ int_to_float n = inl OverflowError)
  ∧ ((Z.abs n <= 2 ^ 1023)%Z →
     ∃ r ws, _calc_quantum_volume N hop d n = inr (r, ws)).
Proof.
  split.
  - intros e He. destruct (int_to_float n) as [e'|t] eqn:Ht.
    + assert (e' = OverflowError) as ->.
      { unfold int_to_float in Ht.
        destruct (binary_normalize prec emax n 0 false); congruence. }
      unfold _calc_quantum_volume in He. rewrite Ht in He. cbn in He.
      by injection He as <-.
    + destruct (calc_quantum_volume_unfold N hop d n t Ht) as (z & ws' & _ & Heq).
      by rewrite Heq in He.
  - intros Hn. destruct (int_to_float_total n Hn) as [t Ht].
    destruct (calc_quantum_volume_unfold N hop d n t Ht) as (z & ws' & _ & Heq).
    eauto.
Qed.

Lemma calc_quantum_volume_returns_witness :
  ∃ r ws, _calc_quantum_volume reference_numerics [] 2 0 = inr (r, ws).
Proof.
  apply (proj2 (calc_quantum_volume_returns reference_numerics [] 2 0)).
  vm_compute. discriminate.
Defined.



(** X15. Whatever z value that is not a NaN it is given, the confidence
    level is a float between 0 and 1. *)
Theorem confidence_level_unit_interval (N : Numerics) (z_value : float) :
  NumericsSpec N → is_nan z_value = false →
  (0 <=? _calc_confidence_level N z_value)%float = true
  ∧ (_calc_confidence_level N z_value <=? 1)%float = true.
Proof.
  intros HN Hz.
  assert (Hz' : z_value ≠ nan) by (intros ->; by vm_compute in Hz).
  destruct (confidence_level_range N HN z_value Hz') as [Fc Hc].
  destruct FR_0 as [F0 E0]. destruct FR_1 as [F1 E1]. split.
  - apply (leb_finite _ _ F0 Fc). rewrite E0. lra.
  - apply (leb_finite _ _ Fc F1). rewrite E1. lra.
Qed.

Lemma confidence_level_unit_interval_witness :
  (0 <=? _calc_confidence_level reference_numerics (-3))%float = true
  ∧ (_calc_confidence_level reference_numerics (-3) <=? 1)%float = true.
Proof.
  apply confidence_level_unit_interval; [apply reference_numerics_spec|].
  vm_compute. reflexivity.
Defined.

End QuantumVolumeTheory.
